(** * The operation-confirmation observer of tzgo (rpc/observer.go) and the
      Taqueria configuration glue (internal/compose/taqconfig.go)

    The observer keeps three Go maps ([subs], [watched], [recent]) and a
    sequence counter behind one [sync.Mutex]; a background loop
    ([listenBlocks]) fetches heads and dispatches callbacks, while callers run
    [Subscribe], [Unsubscribe] and [Close] concurrently.

    Modelling choices.
    - Go maps are stdpp [gmap]s.  A [range] over a map yields its keys in an
      order the runtime chooses: the order is an input of the step that ranges.
    - Go's [int] and [int64] are 64-bit two's complement numbers, kept as [Z];
      the one arithmetic operation of the observer, [m.seq++], wraps.
    - [tezos.OpHash] and [tezos.BlockHash] are declared outside these sources:
      they are parameters, with the decidable equality ([Equal], map keys) the
      code relies on.
    - A callback is a Go closure.  It runs with the mutex held, so a callback
      that returns cannot have called back into the observer (the mutex is not
      reentrant); everything else it may touch is the [World], which it reads
      and updates.
    - Every callback invocation and every chain-client call is appended to an
      observation log, so that "is invoked", "exactly once" and "never opens a
      stream again" are statements about that log. *)

From stdpp Require Import gmap strings list fin_maps.
From Stdlib Require Import ZArith Lia.

Open Scope Z_scope.

(** ** Machine integers *)

Definition int_min : Z := - 2 ^ 63.
Definition int_max : Z := 2 ^ 63 - 1.

(** The value a 64-bit signed register holds after an operation whose
    mathematical result is [z]. *)
Definition int_wrap (z : Z) : Z := (z + 2 ^ 63) `mod` 2 ^ 64 - 2 ^ 63.

(** [x++] on a Go [int]. *)
Definition int_incr (x : Z) : Z := int_wrap (x + 1).

Section Observer.

Context {OpHash BlockHash World : Type}.
Context `{Countable OpHash} `{EqDecision BlockHash}.

(** ** Data model (rpc/observer.go) *)

(** [type ObserverCallback func(tezos.BlockHash, int64, int, int, bool) bool],
    threaded through the state of the rest of the program. *)
Definition ObserverCallback : Type :=
  BlockHash → Z → Z → Z → bool → World → bool * World.

Record observerSubscription := mkSub {
  id : Z;
  cb : ObserverCallback;
  oh : OpHash;
  matched : bool
}.

(** [type Observer struct].  [once] is the flag [listening]; [ctx]/[cancel]
    is the flag [cancelled]; [mu] is the granularity of the steps below; the
    client [c] is the source of the replies the engine consumes. *)
Record Observer := mkObserver {
  subs : gmap Z observerSubscription;
  watched : gmap OpHash Z;
  recent : gmap OpHash (Z * Z * Z);
  seq : Z;
  cancelled : bool;
  listening : bool;
  minDelay : Z;
  bestHash : BlockHash;
  bestHeight : Z
}.

Definition with_subs (v : gmap Z observerSubscription) (m : Observer) : Observer :=
  mkObserver v (watched m) (recent m) (seq m) (cancelled m) (listening m)
             (minDelay m) (bestHash m) (bestHeight m).

Definition with_watched (v : gmap OpHash Z) (m : Observer) : Observer :=
  mkObserver (subs m) v (recent m) (seq m) (cancelled m) (listening m)
             (minDelay m) (bestHash m) (bestHeight m).

Definition with_recent (v : gmap OpHash (Z * Z * Z)) (m : Observer) : Observer :=
  mkObserver (subs m) (watched m) v (seq m) (cancelled m) (listening m)
             (minDelay m) (bestHash m) (bestHeight m).

Definition with_seq (v : Z) (m : Observer) : Observer :=
  mkObserver (subs m) (watched m) (recent m) v (cancelled m) (listening m)
             (minDelay m) (bestHash m) (bestHeight m).

Definition with_minDelay (v : Z) (m : Observer) : Observer :=
  mkObserver (subs m) (watched m) (recent m) (seq m) (cancelled m) (listening m)
             v (bestHash m) (bestHeight m).

Definition with_listening (v : bool) (m : Observer) : Observer :=
  mkObserver (subs m) (watched m) (recent m) (seq m) (cancelled m) v
             (minDelay m) (bestHash m) (bestHeight m).

Definition with_best (h : BlockHash) (height : Z) (m : Observer) : Observer :=
  mkObserver (subs m) (watched m) (recent m) (seq m) (cancelled m) (listening m)
             (minDelay m) h height.

(** The chain-client calls of [listenBlocks]. *)
Inductive RpcKind :=
  | RpcMonitorBlockHeader
  | RpcRecv
  | RpcGetTipHeader
  | RpcGetBlockHash
  | RpcGetBlockOperationHashes.

(** One observation: a callback of watcher [id] was run on the five arguments
    and returned [ret], or the engine called the chain client. *)
Inductive Obs :=
  | OCall (i : Z) (bh : BlockHash) (height batch pos : Z) (isFinal ret : bool)
  | ORpc (k : RpcKind).

(** What the steps under the mutex read and write: the observer, the rest of
    the program, and the log. *)
Record Mem := mkMem {
  obs : Observer;
  world : World;
  log : list Obs
}.

Definition with_obs (m : Observer) (μ : Mem) : Mem := mkMem m (world μ) (log μ).

Definition logged (o : Obs) (μ : Mem) : Mem :=
  mkMem (obs μ) (world μ) (log μ ++ [o]).

(** [v.cb(bh, height, batch, pos, isFinal)] *)
Definition invoke (v : observerSubscription) (bh : BlockHash)
    (height batch pos : Z) (isFinal : bool) (μ : Mem) : bool * Mem :=
  let '(remove, w) := cb v bh height batch pos isFinal (world μ) in
  (remove,
   mkMem (obs μ) w (log μ ++ [OCall (id v) bh height batch pos isFinal remove])).

(** [delete(m.subs, i)] *)
Definition delete_sub (i : Z) (μ : Mem) : Mem :=
  with_obs (with_subs (delete i (subs (obs μ))) (obs μ)) μ.

(** ** The caller's operations *)

(** [NewObserver]: empty maps, [seq = 0], the zero block hash. *)
Definition NewObserver (zero : BlockHash) (defaultDelay : Z) : Observer :=
  mkObserver ∅ ∅ ∅ 0 false false defaultDelay zero 0.

Definition WithDelay (d : Z) (μ : Mem) : Mem :=
  with_obs (with_minDelay d (obs μ)) μ.

(** [Close]: cancel the context and replace the three maps by empty ones. *)
Definition Close (μ : Mem) : Mem :=
  let m := obs μ in
  with_obs (mkObserver ∅ ∅ ∅ (seq m) true (listening m) (minDelay m)
                       (bestHash m) (bestHeight m)) μ.

(** [Subscribe].  [match := m.subs[seq]] is the entry stored four lines
    above it; [int(pos[1])] and [int(pos[2])] change nothing on 64 bits. *)
Definition Subscribe (h : OpHash) (f : ObserverCallback) (μ : Mem) : Z * Mem :=
  let m := obs μ in
  let seq' := int_incr (seq m) in
  let sub := mkSub seq' f h false in
  let m1 := with_watched (<[h := seq']> (watched m))
              (with_subs (<[seq' := sub]> (subs m)) (with_seq seq' m)) in
  let μ1 := with_obs m1 μ in
  match recent m1 !! h with
  | Some (height, batch, pos) =>
      let '(remove, μ2) := invoke sub (bestHash m1) height batch pos false μ1 in
      (seq', if remove then delete_sub (id sub) μ2 else μ2)
  | None => (seq', μ1)
  end.

(** [Unsubscribe] *)
Definition Unsubscribe (i : Z) (μ : Mem) : Mem :=
  let m := obs μ in
  match subs m !! i with
  | Some req =>
      with_obs (with_subs (delete i (subs m))
                  (with_watched (delete (oh req) (watched m)) m)) μ
  | None => μ
  end.

(** ** The engine: [listenBlocks] *)

(** Where the loop stands.  The two critical sections ([PcDepth],
    [PcDispatch]) are one step each, since no other lock holder can run inside
    them; what the loop does without the mutex is cut at every chain-client
    call, every wait, and every [delete] of the loop that clears [m.recent]. *)
Inductive Pc :=
  | PcIdle        (* [Listen] not called yet *)
  | PcTop         (* [select { case <-m.ctx.Done(): return; default: }] *)
  | PcConnect     (* [if mon == nil && useEvents] *)
  | PcBackoff     (* a 5 second wait, then [continue] *)
  | PcHead        (* [mon.Recv], or [GetTipHeader] and [GetBlockHash] *)
  | PcSkipWait    (* the [minDelay/2] wait on an already processed head *)
  | PcDepth       (* callbacks for all previous matches, under the mutex *)
  | PcFetch       (* [GetBlockOperationHashes] *)
  | PcClear       (* [for n := range m.recent { delete(m.recent, n) }] *)
  | PcDispatch    (* the fan-out loop and the head update, under the mutex *)
  | PcPollWait    (* the [minDelay] wait of poll mode *)
  | PcExit.       (* returned *)

Global Instance Pc_eq_dec : EqDecision Pc.
Proof. solve_decision. Defined.

(** The loop's local variables. *)
Record Engine := mkEngine {
  pc : Pc;
  mon : bool;              (* [mon != nil] *)
  useEvents : bool;
  firstLoop : bool;
  headBlock : BlockHash;
  headHeight : Z;
  ohs : list (list OpHash)
}.

Definition at_pc (p : Pc) (e : Engine) : Engine :=
  mkEngine p (mon e) (useEvents e) (firstLoop e) (headBlock e) (headHeight e) (ohs e).

(** What the environment contributes to one engine step: the chain client's
    answers (an absent answer is an error; for [MonitorBlockHeader] the error
    carries its [ErrorStatus]) and the choices of the Go runtime when a map is
    ranged over. *)
Record Reply := mkReply {
  r_monitor : option Z;
  r_recv : option (BlockHash * Z);
  r_tip : option Z;
  r_hash : option BlockHash;
  r_ops : option (list (list OpHash));
  r_range_subs : list Z;
  r_range_recent : option OpHash
}.

Record Sys := mkSys {
  mem : Mem;
  eng : Engine
}.

Definition with_mem (μ : Mem) (s : Sys) : Sys := mkSys μ (eng s).
Definition with_eng (e : Engine) (s : Sys) : Sys := mkSys (mem s) e.
Definition goto (p : Pc) (s : Sys) : Sys := with_eng (at_pc p (eng s)) s.
Definition rpc (k : RpcKind) (s : Sys) : Sys := with_mem (logged (ORpc k) (mem s)) s.

(** A wait that honours cancellation:
    [select { case <-m.ctx.Done(): return; case <-time.After(d): }]
    followed by [continue].  A [Close] that arrives during the wait is a
    [Close] step taken before this one. *)
Definition wait_or_return (s : Sys) : Sys :=
  if cancelled (obs (mem s)) then goto PcExit s else goto PcTop s.

(** The order in which [range m.subs] yields the keys: each key once. *)
Definition range_ok (ks : list Z) (m : gmap Z observerSubscription) : Prop :=
  NoDup ks ∧ list_to_set ks = dom m.

(** One iteration of [for _, v := range m.subs]: an entry deleted before
    it is reached is not produced. *)
Definition depth_one (hb : BlockHash) (μ : Mem) (k : Z) : Mem :=
  match subs (obs μ) !! k with
  | Some v =>
      if matched v then
        let '(remove, μ') := invoke v hb (-1) (-1) (-1) false μ in
        if remove then delete_sub (id v) μ' else μ'
      else μ
  | None => μ
  end.

Definition depth_pass (hb : BlockHash) (ks : list Z) (μ : Mem) : Mem :=
  foldl (depth_one hb) μ ks.

(** [match.matched = true], through the pointer stored at [m.subs[i]]. *)
Definition set_matched (i : Z) (μ : Mem) : Mem :=
  let m := obs μ in
  with_obs (with_subs
    (alter (λ v, mkSub (id v) (cb v) (oh v) true) i (subs m)) m) μ.

(** The body of [for n, h := range list] for the hash [h] at position [n]
    of batch [l]. *)
Definition dispatch_one (hb : BlockHash) (hh : Z) (μ : Mem)
    (e : Z * Z * OpHash) : Mem :=
  let '(l, n, h) := e in
  let m := obs μ in
  let μ1 := with_obs (with_recent (<[h := (hh, l, n)]> (recent m)) m) μ in
  match watched m !! h with
  | None => μ1
  | Some i =>
      match subs m !! i with
      | None => μ1
      | Some mt =>
          if decide (oh mt = h) then
            let '(remove, μ2) := invoke mt hb hh l n false μ1 in
            if remove then delete_sub (id mt) μ2 else set_matched i μ2
          else μ1
      end
  end.

(** The operations of a block with their batch index and position, in the
    order of the two nested [range] loops over slices. *)
Definition block_entries (o : list (list OpHash)) : list (Z * Z * OpHash) :=
  concat (imap (λ l lst, imap (λ n h, (Z.of_nat l, Z.of_nat n, h)) lst) o).

Definition dispatch_pass (hb : BlockHash) (hh : Z) (o : list (list OpHash))
    (μ : Mem) : Mem :=
  let μ' := foldl (dispatch_one hb hh) μ (block_entries o) in
  with_obs (with_best hb hh (obs μ')) μ'.

(** What follows a successfully obtained head: [firstLoop = false] and the
    test for an already processed block. *)
Definition after_head (hash : BlockHash) (level : Z) (s : Sys) : Sys :=
  let e := eng s in
  let p := if bool_decide (hash = bestHash (obs (mem s))) && negb (useEvents e)
           then PcSkipWait else PcDepth in
  with_eng (mkEngine p (mon e) (useEvents e) false hash level (ohs e)) s.

Definition engine_step (r : Reply) (s : Sys) : option Sys :=
  let e := eng s in
  let μ := mem s in
  match pc e with
  | PcIdle | PcExit => None
  | PcTop => Some (if cancelled (obs μ) then goto PcExit s else goto PcConnect s)
  | PcConnect =>
      if negb (mon e) && useEvents e then
        let s1 := rpc RpcMonitorBlockHeader s in
        match r_monitor r with
        | Some status =>
            if bool_decide (status = 404)
            then Some (with_eng (mkEngine PcTop false false (firstLoop e)
                                   (headBlock e) (headHeight e) (ohs e)) s1)
            else Some (with_eng (mkEngine PcBackoff false (useEvents e) (firstLoop e)
                                   (headBlock e) (headHeight e) (ohs e)) s1)
        | None =>
            Some (with_eng (mkEngine PcHead true (useEvents e) (firstLoop e)
                              (headBlock e) (headHeight e) (ohs e)) s1)
        end
      else Some (goto PcHead s)
  | PcBackoff | PcSkipWait | PcPollWait => Some (wait_or_return s)
  | PcHead =>
      if mon e && useEvents e && negb (firstLoop e) then
        let s1 := rpc RpcRecv s in
        match r_recv r with
        | None =>
            Some (with_eng (mkEngine PcTop false (useEvents e) (firstLoop e)
                              (headBlock e) (headHeight e) (ohs e)) s1)
        | Some (hash, level) => Some (after_head hash level s1)
        end
      else
        let s1 := rpc RpcGetTipHeader s in
        match r_tip r with
        | None => Some (goto PcBackoff s1)
        | Some level =>
            let s2 := rpc RpcGetBlockHash s1 in
            match r_hash r with
            | None => Some (goto PcTop s2)
            | Some hash => Some (after_head hash level s2)
            end
        end
  | PcDepth =>
      if decide (range_ok (r_range_subs r) (subs (obs μ)))
      then Some (goto PcFetch
                   (with_mem (depth_pass (headBlock e) (r_range_subs r) μ) s))
      else None
  | PcFetch =>
      let s1 := rpc RpcGetBlockOperationHashes s in
      match r_ops r with
      | None => Some (goto PcTop s1)
      | Some o =>
          Some (with_eng (mkEngine PcClear (mon e) (useEvents e) (firstLoop e)
                            (headBlock e) (headHeight e) o) s1)
      end
  | PcClear =>
      if decide (recent (obs μ) = ∅) then Some (goto PcDispatch s)
      else
        match r_range_recent r with
        | Some n =>
            if decide (is_Some (recent (obs μ) !! n))
            then Some (with_mem
                   (with_obs (with_recent (delete n (recent (obs μ))) (obs μ)) μ) s)
            else None
        | None => None
        end
  | PcDispatch =>
      Some (goto (if useEvents e then PcTop else PcPollWait)
              (with_mem (dispatch_pass (headBlock e) (headHeight e) (ohs e) μ) s))
  end.

(** [Listen]: the first call of [Listen] or [ListenMempool] takes the
    client's minimal block delay, if it has parameters, and starts the loop;
    [listenMempool] is empty, so after [ListenMempool] no loop ever runs. *)
Definition start (params : option Z) (blocks : bool) (zero : BlockHash) (s : Sys) : Sys :=
  let m := obs (mem s) in
  if listening m then s
  else
    let m1 := with_listening true
                (match params with Some d => with_minDelay d m | None => m end) in
    mkSys (with_obs m1 (mem s))
          (if blocks then mkEngine PcTop false true true zero 0 [] else eng s).

(** ** The system: callers and engine interleaved *)

Inductive Event :=
  | ESubscribe (h : OpHash) (f : ObserverCallback)
  | EUnsubscribe (i : Z)
  | EClose
  | EWithDelay (d : Z)
  | EListen (params : option Z)
  | EListenMempool (params : option Z)
  | EEngine (r : Reply).

Definition step (zero : BlockHash) (ev : Event) (s : Sys) : option Sys :=
  match ev with
  | ESubscribe h f => Some (with_mem (Subscribe h f (mem s)).2 s)
  | EUnsubscribe i => Some (with_mem (Unsubscribe i (mem s)) s)
  | EClose => Some (with_mem (Close (mem s)) s)
  | EWithDelay d => Some (with_mem (WithDelay d (mem s)) s)
  | EListen params => Some (start params true zero s)
  | EListenMempool params => Some (start params false zero s)
  | EEngine r => engine_step r s
  end.

Fixpoint run (zero : BlockHash) (evs : list Event) (s : Sys) : option Sys :=
  match evs with
  | [] => Some s
  | ev :: evs' =>
      match step zero ev s with
      | Some s' => run zero evs' s'
      | None => None
      end
  end.

(** A fresh observer in a program whose state is [w], nothing logged yet. *)
Definition init (zero : BlockHash) (defaultDelay : Z) (w : World) : Sys :=
  mkSys (mkMem (NewObserver zero defaultDelay) w [])
        (mkEngine PcIdle false true true zero 0 []).

End Observer.

(** ** Concrete programs used to exercise the model

    Hashes are written as strings, and the rest of the program is a counter
    of the callbacks that ran. *)

Module Scenario.

Definition Hash : Type := string.

(** A callback that keeps its watcher. *)
Definition keep : @ObserverCallback Hash nat :=
  λ _ _ _ _ _ w, (false, S w).

(** A callback that asks for removal. *)
Definition drop : @ObserverCallback Hash nat :=
  λ _ _ _ _ _ w, (true, S w).

(** A reply that answers nothing. *)
Definition silent : @Reply Hash Hash :=
  mkReply None None None None None [] None.

(** [MonitorBlockHeader] fails with the given status. *)
Definition monitor_fails (status : Z) : @Reply Hash Hash :=
  mkReply (Some status) None None None None [] None.

(** The tip is at [level], with block hash [h]. *)
Definition tip (level : Z) (h : Hash) : @Reply Hash Hash :=
  mkReply None None (Some level) (Some h) None [] None.

(** [range m.subs] yields [ks]. *)
Definition ranging (ks : list Z) : @Reply Hash Hash :=
  mkReply None None None None None ks None.

(** The block's operation hashes are [o]. *)
Definition ops (o : list (list Hash)) : @Reply Hash Hash :=
  mkReply None None None None (Some o) [] None.

(** [range m.recent] yields [n] next. *)
Definition clearing (n : Hash) : @Reply Hash Hash :=
  mkReply None None None None None [] (Some n).

Definition zero : Hash := "".

Definition fresh : @Sys Hash Hash nat _ _ := init zero 30 0%nat.

(** Poll mode, one block: the tip is block [h] at [level] with operations
    [o]; [ks] are the live watcher ids when the depth pass runs, and [cached]
    the hashes in the cache, in the order the clearing loop deletes them.
    The events run from the top of the loop to the end of the dispatch
    pass. *)
Definition poll_block (level : Z) (h : Hash) (o : list (list Hash)) (ks : list Z)
    (cached : list Hash) : list (@Event Hash Hash nat) :=
  [EEngine silent; EEngine silent; EEngine (tip level h);
   EEngine (ranging ks); EEngine (ops o)]
  ++ map (λ n, EEngine (clearing n)) cached
  ++ [EEngine silent; EEngine silent].

(** A callback that keeps its watcher on the position report and asks for
    removal on the first depth report. *)
Definition drop_on_depth : @ObserverCallback Hash nat :=
  λ _ height _ _ _ w, (bool_decide (height = -1), S w).

(** The loop is started against a node without the event stream, and has
    fallen back to poll mode. *)
Definition start_polling : list (@Event Hash Hash nat) :=
  [EListen None; EEngine silent; EEngine (monitor_fails 404)].

(** The wait that ends a poll cycle. *)
Definition poll_wait : list (@Event Hash Hash nat) := [EEngine silent].

(** The steps of a poll cycle up to the fetch: top, connect, head, depth
    pass. *)
Definition to_fetch (level : Z) (h : Hash) (ks : list Z) : list (@Reply Hash Hash) :=
  [silent; silent; tip level h; ranging ks].

(** [included_before_with k]: see [Witness.included_before]; here watcher
    [k] is live when the depth pass of block [h100] runs. *)
Definition included_before_with (k : Z) : list (@Event Hash Hash nat) :=
  start_polling ++ poll_block 100 "h100" [["x"; "y"; "z"; "opA"]] [k] [] ++ poll_wait.

(** The state the events lead to from a fresh observer. *)
Definition after (evs : list (@Event Hash Hash nat)) : @Sys Hash Hash nat _ _ :=
  default fresh (run zero evs fresh).

End Scenario.

(** * internal/compose/taqconfig.go *)

Module Compose.

(** A Go call either panics or returns. *)
Inductive outcome (A : Type) :=
  | Panic
  | Return (a : A).
Arguments Panic {A}.
Arguments Return {A} a.

(** A Go [(value, error)] result of which exactly one part is set. *)
Inductive result (A : Type) :=
  | Ok (a : A)
  | Err (msg : string).
Arguments Ok {A} a.
Arguments Err {A} msg.

(** [strings.HasPrefix] and [strings.TrimPrefix] *)
Fixpoint strip_prefix (prefix s : string) : option string :=
  match prefix, s with
  | EmptyString, _ => Some s
  | String a p, String b t => if Ascii.eqb a b then strip_prefix p t else None
  | String _ _, EmptyString => None
  end.

Definition HasPrefix (s prefix : string) : bool :=
  match strip_prefix prefix s with Some _ => true | None => false end.

Definition TrimPrefix (s prefix : string) : string :=
  match strip_prefix prefix s with Some t => t | None => s end.

(** The test both flag functions make on an argument. *)
Definition is_flag (flag arg : string) : bool :=
  HasPrefix arg "-" && String.eqb (TrimPrefix arg "-") flag.

(** [IsFlagSpecified], over [os.Args]. *)
Definition IsFlagSpecified (args : list string) (flag : string) : bool :=
  existsb (is_flag flag) args.

(** [getFlagValue]: at the first argument that is the flag, index
    [os.Args[i+1]]; an index out of range panics. *)
Fixpoint getFlagValue_from (args : list string) (i : nat) (rest : list string)
    (flag : string) : outcome string :=
  match rest with
  | [] => Return ""
  | arg :: rest' =>
      if is_flag flag arg then
        match args !! (i + 1)%nat with
        | Some v => Return v
        | None => Panic
        end
      else getFlagValue_from args (S i) rest' flag
  end.

Definition getFlagValue (args : list string) (flag : string) : outcome string :=
  getFlagValue_from args 0 args flag.

Record TaqAccountBalance := mkTaqAccountBalance {
  Amount : string;
  Units : string
}.

Record TaqAccount := mkTaqAccount {
  Balance : TaqAccountBalance
}.

Record TaqEnvironment := mkTaqEnvironment {
  EnvType : string;
  Label : string;
  EnvRpcUrl : string
}.

Record TaqPlugin := mkTaqPlugin {
  PluginType : string;
  PluginName : string
}.

Record TaqConfig := mkTaqConfig {
  Version : string;
  Language : string;
  ArtifactsDir : string;
  ContractsDir : string;
  ConfigAccounts : gmap string TaqAccount;
  EnvironmentDefault : string;
  Environments : gmap string TaqEnvironment;
  Plugins : list TaqPlugin
}.

Record TaqEnvAccount := mkTaqEnvAccount {
  EncryptedKey : string;
  PublicKeyHash : string;
  SecretKey : string
}.

Record TaqConfigEnv := mkTaqConfigEnv {
  Accounts : gmap string TaqEnvAccount;
  AccountDefault : string;
  RpcUrl : string
}.

Record TaqConfigSet := mkTaqConfigSet {
  Config : TaqConfig;
  ConfigEnv : TaqConfigEnv
}.

(** A call of the builtin [println] with an [error].  The builtin writes an
    interface value as its two words, not the text of its [Error] method, so
    the model records the call and the error it was given, and no text. *)
Inductive PrintCall := PrintlnError (err : string).

Section Glue.

(** Declared outside these sources: [encoding/json]'s decoder at the two
    configuration types (no value stands for an error), the keys and
    addresses of package [tezos], and [compose.Context] with its
    [AddVariable].  [ParsePrivateKey] returns a key value also when it
    returns an error; [sk.Address()] derives the address from the bytes of
    the key and panics on a key value that has none: [KeyAddress] gives no
    value where the call panics. *)
Context {PrivateKey Address : Type} `{Countable Address}.
Variable unmarshalConfig : string → option TaqConfig.
Variable unmarshalEnv : string → option TaqConfigEnv.
Variable ParsePrivateKey : string → PrivateKey * option string.
Variable KeyAddress : PrivateKey → option Address.
Variable AddressString : Address → string.

Record Account := mkAccount {
  AccAddress : Address;
  AccPrivateKey : PrivateKey;
  AccId : Z
}.

(** The fields of [compose.Context] that this file assigns. *)
Record Context := mkContext {
  BaseAccount : Account;
  CtxAccounts : gmap Address Account;
  Variables : gmap string string
}.

Variable AddVariable : string → string → Context → Context.
Variable NewContext : Context.

Definition ParseTaqConfig (taqConfigJSON taqEnvConfigJSON : string)
  : result TaqConfigSet :=
  if String.eqb taqConfigJSON "" then
    Err "E_TAQ_ERROR: Missing taqueria project configuration"
  else if String.eqb taqEnvConfigJSON "" then
    Err "E_TAQ_ERROR: Missing taqueria local environment configuration"
  else
    match unmarshalConfig taqConfigJSON with
    | None => Err "E_TAQ_ERROR: Invalid taqueria project configuration"
    | Some config =>
        match unmarshalEnv taqEnvConfigJSON with
        | None => Err "E_TAQ_ERROR: Invalid taqueria local environment configuration"
        | Some envConfig => Ok (mkTaqConfigSet config envConfig)
        end
    end.

Definition isDefaultAccount (accountName defaultAccountName : string) : bool :=
  String.eqb accountName defaultAccountName.

Definition getAccountId (accountName defaultAccountName : string) (nextId : Z) : Z :=
  if isDefaultAccount accountName defaultAccountName then -1 else nextId.

(** What [mapTaqEnvAccountToContextAccount] carries from one iteration to the
    next: the context and [count]. *)
Record MapState := mkMapState {
  ms_ctx : Context;
  ms_count : Z
}.

(** The loop body for the key [accountName]: the calls of [println] it
    makes, and the state it leaves unless [sk.Address()] panics. *)
Definition mapAccount (taqAccounts : gmap string TaqEnvAccount)
    (taqAccountDefault : string) (st : MapState) (accountName : string)
  : list PrintCall * outcome MapState :=
  match taqAccounts !! accountName with
  | None => ([], Return st)
  | Some taqAccount =>
      let str_sk := TrimPrefix (SecretKey taqAccount) "unencrypted:" in
      let '(sk, err) := ParsePrivateKey str_sk in
      let printed := match err with
                     | Some e => [PrintlnError e]
                     | None => []
                     end in
      match KeyAddress sk with
      | None => (printed, Panic)
      | Some address =>
          let account := mkAccount address sk
                           (getAccountId accountName taqAccountDefault (ms_count st)) in
          let ctx := ms_ctx st in
          let ctx1 := if isDefaultAccount accountName taqAccountDefault
                      then mkContext account (CtxAccounts ctx) (Variables ctx)
                      else ctx in
          let ctx2 := mkContext (BaseAccount ctx1)
                        (<[AccAddress account := account]> (CtxAccounts ctx1))
                        (Variables ctx1) in
          let ctx3 := AddVariable accountName (AddressString (AccAddress account)) ctx2 in
          (printed, Return (mkMapState ctx3 (int_incr (ms_count st))))
      end
  end.

(** The loop over the keys [ks], in the order the [range] yields them; a
    panic ends it, and what was printed before stays printed. *)
Fixpoint mapAccounts (taqAccounts : gmap string TaqEnvAccount)
    (taqAccountDefault : string) (st : MapState) (ks : list string)
  : list PrintCall * outcome MapState :=
  match ks with
  | [] => ([], Return st)
  | accountName :: ks' =>
      match mapAccount taqAccounts taqAccountDefault st accountName with
      | (printed, Panic) => (printed, Panic)
      | (printed, Return st') =>
          let '(more, out) := mapAccounts taqAccounts taqAccountDefault st' ks' in
          (printed ++ more, out)
      end
  end.

(** [mapTaqEnvAccountToContextAccount]; [ks] is the order in which the
    [range] over [taqAccounts] yields the keys. *)
Definition mapTaqEnvAccountToContextAccount (ctx : Context)
    (taqAccounts : gmap string TaqEnvAccount) (taqAccountDefault : string)
    (ks : list string) : list PrintCall * outcome Context :=
  match mapAccounts taqAccounts taqAccountDefault (mkMapState ctx 1) ks with
  | (printed, Panic) => (printed, Panic)
  | (printed, Return st) => (printed, Return (ms_ctx st))
  end.

(** [UpdateTaqContext]: the calls of [println], and, unless it panics, the
    context it leaves and the error it returns.  [ks0] is the order of the
    [range] that picks a default account, [ks] the order of the mapping
    loop. *)
Definition UpdateTaqContext (ctx : Context) (taqConfigSet : TaqConfigSet)
    (ks0 ks : list string) : list PrintCall * outcome (Context * option string) :=
  if decide (size (ConfigAccounts (Config taqConfigSet)) = 0%nat) then
    ([], Return (ctx, Some "E_TAQ_ERROR: No accounts configured"))
  else if decide (size (Accounts (ConfigEnv taqConfigSet)) = 0%nat) then
    ([], Return (ctx, Some "E_TAQ_ERROR: No accounts configured"))
  else
    let env := ConfigEnv taqConfigSet in
    let finish (default : string) :=
      match mapTaqEnvAccountToContextAccount ctx (Accounts env) default ks with
      | (printed, Panic) => (printed, Panic)
      | (printed, Return ctx') => (printed, Return (ctx', None))
      end in
    if String.eqb (AccountDefault env) "" then
      if decide (0 < size (Accounts env))%nat then
        finish (match ks0 with
                | accountName :: _ => accountName
                | [] => AccountDefault env
                end)
      else ([], Return (ctx, Some "E_TAQ_ERROR: No default account specified"))
    else finish (AccountDefault env).

(** [NewTaqContext], over [os.Args]. *)
Definition NewTaqContext (args : list string) (ks0 ks : list string)
  : list PrintCall * outcome (result Context) :=
  let taqConfigFlagSpecified := IsFlagSpecified args "taqconfig" in
  let taqConfigEnvFlagSpecified := IsFlagSpecified args "taqconfigenv" in
  if negb (Bool.eqb taqConfigFlagSpecified taqConfigEnvFlagSpecified) then
    ([], Return (Err "E_TAQ_ERROR: taqconfig and taqconfigenv must be specified together"))
  else
    match getFlagValue args "taqconfig" with
    | Panic => ([], Panic)
    | Return taqConfigJSON =>
        match getFlagValue args "taqconfigenv" with
        | Panic => ([], Panic)
        | Return taqConfigEnvJSON =>
            if taqConfigFlagSpecified && taqConfigEnvFlagSpecified then
              match ParseTaqConfig taqConfigJSON taqConfigEnvJSON with
              | Err e => ([], Return (Err e))
              | Ok configSet =>
                  match UpdateTaqContext NewContext configSet ks0 ks with
                  | (printed, Panic) => (printed, Panic)
                  | (printed, Return (_, Some e)) => (printed, Return (Err e))
                  | (printed, Return (ectx, None)) => (printed, Return (Ok ectx))
                  end
              end
            else ([], Return (Ok NewContext))
        end
    end.

End Glue.

End Compose.

(** A concrete setting for the configuration glue: keys and addresses are
    strings; a key parses iff it starts with [edsk], and a failed parse
    returns the zero key with an error; the zero key has no address, and the
    address of another key is recorded by prefixing it; [AddVariable] stores
    into the variables. *)

Module ComposeScenario.
Import Compose.

Definition parse (sk : string) : string * option string :=
  if HasPrefix sk "edsk" then (sk, None)
  else ("", Some "tezos: invalid private key").

Definition address (sk : string) : option string :=
  if String.eqb sk "" then None else Some ("tz1:" +:+ sk).

Definition add_variable (key val : string)
    (ctx : @Context string string _ _) : @Context string string _ _ :=
  mkContext (BaseAccount ctx) (CtxAccounts ctx) (<[key := val]> (Variables ctx)).

Definition empty_context : @Context string string _ _ :=
  mkContext (mkAccount "" "" 0) ∅ ∅.

(** A project with one account, [alice]. *)
Definition project : TaqConfig :=
  mkTaqConfig "v1" "en" "artifacts" "contracts"
    {[ "alice" := mkTaqAccount (mkTaqAccountBalance "1000" "tez") ]}
    "development" ∅ [].

(** An environment in which the secret key of [alice] is not a key. *)
Definition environment : TaqConfigEnv :=
  mkTaqConfigEnv
    {[ "alice" := mkTaqEnvAccount "" "tz1alice" "unencrypted:not-a-key" ]}
    "alice" "http://localhost:20000".

(** An environment of two accounts with keys that parse; [bob] is the
    default account. *)
Definition keyed_environment : TaqConfigEnv :=
  mkTaqConfigEnv
    {[ "alice" := mkTaqEnvAccount "" "tz1alice" "unencrypted:edskAlice";
       "bob" := mkTaqEnvAccount "" "tz1bob" "unencrypted:edskBob" ]}
    "bob" "http://localhost:20000".

(** Decoders that know three documents. *)
Definition decode_project (json : string) : option TaqConfig :=
  if String.eqb json "{project}" then Some project else None.

Definition decode_environment (json : string) : option TaqConfigEnv :=
  if String.eqb json "{environment}" then Some environment
  else if String.eqb json "{keyed}" then Some keyed_environment
  else None.

End ComposeScenario.

(** * Properties of the observer *)

Section ObserverProofs.

Context {OpHash BlockHash World : Type}.
Context `{Countable OpHash} `{EqDecision BlockHash}.

Local Abbreviation Callback := (@ObserverCallback BlockHash World).
Local Abbreviation Subscription := (@observerSubscription OpHash BlockHash World).
Local Abbreviation Memory := (@Mem OpHash BlockHash World _ _).
Local Abbreviation System := (@Sys OpHash BlockHash World _ _).
Local Abbreviation Events := (list (@Event OpHash BlockHash World)).
Local Abbreviation Answer := (@Reply OpHash BlockHash).

Implicit Types (μ : Memory) (s : System) (h : OpHash) (f : Callback)
  (r : Answer) (evs : Events) (v w : Subscription) (i k : Z).

(** *** Subscribe *)

Lemma invoke_unfold v bh height batch pos fin μ :
  invoke v bh height batch pos fin μ =
  ((cb v bh height batch pos fin (world μ)).1,
   mkMem (obs μ) (cb v bh height batch pos fin (world μ)).2
         (log μ ++ [OCall (id v) bh height batch pos fin
                      (cb v bh height batch pos fin (world μ)).1])).
Proof. unfold invoke. by destruct (cb v _ _ _ _ _ _). Qed.

(** The state after the two stores of [Subscribe]. *)
Definition stored h f μ : Memory :=
  let i := int_incr (seq (obs μ)) in
  with_obs (with_watched (<[h := i]> (watched (obs μ)))
              (with_subs (<[i := mkSub i f h false]> (subs (obs μ)))
                 (with_seq i (obs μ)))) μ.

Lemma Subscribe_cached h f μ height batch pos :
  recent (obs μ) !! h = Some (height, batch, pos) →
  let i := int_incr (seq (obs μ)) in
  let out := f (bestHash (obs μ)) height batch pos false (world μ) in
  let μ2 := mkMem (obs (stored h f μ)) out.2
              (log μ ++ [OCall i (bestHash (obs μ)) height batch pos false out.1]) in
  Subscribe h f μ = (i, if out.1 then delete_sub i μ2 else μ2).
Proof.
  intros Hrec. unfold Subscribe. simpl. rewrite Hrec, invoke_unfold. done.
Qed.

Lemma Subscribe_uncached h f μ :
  recent (obs μ) !! h = None →
  Subscribe h f μ = (int_incr (seq (obs μ)), stored h f μ).
Proof. intros Hrec. unfold Subscribe. simpl. by rewrite Hrec. Qed.

(** C2. Late-subscribe catch-up.  [Subscribe h f] returns the id
    [seq + 1] (wrapped) and indexes [h] under it.  When [h] is in the
    recent-inclusion cache with [(height, batch, pos)], the log grows by exactly
    one entry: the call of [f], as watcher of that id, on
    [(bestHash, height, batch, pos, false)]; the program state is the one [f]
    left; and the watcher is absent from [subs] on return iff [f] returned
    true.  When [h] is not in the cache, the log and the program state are
    unchanged and the watcher is stored. *)
Theorem Subscribe_catch_up h f μ :
  let i := (Subscribe h f μ).1 in
  let μ' := (Subscribe h f μ).2 in
  i = int_incr (seq (obs μ)) ∧
  watched (obs μ') !! h = Some i ∧
  match recent (obs μ) !! h with
  | Some (height, batch, pos) =>
      let out := f (bestHash (obs μ)) height batch pos false (world μ) in
      log μ' = log μ ++ [OCall i (bestHash (obs μ)) height batch pos false out.1] ∧
      world μ' = out.2 ∧
      subs (obs μ') !! i = (if out.1 then None else Some (mkSub i f h false))
  | None =>
      log μ' = log μ ∧ world μ' = world μ ∧
      subs (obs μ') !! i = Some (mkSub i f h false)
  end.
Proof.
  destruct (recent (obs μ) !! h) as [[[height batch] pos]|] eqn:Hrec.
  - rewrite (Subscribe_cached h f μ height batch pos Hrec). simpl.
    destruct (f (bestHash (obs μ)) height batch pos false (world μ)) as [[] w'];
      simpl; repeat split; try by rewrite lookup_insert_eq.
    by rewrite lookup_delete_eq.
  - rewrite (Subscribe_uncached h f μ Hrec). simpl.
    repeat split; by rewrite lookup_insert_eq.
Qed.

(** *** What a pass of callbacks may do to the registry *)

(** Some callback of watcher [i] in [l] asked for removal. *)
Definition removal_requested (i : Z) (l : list (@Obs BlockHash)) : Prop :=
  ∃ bh height batch pos fin, OCall i bh height batch pos fin true ∈ l.

(** An entry of the log that is a callback. *)
Definition is_call (o : @Obs BlockHash) : Prop :=
  match o with OCall _ _ _ _ _ _ _ => True | ORpc _ => False end.

Global Instance is_call_dec o : Decision (is_call o).
Proof. destruct o; simpl; apply _. Defined.

(** [μ'] comes from [μ] by steps that leave the index, the counter and the
    start flag alone, only add entries satisfying [P] to the log, never add a
    watcher, change no watcher's id, hash or callback, and remove watcher [i]
    only together with a logged callback of [i] that returned true. *)
Definition pass_rel (P : @Obs BlockHash → Prop) μ μ' : Prop :=
  watched (obs μ') = watched (obs μ) ∧
  seq (obs μ') = seq (obs μ) ∧
  listening (obs μ') = listening (obs μ) ∧
  ∃ l, log μ' = log μ ++ l ∧ Forall P l ∧
    ∀ i, match subs (obs μ') !! i, subs (obs μ) !! i with
         | Some v', Some v => id v' = id v ∧ oh v' = oh v ∧ cb v' = cb v
         | None, None => True
         | None, Some _ => removal_requested i l
         | Some _, None => False
         end.

Lemma removal_requested_app_l i l1 l2 :
  removal_requested i l1 → removal_requested i (l1 ++ l2).
Proof.
  intros (bh & a & b & c & d & Hin). exists bh, a, b, c, d.
  apply elem_of_app. by left.
Qed.

Lemma removal_requested_app_r i l1 l2 :
  removal_requested i l2 → removal_requested i (l1 ++ l2).
Proof.
  intros (bh & a & b & c & d & Hin). exists bh, a, b, c, d.
  apply elem_of_app. by right.
Qed.

Lemma pass_rel_refl P μ : pass_rel P μ μ.
Proof.
  repeat split. exists []. split; [by rewrite app_nil_r|]. split; [done|].
  intros i. by destruct (subs (obs μ) !! i).
Qed.

Lemma pass_rel_trans P μ1 μ2 μ3 :
  pass_rel P μ1 μ2 → pass_rel P μ2 μ3 → pass_rel P μ1 μ3.
Proof.
  intros (Hw1 & Hs1 & Hg1 & l1 & Hl1 & HP1 & H1)
         (Hw2 & Hs2 & Hg2 & l2 & Hl2 & HP2 & H2).
  split; [congruence|]. split; [congruence|]. split; [congruence|].
  exists (l1 ++ l2). split; [by rewrite Hl2, Hl1, app_assoc|].
  split; [by apply Forall_app|].
  intros i. specialize (H1 i). specialize (H2 i).
  destruct (subs (obs μ3) !! i), (subs (obs μ2) !! i), (subs (obs μ1) !! i);
    try done.
  - destruct H1 as (?&?&?), H2 as (?&?&?). repeat split; congruence.
  - by apply removal_requested_app_r.
  - by apply removal_requested_app_l.
Qed.

Lemma pass_rel_weaken (P Q : @Obs BlockHash → Prop) μ μ' :
  (∀ o, P o → Q o) → pass_rel P μ μ' → pass_rel Q μ μ'.
Proof.
  intros HPQ (Hw & Hs & Hg & l & Hl & HP & Hsub).
  repeat split; try done. exists l. repeat split; try done.
  eapply Forall_impl; eauto.
Qed.

Lemma pass_rel_same_registry P μ μ' l :
  subs (obs μ') = subs (obs μ) → watched (obs μ') = watched (obs μ) →
  seq (obs μ') = seq (obs μ) → listening (obs μ') = listening (obs μ) →
  log μ' = log μ ++ l → Forall P l → pass_rel P μ μ'.
Proof.
  intros Hs Hw Hq Hg Hl HP. repeat split; [done..|].
  exists l. repeat split; [done..|]. intros i. rewrite Hs.
  by destruct (subs (obs μ) !! i).
Qed.

Lemma pass_rel_silent P μ μ' :
  subs (obs μ') = subs (obs μ) → watched (obs μ') = watched (obs μ) →
  seq (obs μ') = seq (obs μ) → listening (obs μ') = listening (obs μ) →
  log μ' = log μ → pass_rel P μ μ'.
Proof.
  intros. apply (pass_rel_same_registry _ _ _ []); try done.
  by rewrite app_nil_r.
Qed.

(** A callback followed by [delete(m.subs, v.id)] when it returns true. *)
Lemma pass_rel_invoke_delete v bh height batch pos fin μ :
  let out := invoke v bh height batch pos fin μ in
  pass_rel is_call μ (if out.1 then delete_sub (id v) out.2 else out.2).
Proof.
  rewrite invoke_unfold. simpl.
  destruct (cb v bh height batch pos fin (world μ)) as [[] w'] eqn:Hcb; simpl.
  - repeat split. eexists. split; [reflexivity|].
    split; [by repeat constructor|]. intros i. simpl.
    destruct (decide (i = id v)) as [->|Hne].
    + rewrite lookup_delete_eq. destruct (subs (obs μ) !! id v); [|done].
      exists bh, height, batch, pos, fin. apply list_elem_of_singleton. done.
    + rewrite lookup_delete_ne by done. by destruct (subs (obs μ) !! i).
  - eapply pass_rel_same_registry; try done. by repeat constructor.
Qed.

Lemma depth_one_pass_rel hb μ k : pass_rel is_call μ (depth_one hb μ k).
Proof.
  unfold depth_one. destruct (subs (obs μ) !! k) as [v|]; [|apply pass_rel_refl].
  destruct (matched v); [|apply pass_rel_refl].
  pose proof (pass_rel_invoke_delete v hb (-1) (-1) (-1) false μ) as Hp.
  simpl in Hp. by destruct (invoke v hb (-1) (-1) (-1) false μ) as [[] μ'].
Qed.

Lemma depth_pass_pass_rel hb ks μ : pass_rel is_call μ (depth_pass hb ks μ).
Proof.
  unfold depth_pass. revert μ. induction ks as [|k ks IH]; intros μ; simpl.
  - apply pass_rel_refl.
  - eapply pass_rel_trans; [apply depth_one_pass_rel|apply IH].
Qed.

Lemma set_matched_pass_rel P i μ : pass_rel P μ (set_matched i μ).
Proof.
  repeat split. exists []. split; [by rewrite app_nil_r|]. split; [done|].
  intros j. simpl. destruct (decide (j = i)) as [->|Hne].
  - rewrite lookup_alter_eq. by destruct (subs (obs μ) !! i).
  - rewrite lookup_alter_ne by done. by destruct (subs (obs μ) !! j).
Qed.

Lemma with_recent_pass_rel P c μ :
  pass_rel P μ (with_obs (with_recent c (obs μ)) μ).
Proof. by apply pass_rel_silent. Qed.

Lemma dispatch_one_pass_rel hb hh μ e :
  pass_rel is_call μ (dispatch_one hb hh μ e).
Proof.
  destruct e as [[l n] h]. unfold dispatch_one.
  set (μ1 := with_obs _ μ).
  assert (pass_rel is_call μ μ1) as H1 by apply with_recent_pass_rel.
  destruct (watched (obs μ) !! h) as [i|]; [|done].
  destruct (subs (obs μ) !! i) as [mt|]; [|done].
  destruct (decide (oh mt = h)); [|done].
  pose proof (pass_rel_invoke_delete mt hb hh l n false μ1) as Hp. simpl in Hp.
  destruct (invoke mt hb hh l n false μ1) as [[] μ2]; simpl in Hp.
  - exact (pass_rel_trans _ _ _ _ H1 Hp).
  - eapply pass_rel_trans; [exact (pass_rel_trans _ _ _ _ H1 Hp)|].
    apply set_matched_pass_rel.
Qed.

Lemma dispatch_fold_pass_rel hb hh es μ :
  pass_rel is_call μ (foldl (dispatch_one hb hh) μ es).
Proof.
  revert μ. induction es as [|e es IH]; intros μ; simpl.
  - apply pass_rel_refl.
  - eapply pass_rel_trans; [apply dispatch_one_pass_rel|apply IH].
Qed.

Lemma dispatch_pass_pass_rel hb hh o μ :
  pass_rel is_call μ (dispatch_pass hb hh o μ).
Proof.
  unfold dispatch_pass.
  eapply pass_rel_trans; [apply dispatch_fold_pass_rel|].
  by apply pass_rel_silent.
Qed.

Lemma logged_pass_rel (P : @Obs BlockHash → Prop) o μ :
  P o → pass_rel P μ (logged o μ).
Proof.
  intros. apply (pass_rel_same_registry _ _ _ [o]); try done.
  by repeat constructor.
Qed.

(** Case analysis on the branches a step takes. *)
Ltac step_cases Hstep :=
  repeat (first
    [ progress simplify_eq
    | match type of Hstep with
      | context [match ?x with _ => _ end] => destruct x eqn:?
      end ]);
  repeat case_match; simpl.

(** Every engine step is such a pass. *)
Lemma engine_step_pass_rel r s s' :
  engine_step r s = Some s' → pass_rel (λ _, True) (mem s) (mem s').
Proof.
  unfold engine_step, wait_or_return, after_head, rpc, goto.
  intros Hstep. step_cases Hstep;
    first [ apply pass_rel_refl
          | by apply logged_pass_rel
          | by (eapply pass_rel_trans; apply logged_pass_rel)
          | by (eapply pass_rel_weaken; [|apply depth_pass_pass_rel])
          | by (eapply pass_rel_weaken; [|apply dispatch_pass_pass_rel])
          | apply with_recent_pass_rel ].
Qed.

(** *** The registry invariant *)

(** The two-map invariant as the specification words it: every id in the
    values of [watched] is a key of [subs]. *)
Definition two_map_inv μ : Prop :=
  ∀ h i, watched (obs μ) !! h = Some i → is_Some (subs (obs μ) !! i).

(** What does hold after [n] calls of [Subscribe], while the counter has not
    wrapped. *)
Record registry_inv (n : Z) μ : Prop := mk_registry_inv {
  inv_seq : seq (obs μ) = n;
  inv_id : ∀ k v, subs (obs μ) !! k = Some v → id v = k;
  inv_hash : ∀ h i v,
    watched (obs μ) !! h = Some i → subs (obs μ) !! i = Some v → oh v = h;
  inv_bound : ∀ h i, watched (obs μ) !! h = Some i → i ≤ n;
  inv_index : ∀ h i,
    watched (obs μ) !! h = Some i →
    is_Some (subs (obs μ) !! i) ∨ removal_requested i (log μ)
}.

Lemma int_incr_small n : 0 ≤ n < int_max → int_incr n = n + 1.
Proof.
  unfold int_incr, int_wrap, int_max. intros Hn.
  rewrite Z.mod_small by lia. lia.
Qed.

Lemma registry_inv_pass P n μ μ' :
  registry_inv n μ → pass_rel P μ μ' → registry_inv n μ'.
Proof.
  intros [Hseq Hid Hhash Hbound Hindex] (Hw & Hs & _ & l & Hl & _ & Hsub).
  constructor.
  - congruence.
  - intros k v' Hk. specialize (Hsub k). rewrite Hk in Hsub.
    destruct (subs (obs μ) !! k) as [v|] eqn:Hv; [|done].
    destruct Hsub as (Hi & _ & _). rewrite Hi. eauto.
  - intros h i v'. rewrite Hw. intros Hh Hi. specialize (Hsub i).
    rewrite Hi in Hsub.
    destruct (subs (obs μ) !! i) as [v|] eqn:Hv; [|done].
    destruct Hsub as (_ & Ho & _). rewrite Ho. eauto.
  - intros h i. rewrite Hw. eauto.
  - intros h i. rewrite Hw. intros Hh. specialize (Hsub i). rewrite Hl.
    destruct (Hindex h i Hh) as [[v Hv]|Hreq].
    + rewrite Hv in Hsub. destruct (subs (obs μ') !! i); [by left; eauto|].
      right. by apply removal_requested_app_r.
    + right. by apply removal_requested_app_l.
Qed.

(** [Subscribe] is the two stores followed by a pass of at most one
    callback. *)
Lemma Subscribe_stores h f μ : pass_rel is_call (stored h f μ) (Subscribe h f μ).2.
Proof.
  unfold Subscribe, stored. simpl.
  destruct (recent (obs μ) !! h) as [[[height batch] pos]|]; [|apply pass_rel_refl].
  set (sub := mkSub _ f h false). set (μ1 := with_obs _ μ).
  pose proof (pass_rel_invoke_delete sub (bestHash (obs μ)) height batch pos false μ1)
    as Hp. simpl in Hp.
  by destruct (invoke sub (bestHash (obs μ)) height batch pos false μ1) as [[] μ2].
Qed.

Lemma Subscribe_inv n h f μ :
  0 ≤ n < int_max → registry_inv n μ → registry_inv (n + 1) (Subscribe h f μ).2.
Proof.
  intros Hn Hinv. eapply registry_inv_pass; [|apply Subscribe_stores].
  destruct Hinv as [Hseq Hid Hhash Hbound Hindex]. unfold stored.
  rewrite Hseq, (int_incr_small n Hn).
  constructor; simpl.
  - done.
  - intros k v. destruct (decide (k = n + 1)) as [->|Hne].
    + rewrite lookup_insert_eq. by intros [= <-].
    + rewrite lookup_insert_ne by done. eauto.
  - intros h' i v. destruct (decide (h' = h)) as [->|Hne].
    + rewrite lookup_insert_eq. intros [= <-].
      rewrite lookup_insert_eq. by intros [= <-].
    + rewrite lookup_insert_ne by done. intros Hh.
      pose proof (Hbound _ _ Hh).
      rewrite lookup_insert_ne by lia. eauto.
  - intros h' i. destruct (decide (h' = h)) as [->|Hne].
    + rewrite lookup_insert_eq. intros [= <-]. lia.
    + rewrite lookup_insert_ne by done. intros Hh.
      pose proof (Hbound _ _ Hh). lia.
  - intros h' i. destruct (decide (h' = h)) as [->|Hne].
    + rewrite lookup_insert_eq. intros [= <-]. left.
      rewrite lookup_insert_eq. eauto.
    + rewrite lookup_insert_ne by done. intros Hh.
      pose proof (Hbound _ _ Hh).
      rewrite lookup_insert_ne by lia. eauto.
Qed.

Lemma Unsubscribe_inv n i μ :
  registry_inv n μ → registry_inv n (Unsubscribe i μ).
Proof.
  intros Hinv. unfold Unsubscribe.
  destruct (subs (obs μ) !! i) as [req|] eqn:Hreq; [|done].
  destruct Hinv as [Hseq Hid Hhash Hbound Hindex].
  assert (∀ h j, delete (oh req) (watched (obs μ)) !! h = Some j →
                 watched (obs μ) !! h = Some j ∧ j ≠ i) as Hdel.
  { intros h j Hh. apply lookup_delete_Some in Hh as [Hne Hh].
    split; [done|]. intros ->. apply Hne. eauto. }
  constructor; simpl.
  - done.
  - intros k v Hk. apply lookup_delete_Some in Hk as [_ Hk]. eauto.
  - intros h j v Hh Hj. apply Hdel in Hh as [Hh _].
    apply lookup_delete_Some in Hj as [_ Hj]. eauto.
  - intros h j Hh. apply Hdel in Hh as [Hh _]. eauto.
  - intros h j Hh. apply Hdel in Hh as [Hh Hne].
    rewrite lookup_delete_ne by done. eauto.
Qed.

Lemma Close_inv n μ : registry_inv n μ → registry_inv n (Close μ).
Proof.
  intros [Hseq _ _ _ _]. constructor; simpl; try done;
    intros *; by rewrite lookup_empty.
Qed.

Lemma start_inv n params blocks zero s :
  registry_inv n (mem s) → registry_inv n (mem (start params blocks zero s)).
Proof.
  intros [Hseq Hid Hhash Hbound Hindex]. unfold start.
  destruct (listening _); [done|].
  constructor; simpl; by destruct params.
Qed.

(** The number of [Subscribe] calls among the events. *)
Fixpoint subscriptions evs : Z :=
  match evs with
  | [] => 0
  | ESubscribe _ _ :: evs' => 1 + subscriptions evs'
  | _ :: evs' => subscriptions evs'
  end.

Lemma subscriptions_nonneg evs : 0 ≤ subscriptions evs.
Proof. induction evs as [|[] evs IH]; simpl; lia. Qed.

Lemma step_inv zero n ev s s' :
  0 ≤ n → n + subscriptions [ev] ≤ int_max →
  registry_inv n (mem s) → step zero ev s = Some s' →
  registry_inv (n + subscriptions [ev]) (mem s').
Proof.
  intros Hn Hmax Hinv Hstep. destruct ev; simpl in *; simplify_eq; simpl;
    rewrite ?Z.add_0_r.
  - apply Subscribe_inv; [unfold int_max in *; lia|done].
  - by apply Unsubscribe_inv.
  - by apply Close_inv.
  - eapply (registry_inv_pass (λ _, True)); [done|]. by apply pass_rel_silent.
  - by apply start_inv.
  - by apply start_inv.
  - eapply registry_inv_pass; [done|]. by eapply engine_step_pass_rel.
Qed.

Lemma run_inv zero evs : ∀ n s s',
  0 ≤ n → n + subscriptions evs ≤ int_max →
  registry_inv n (mem s) → run zero evs s = Some s' →
  registry_inv (n + subscriptions evs) (mem s').
Proof.
  induction evs as [|ev evs IH]; intros n s s' Hn Hmax Hinv Hrun.
  - simpl in *. simplify_eq. by rewrite Z.add_0_r.
  - simpl in Hrun. destruct (step zero ev s) as [s1|] eqn:Hstep; [|done].
    pose proof (subscriptions_nonneg evs) as Hevs.
    pose proof (subscriptions_nonneg [ev]) as Hev.
    assert (subscriptions (ev :: evs) = subscriptions [ev] + subscriptions evs)
      as Hsplit by (destruct ev; simpl; lia).
    rewrite Hsplit in *. rewrite Z.add_assoc.
    eapply (IH _ s1); [lia|lia| |done].
    eapply step_inv; [done|lia|done|done].
Qed.

Lemma init_inv zero d (w0 : World) : registry_inv 0 (mem (init zero d w0)).
Proof. constructor; simpl; try done; intros *; by rewrite lookup_empty. Qed.

(** C1 (amended). In every state reachable from a fresh observer by
    [Subscribe], [Unsubscribe], [Close], [WithDelay], [Listen] and engine
    steps, with no more [Subscribe] calls than the counter can number, every
    id in the values of [watched] is a key of [subs] or the id of a watcher
    whose callback asked for its removal.  [Unsubscribe] of a stored watcher
    removes its [subs] entry and the [watched] entry of its hash together,
    and [Close] empties both maps; the removals a callback asks for, in
    [Subscribe] and in both passes of the engine, delete from [subs] only and
    leave [watched] as it is. *)
Theorem registry_invariant zero d (w0 : World) evs s :
  subscriptions evs ≤ int_max →
  run zero evs (init zero d w0) = Some s →
  (∀ h i, watched (obs (mem s)) !! h = Some i →
     is_Some (subs (obs (mem s)) !! i) ∨ removal_requested i (log (mem s))) ∧
  (∀ i v, subs (obs (mem s)) !! i = Some v →
     subs (obs (Unsubscribe i (mem s))) !! i = None ∧
     watched (obs (Unsubscribe i (mem s))) !! oh v = None) ∧
  (subs (obs (Close (mem s))) = ∅ ∧ watched (obs (Close (mem s))) = ∅) ∧
  (∀ h f, watched (obs (Subscribe h f (mem s)).2)
          = <[h := (Subscribe h f (mem s)).1]> (watched (obs (mem s)))) ∧
  (∀ r s', engine_step r s = Some s' →
     watched (obs (mem s')) = watched (obs (mem s))).
Proof.
  intros Hmax Hrun.
  pose proof (run_inv zero evs 0 _ _ (Z.le_refl 0) Hmax (init_inv zero d w0) Hrun)
    as Hinv.
  split; [apply (inv_index _ _ Hinv)|].
  split.
  { intros i v Hv. unfold Unsubscribe. rewrite Hv. simpl.
    by rewrite !lookup_delete_eq. }
  split; [done|].
  split.
  { intros h f. pose proof (Subscribe_stores h f (mem s)) as (Hw & _).
    unfold stored in Hw. simpl in Hw. rewrite Hw.
    by unfold Subscribe; simpl; case_match; [repeat case_match|]. }
  intros r s' Hstep. by apply engine_step_pass_rel in Hstep as (Hw & _).
Qed.

(** *** The fan-out of a fetched block *)





(** *** The connection mode *)

(** A call that opens or reads a header stream. *)
Definition stream_rpc (o : @Obs BlockHash) : Prop :=
  o = ORpc RpcMonitorBlockHeader ∨ o = ORpc RpcRecv.

(** The loop runs, has given up the event mode, and holds no stream. *)
Definition polling s : Prop :=
  useEvents (eng s) = false ∧ mon (eng s) = false ∧
  listening (obs (mem s)) = true.

Lemma is_call_not_stream o : is_call o → ¬ stream_rpc o.
Proof. destruct o; [|done]. by intros _ [|]. Qed.

Lemma engine_step_polling r s s' :
  polling s → engine_step r s = Some s' →
  polling s' ∧ pass_rel (λ o, ¬ stream_rpc o) (mem s) (mem s').
Proof.
  intros (Hu & Hm & Hl) Hstep.
  assert (pass_rel (λ o, ¬ stream_rpc o) (mem s) (mem s')) as Hp.
  { revert Hstep. unfold engine_step, wait_or_return, after_head, rpc, goto.
    rewrite Hu, Hm. simpl. intros Hstep. step_cases Hstep;
    first [ apply pass_rel_refl
          | by (apply logged_pass_rel; intros [|])
          | by (eapply pass_rel_trans; apply logged_pass_rel; intros [|])
          | by (eapply pass_rel_weaken;
                [apply is_call_not_stream|apply depth_pass_pass_rel])
          | by (eapply pass_rel_weaken;
                [apply is_call_not_stream|apply dispatch_pass_pass_rel])
          | apply with_recent_pass_rel ]. }
  split; [|done]. destruct Hp as (_ & _ & Hg & _).
  split; [|split; [|congruence]];
    revert Hstep; unfold engine_step, wait_or_return, after_head, rpc, goto;
    rewrite Hu, Hm; simpl; intros Hstep; by step_cases Hstep.
Qed.

Lemma Subscribe_frame h f μ :
  listening (obs (Subscribe h f μ).2) = listening (obs μ) ∧
  ∃ l, log (Subscribe h f μ).2 = log μ ++ l ∧ Forall is_call l.
Proof.
  destruct (Subscribe_stores h f μ) as (_ & _ & Hg & l & Hl & HP & _).
  unfold stored in *. simpl in *. eauto.
Qed.

Lemma step_polling zero ev s s' :
  polling s → step zero ev s = Some s' →
  polling s' ∧
  ∃ l, log (mem s') = log (mem s) ++ l ∧ Forall (λ o, ¬ stream_rpc o) l.
Proof.
  intros Hpoll Hstep. destruct ev; simpl in Hstep.
  - simplify_eq. destruct Hpoll as (Hu & Hm & Hl).
    destruct (Subscribe_frame h f (mem s)) as (Hg & l & Hlog & HP).
    split; [repeat split; simpl; congruence|].
    exists l. split; [done|].
    eapply Forall_impl; [done|apply is_call_not_stream].
  - simplify_eq. destruct Hpoll as (Hu & Hm & Hl). unfold Unsubscribe. simpl.
    destruct (subs (obs (mem s)) !! i);
      (split; [done|exists []; by rewrite app_nil_r]).
  - simplify_eq. split; [done|]. exists []. by rewrite app_nil_r.
  - simplify_eq. split; [done|]. exists []. by rewrite app_nil_r.
  - simplify_eq. destruct Hpoll as (Hu & Hm & Hl). unfold start. rewrite Hl.
    split; [done|]. exists []. by rewrite app_nil_r.
  - simplify_eq. destruct Hpoll as (Hu & Hm & Hl). unfold start. rewrite Hl.
    split; [done|]. exists []. by rewrite app_nil_r.
  - destruct (engine_step_polling _ _ _ Hpoll Hstep)
      as (Hpoll' & _ & _ & _ & l & Hlog & HP & _). eauto.
Qed.

Lemma run_polling zero evs : ∀ s s',
  polling s → run zero evs s = Some s' →
  polling s' ∧
  ∃ l, log (mem s') = log (mem s) ++ l ∧ Forall (λ o, ¬ stream_rpc o) l.
Proof.
  induction evs as [|ev evs IH]; intros s s' Hpoll Hrun; simpl in Hrun.
  - simplify_eq. split; [done|]. exists []. by rewrite app_nil_r.
  - destruct (step zero ev s) as [s1|] eqn:Hstep; [|done].
    destruct (step_polling _ _ _ _ Hpoll Hstep) as (Hpoll1 & l1 & Hl1 & HP1).
    destruct (IH _ _ Hpoll1 Hrun) as (Hpoll' & l2 & Hl2 & HP2).
    split; [done|]. exists (l1 ++ l2).
    split; [by rewrite Hl2, Hl1, app_assoc|by apply Forall_app].
Qed.

(** Once the loop has left [PcIdle], [Listen] has been called. *)
Definition started s : Prop :=
  pc (eng s) = PcIdle ∨ listening (obs (mem s)) = true.

Lemma step_started zero ev s s' :
  started s → step zero ev s = Some s' → started s'.
Proof.
  unfold started. intros Hs Hstep. destruct ev; simpl in Hstep.
  - simplify_eq. simpl.
    destruct (Subscribe_frame h f (mem s)) as (-> & _). done.
  - simplify_eq. unfold Unsubscribe. simpl.
    by destruct (subs (obs (mem s)) !! i).
  - by simplify_eq.
  - by simplify_eq.
  - simplify_eq. unfold start.
    destruct (listening (obs (mem s))) eqn:Hl; by right.
  - simplify_eq. unfold start.
    destruct (listening (obs (mem s))) eqn:Hl; by right.
  - destruct Hs as [Hidle|Hl].
    + unfold engine_step in Hstep. by rewrite Hidle in Hstep.
    + right. apply engine_step_pass_rel in Hstep as (_ & _ & -> & _). done.
Qed.

Lemma run_started zero evs : ∀ s s',
  started s → run zero evs s = Some s' → started s'.
Proof.
  induction evs as [|ev evs IH]; intros s s' Hs Hrun; simpl in Hrun.
  - by simplify_eq.
  - destruct (step zero ev s) as [s1|] eqn:Hstep; [|done].
    eapply IH; [|done]. by eapply step_started.
Qed.

(** C6. One-way mode fallback.  In an execution from a fresh observer, let
    the engine attempt to open a header stream (it is at the connect step,
    holds no stream, and is in event mode) and let the attempt fail with
    status 404.  Then after any further events, of callers and engine alike,
    the engine is still in poll mode without a stream, and nothing logged
    since the failure is a [MonitorBlockHeader] or a [Recv] call. *)
Theorem mode_fallback_one_way zero d (w0 : World) evs0 r s s1 evs s' :
  run zero evs0 (init zero d w0) = Some s →
  pc (eng s) = PcConnect → mon (eng s) = false → useEvents (eng s) = true →
  r_monitor r = Some 404 →
  engine_step r s = Some s1 →
  run zero evs s1 = Some s' →
  log (mem s1) = log (mem s) ++ [ORpc RpcMonitorBlockHeader] ∧
  useEvents (eng s') = false ∧ mon (eng s') = false ∧
  ∃ l, log (mem s') = log (mem s1) ++ l ∧ Forall (λ o, ¬ stream_rpc o) l.
Proof.
  intros Hreach Hpc Hmon Hev Hr Hstep Hrun.
  assert (started s) as [Hidle|Hl].
  { eapply run_started; [|done]. by left. }
  { congruence. }
  unfold engine_step in Hstep. rewrite Hpc, Hmon, Hev, Hr in Hstep.
  simpl in Hstep. simplify_eq.
  split; [done|].
  match type of Hrun with run _ _ ?s1 = _ =>
    assert (polling s1) as Hpoll by (by repeat split)
  end.
  destruct (run_polling zero evs _ s' Hpoll Hrun) as ((Hu & Hm & _) & Hlog).
  by repeat split.
Qed.

(** *** A cycle whose fetch fails *)

Definition fetch_rpc : @Obs BlockHash := ORpc RpcGetBlockOperationHashes.

(** A depth-counting callback of watcher [i] that asked for removal. *)
Definition depth_removal (i : Z) (l : list (@Obs BlockHash)) : Prop :=
  ∃ bh, OCall i bh (-1) (-1) (-1) false true ∈ l.

(** [μ'] differs from [μ] at most in [subs] and by what was logged:
    no fetch was logged, and an entry of [subs] is as it was or was removed
    after a depth-counting callback of that watcher returned true. *)
Definition depth_rel μ μ' : Prop :=
  with_subs (subs (obs μ)) (obs μ') = obs μ ∧
  ∃ l, log μ' = log μ ++ l ∧ (fetch_rpc ∉ l) ∧
    ∀ i, subs (obs μ') !! i = subs (obs μ) !! i ∨
         (subs (obs μ') !! i = None ∧ depth_removal i l).

Lemma with_subs_same (m : @Observer OpHash BlockHash World _ _) :
  with_subs (subs m) m = m.
Proof. by destruct m. Qed.

Lemma depth_rel_refl μ : depth_rel μ μ.
Proof.
  split; [apply with_subs_same|]. exists [].
  split; [by rewrite app_nil_r|]. split; [by intros ?%elem_of_nil|]. by left.
Qed.

Lemma depth_rel_trans μ1 μ2 μ3 :
  depth_rel μ1 μ2 → depth_rel μ2 μ3 → depth_rel μ1 μ3.
Proof.
  intros (Ho1 & l1 & Hl1 & Hf1 & H1) (Ho2 & l2 & Hl2 & Hf2 & H2).
  split; [by rewrite <- Ho1, <- Ho2|].
  exists (l1 ++ l2). split; [by rewrite Hl2, Hl1, app_assoc|].
  split; [intros [?|?]%elem_of_app; tauto|].
  intros i. destruct (H2 i) as [E2|[E2 (bh & Hin)]].
  - rewrite E2. destruct (H1 i) as [E1|[E1 (bh & Hin)]]; [by left|].
    right. split; [done|]. exists bh. apply elem_of_app. by left.
  - right. split; [done|]. exists bh. apply elem_of_app. by right.
Qed.

Lemma depth_rel_logged (c : RpcKind) μ :
  c ≠ RpcGetBlockOperationHashes → depth_rel μ (logged (ORpc c) μ).
Proof.
  intros Hk. split; [apply with_subs_same|]. exists [ORpc c].
  split; [done|]. split; [|by left].
  intros ?%list_elem_of_singleton. unfold fetch_rpc in *. congruence.
Qed.

Lemma depth_one_depth_rel hb μ k : depth_rel μ (depth_one hb μ k).
Proof.
  unfold depth_one. destruct (subs (obs μ) !! k) as [v|]; [|apply depth_rel_refl].
  destruct (matched v); [|apply depth_rel_refl].
  rewrite invoke_unfold.
  destruct (cb v hb (-1) (-1) (-1) false (world μ)) as [[] w']; simpl.
  - split; [simpl; by destruct (obs μ)|]. eexists. split; [reflexivity|].
    split; [by intros ?%list_elem_of_singleton|]. intros i. simpl.
    destruct (decide (i = id v)) as [->|Hne].
    + right. rewrite lookup_delete_eq. split; [done|].
      exists hb. by apply list_elem_of_singleton.
    + left. by rewrite lookup_delete_ne.
  - split; [apply with_subs_same|]. eexists. split; [reflexivity|].
    split; [by intros ?%list_elem_of_singleton|]. by left.
Qed.

Lemma depth_pass_depth_rel hb ks μ : depth_rel μ (depth_pass hb ks μ).
Proof.
  unfold depth_pass. revert μ. induction ks as [|k ks IH]; intros μ; simpl.
  - apply depth_rel_refl.
  - eapply depth_rel_trans; [apply depth_one_depth_rel|apply IH].
Qed.

(** The steps of a cycle that come before the fetch. *)
Definition before_fetch (p : Pc) : bool :=
  match p with
  | PcTop | PcConnect | PcBackoff | PcHead | PcSkipWait | PcDepth => true
  | _ => false
  end.

Lemma engine_step_before_fetch r s s' :
  before_fetch (pc (eng s)) = true → engine_step r s = Some s' →
  depth_rel (mem s) (mem s').
Proof.
  unfold engine_step, wait_or_return, after_head, rpc, goto.
  intros Hpc Hstep. step_cases Hstep; try done;
    first [ apply depth_rel_refl
          | by apply depth_rel_logged
          | by (eapply depth_rel_trans; apply depth_rel_logged)
          | apply depth_pass_depth_rel ].
Qed.

(** Engine steps [rs] none of which ends at the top of the loop: they stay
    within the cycle they start in. *)
Fixpoint cycle_steps (rs : list Answer) s : option System :=
  match rs with
  | [] => Some s
  | r :: rs' =>
      match engine_step r s with
      | Some s' =>
          if decide (pc (eng s') = PcTop) then None else cycle_steps rs' s'
      | None => None
      end
  end.

(** Where a cycle can be: not yet past its fetch, with the state as
    [depth_rel] says, or past it. *)
Definition in_cycle μ0 s : Prop :=
  match pc (eng s) with
  | PcTop | PcConnect | PcBackoff | PcHead | PcSkipWait | PcDepth | PcFetch =>
      depth_rel μ0 (mem s)
  | PcClear | PcDispatch | PcPollWait | PcExit | PcIdle => True
  end.

Lemma engine_step_in_cycle μ0 r s s' :
  in_cycle μ0 s → engine_step r s = Some s' → pc (eng s') ≠ PcTop →
  in_cycle μ0 s'.
Proof.
  intros Hin Hstep Htop.
  destruct (before_fetch (pc (eng s))) eqn:Hbf.
  - assert (depth_rel μ0 (mem s')) as Hrel.
    { eapply depth_rel_trans; [|by eapply engine_step_before_fetch].
      unfold in_cycle in Hin. by destruct (pc (eng s)). }
    unfold in_cycle. by destruct (pc (eng s')).
  - revert Hin Hstep Htop. unfold in_cycle, engine_step, wait_or_return, goto, rpc.
    intros Hin Hstep Htop.
    destruct (pc (eng s)) eqn:Hpc; try done; step_cases Hstep;
      simpl in *; first [done|congruence].
Qed.

Lemma cycle_steps_in_cycle μ0 rs : ∀ s s',
  in_cycle μ0 s → cycle_steps rs s = Some s' → in_cycle μ0 s'.
Proof.
  induction rs as [|r rs IH]; intros s s' Hin Hrun; simpl in Hrun.
  - by simplify_eq.
  - destruct (engine_step r s) as [s1|] eqn:Hstep; [|done].
    destruct (decide (pc (eng s1) = PcTop)); [done|].
    eapply IH; [|done]. by eapply engine_step_in_cycle.
Qed.

(** C5 (amended). Fetch failure.  Take a cycle from the top of the loop:
    engine steps [rs] that stay within it and reach the fetch, and let the
    fetch fail.  Then the loop is back at the top; the observer is as it was
    at the start of the cycle in every field but [subs] (the cache, the index,
    the counter, [bestHash] and [bestHeight] among them); the cycle logged
    exactly one fetch, its last entry; and an entry of [subs] is as it was at
    the start of the cycle, or was removed because a depth-counting callback
    of that watcher, run in this cycle before the fetch, returned true. *)
Theorem fetch_failure_cycle rs r s0 s :
  pc (eng s0) = PcTop →
  cycle_steps rs s0 = Some s →
  pc (eng s) = PcFetch →
  r_ops r = None →
  ∃ s1 l,
    engine_step r s = Some s1 ∧
    pc (eng s1) = PcTop ∧
    with_subs (subs (obs (mem s0))) (obs (mem s1)) = obs (mem s0) ∧
    log (mem s1) = log (mem s0) ++ l ++ [fetch_rpc] ∧
    (fetch_rpc ∉ l) ∧
    ∀ i, subs (obs (mem s1)) !! i = subs (obs (mem s0)) !! i ∨
         (subs (obs (mem s1)) !! i = None ∧ depth_removal i l).
Proof.
  intros Htop Hrun Hpc Hr.
  assert (in_cycle (mem s0) s) as Hin.
  { eapply cycle_steps_in_cycle; [|done]. unfold in_cycle. rewrite Htop.
    apply depth_rel_refl. }
  unfold in_cycle in Hin. rewrite Hpc in Hin.
  destruct Hin as (Hobs & l & Hl & Hf & Hsubs).
  unfold engine_step. rewrite Hpc, Hr. eexists _, l. split; [done|]. simpl.
  repeat split; try done. by rewrite Hl, <- app_assoc.
Qed.

(** *** The matched flag *)

(** In the fan-out loop, a first match whose callback returns false sets the
    watcher's flag. *)
Lemma dispatch_one_marks hb hh μ l n h i v :
  watched (obs μ) !! h = Some i → subs (obs μ) !! i = Some v → oh v = h →
  (cb v hb hh l n false (world μ)).1 = false →
  subs (obs (dispatch_one hb hh μ (l, n, h))) !! i
  = Some (mkSub (id v) (cb v) (oh v) true).
Proof.
  intros Hw Hs Hoh Hret. unfold dispatch_one. rewrite Hw, Hs.
  destruct (decide (oh v = h)); [|done].
  rewrite invoke_unfold. simpl. rewrite Hret. simpl.
  by rewrite lookup_alter_eq, Hs.
Qed.

(** C4, as the code has it.  When [Subscribe] finds the hash in the
    recent-inclusion cache and the callback returns false, the callback has
    been run on the cached position, and the watcher is stored with
    [matched = false]: the depth-counting pass of any later block, on
    reaching this watcher, leaves the state as it is, so it runs no callback
    for it. *)
Theorem Subscribe_catch_up_unmarked h f μ height batch pos :
  recent (obs μ) !! h = Some (height, batch, pos) →
  (f (bestHash (obs μ)) height batch pos false (world μ)).1 = false →
  let i := (Subscribe h f μ).1 in
  let μ' := (Subscribe h f μ).2 in
  log μ' = log μ ++ [OCall i (bestHash (obs μ)) height batch pos false false] ∧
  subs (obs μ') !! i = Some (mkSub i f h false) ∧
  ∀ hb, depth_one hb μ' i = μ'.
Proof.
  intros Hrec Hret.
  rewrite (Subscribe_cached h f μ height batch pos Hrec). simpl.
  rewrite Hret. simpl. split; [done|].
  split; [by rewrite lookup_insert_eq|].
  intros hb. unfold depth_one. simpl. by rewrite lookup_insert_eq.
Qed.

(** *** The clearing of the cache *)

(** C8, as the code has it.  The loop that clears [m.recent] runs before
    [m.mu.Lock()]: each [delete] is a step of its own, after which the engine
    is still in that loop and any caller may take the mutex.  If the cache
    holds [n] and another hash [h], then after the [delete] of [n] a
    [Subscribe] to [h] finds a cache without [n] but with [h], and runs the
    callback on the position cached for [h]. *)
Theorem recent_cleared_outside_lock r s n h f height batch pos :
  pc (eng s) = PcClear →
  r_range_recent r = Some n →
  is_Some (recent (obs (mem s)) !! n) →
  h ≠ n →
  recent (obs (mem s)) !! h = Some (height, batch, pos) →
  ∃ s',
    engine_step r s = Some s' ∧
    pc (eng s') = PcClear ∧
    recent (obs (mem s')) !! n = None ∧
    recent (obs (mem s')) !! h = Some (height, batch, pos) ∧
    ∃ ret,
      log (Subscribe h f (mem s')).2
      = log (mem s) ++
          [OCall (int_incr (seq (obs (mem s)))) (bestHash (obs (mem s)))
                 height batch pos false ret].
Proof.
  intros Hpc Hr Hn Hne Hh. unfold engine_step. rewrite Hpc, Hr.
  destruct (decide (recent (obs (mem s)) = ∅)) as [Hempty|_].
  { rewrite Hempty, lookup_empty in Hh. done. }
  destruct (decide (is_Some (recent (obs (mem s)) !! n))); [|done].
  eexists. split; [done|]. simpl. split; [done|].
  split; [by rewrite lookup_delete_eq|].
  split; [by rewrite lookup_delete_ne|].
  erewrite Subscribe_cached; [|simpl; by rewrite lookup_delete_ne].
  simpl.
  exists (f (bestHash (obs (mem s))) height batch pos false (world (mem s))).1.
  by destruct (f _ _ _ _ _ _).1.
Qed.

(** *** The block the engine fans out *)

(** The event is a step of the engine. *)
Definition is_engine (ev : @Event OpHash BlockHash World) : bool :=
  match ev with EEngine _ => true | _ => false end.

Lemma step_caller_eng zero ev s s' :
  is_engine ev = false → listening (obs (mem s)) = true →
  step zero ev s = Some s' →
  eng s' = eng s ∧ listening (obs (mem s')) = true.
Proof.
  intros Hev Hl Hstep. destruct ev; simpl in *; simplify_eq; simpl.
  - destruct (Subscribe_frame h f (mem s)) as (-> & _). done.
  - unfold Unsubscribe. by case_match.
  - done.
  - done.
  - unfold start. by rewrite Hl.
  - unfold start. by rewrite Hl.
Qed.






End ObserverProofs.

(** ** The theorems at concrete executions *)

Module Witness.
Import Scenario.

(** A watcher of [opA] that asks for removal at its first callback; block
    [h100] holds [opA]. *)
Definition removed_at_match : list (@Event Hash Hash nat) :=
  [ESubscribe "opA" drop] ++ start_polling ++ poll_block 100 "h100" [["opA"]] [1] [].

(** C1, as stated, fails: after the fan-out of block [h100] has removed
    watcher 1 at its callback's request, [watched] still maps [opA] to 1. *)
Lemma two_map_invariant_fails :
  run zero removed_at_match fresh = Some (after removed_at_match) ∧
  ¬ two_map_inv (mem (after removed_at_match)).
Proof.
  split; [by vm_compute|].
  intros Hinv. specialize (Hinv "opA" 1).
  assert (is_Some (subs (obs (mem (after removed_at_match))) !! 1)) as [v Hv]
    by (apply Hinv; by vm_compute).
  by vm_compute in Hv.
Qed.

Lemma registry_invariant_witness :
  subscriptions removed_at_match ≤ int_max ∧
  run zero removed_at_match (init zero 30 0%nat) = Some (after removed_at_match) ∧
  ∀ h i, watched (obs (mem (after removed_at_match))) !! h = Some i →
    is_Some (subs (obs (mem (after removed_at_match))) !! i) ∨
    removal_requested i (log (mem (after removed_at_match))).
Proof.
  assert (subscriptions removed_at_match ≤ int_max) as H1
    by (vm_compute; intros Hgt; discriminate Hgt).
  assert (run zero removed_at_match (init zero 30 0%nat)
          = Some (after removed_at_match)) as H2 by (vm_compute; reflexivity).
  split; [exact H1|]. split; [exact H2|].
  exact (proj1 (registry_invariant zero 30 0%nat removed_at_match _ H1 H2)).
Defined.

(** Watcher 1 of [opA] keeps itself at the position report of block [h100]
    and asks for removal at the first depth report; the events end at the
    top of the loop, after the wait that follows block [h100]. *)
Definition matched_once : list (@Event Hash Hash nat) :=
  [ESubscribe "opA" drop_on_depth] ++ start_polling
  ++ poll_block 100 "h100" [["opA"]] [1] [] ++ poll_wait.

(** C5, as stated, fails: in the cycle for block [h101], whose fetch fails,
    the depth pass has already removed watcher 1 from [subs]. *)
Lemma fetch_failure_changes_subs :
  let s0 := after matched_once in
  ∃ s s1,
    pc (eng s0) = PcTop ∧
    cycle_steps (to_fetch 101 "h101" [1]) s0 = Some s ∧
    pc (eng s) = PcFetch ∧
    r_ops silent = None ∧
    engine_step silent s = Some s1 ∧
    pc (eng s1) = PcTop ∧
    subs (obs (mem s1)) ≠ subs (obs (mem s0)).
Proof.
  eexists (default fresh (cycle_steps (to_fetch 101 "h101" [1]) (after matched_once))),
          (default fresh (engine_step silent
             (default fresh (cycle_steps (to_fetch 101 "h101" [1]) (after matched_once))))).
  do 6 (split; [vm_compute; reflexivity|]).
  intros Heq.
  assert (subs (obs (mem (after matched_once))) !! 1 = None) as Hnone
    by (rewrite <- Heq; vm_compute; reflexivity).
  vm_compute in Hnone. discriminate Hnone.
Qed.

Lemma fetch_failure_cycle_witness :
  let s0 := after matched_once in
  let s := default fresh (cycle_steps (to_fetch 101 "h101" [1]) s0) in
  pc (eng s0) = PcTop ∧
  cycle_steps (to_fetch 101 "h101" [1]) s0 = Some s ∧
  pc (eng s) = PcFetch ∧
  r_ops silent = None ∧
  ∃ s1 l,
    engine_step silent s = Some s1 ∧
    pc (eng s1) = PcTop ∧
    with_subs (subs (obs (mem s0))) (obs (mem s1)) = obs (mem s0) ∧
    log (mem s1) = log (mem s0) ++ l ++ [fetch_rpc] ∧
    (fetch_rpc ∉ l) ∧
    ∀ i, subs (obs (mem s1)) !! i = subs (obs (mem s0)) !! i ∨
         (subs (obs (mem s1)) !! i = None ∧ depth_removal i l).
Proof.
  intros s0 s.
  assert (pc (eng s0) = PcTop) as H1 by (vm_compute; reflexivity).
  assert (cycle_steps (to_fetch 101 "h101" [1]) s0 = Some s) as H2 by (vm_compute; reflexivity).
  assert (pc (eng s) = PcFetch) as H3 by (vm_compute; reflexivity).
  assert (r_ops silent = None) as H4 by reflexivity.
  split; [exact H1|]. split; [exact H2|]. split; [exact H3|]. split; [exact H4|].
  exact (fetch_failure_cycle (to_fetch 101 "h101" [1]) silent s0 s H1 H2 H3 H4).
Defined.

(** The loop has been started and stands before its first attempt to open
    a header stream. *)
Definition before_connect : list (@Event Hash Hash nat) :=
  [ESubscribe "opA" keep; EListen None; EEngine silent].

Lemma mode_fallback_one_way_witness :
  let s := after before_connect in
  let s1 := default fresh (engine_step (monitor_fails 404) s) in
  let evs := poll_block 100 "h100" [["opA"]] [1] [] ++ poll_wait
             ++ poll_block 101 "h101" [[]] [1] ["opA"] in
  let s' := default fresh (run zero evs s1) in
  run zero before_connect (init zero 30 0%nat) = Some s ∧
  pc (eng s) = PcConnect ∧ mon (eng s) = false ∧ useEvents (eng s) = true ∧
  r_monitor (monitor_fails 404) = Some 404 ∧
  engine_step (monitor_fails 404) s = Some s1 ∧
  run zero evs s1 = Some s' ∧
  useEvents (eng s') = false ∧ mon (eng s') = false ∧
  ∃ l, log (mem s') = log (mem s1) ++ l ∧ Forall (λ o, ¬ stream_rpc o) l.
Proof.
  intros s s1 evs s'.
  assert (run zero before_connect (init zero 30 0%nat) = Some s) as H0
    by (vm_compute; reflexivity).
  assert (pc (eng s) = PcConnect) as H1 by (vm_compute; reflexivity).
  assert (mon (eng s) = false) as H2 by (vm_compute; reflexivity).
  assert (useEvents (eng s) = true) as H3 by (vm_compute; reflexivity).
  assert (r_monitor (monitor_fails 404) = Some 404) as H4 by reflexivity.
  assert (engine_step (monitor_fails 404) s = Some s1) as H5 by (vm_compute; reflexivity).
  assert (run zero evs s1 = Some s') as H6 by (vm_compute; reflexivity).
  do 7 (split; [assumption|]).
  exact (proj2 (mode_fallback_one_way zero 30 0%nat before_connect
                 (monitor_fails 404) s s1 evs s' H0 H1 H2 H3 H4 H5 H6)).
Defined.

(** Block [h100], holding [opA] at position 3 of batch 0, has been
    processed; nobody had subscribed. *)
Definition included_before : list (@Event Hash Hash nat) :=
  start_polling ++ poll_block 100 "h100" [["x"; "y"; "z"; "opA"]] [] [] ++ poll_wait.

Lemma Subscribe_catch_up_unmarked_witness :
  let μ := mem (after included_before) in
  recent (obs μ) !! "opA" = Some (100, 0, 3) ∧
  (keep (bestHash (obs μ)) 100 0 3 false (world μ)).1 = false ∧
  log (Subscribe "opA" keep μ).2
    = log μ ++ [OCall 1 "h100" 100 0 3 false false] ∧
  subs (obs (Subscribe "opA" keep μ).2) !! 1 = Some (mkSub 1 keep "opA" false) ∧
  ∀ hb, depth_one hb (Subscribe "opA" keep μ).2 1 = (Subscribe "opA" keep μ).2.
Proof.
  intros μ.
  assert (recent (obs μ) !! "opA" = Some (100, 0, 3)) as H1 by (vm_compute; reflexivity).
  assert ((keep (bestHash (obs μ)) 100 0 3 false (world μ)).1 = false) as H2
    by reflexivity.
  split; [exact H1|]. split; [exact H2|].
  exact (Subscribe_catch_up_unmarked "opA" keep μ 100 0 3 H1 H2).
Defined.

(** What the bug looks like from outside: the late subscriber gets its
    position report and then, while blocks [h101] and [h102] pass, nothing;
    a subscriber that was there when [h100] was processed gets a depth report
    for each of the two blocks. *)
Example late_subscriber_gets_no_depth_reports :
  let later := poll_block 101 "h101" [[]] [1] ["opA"; "x"; "y"; "z"] ++ poll_wait
               ++ poll_block 102 "h102" [[]] [1] [] in
  filter is_call
    (log (mem (after (included_before ++ [ESubscribe "opA" keep] ++ later))))
  = [OCall 1 "h100" 100 0 3 false false] ∧
  filter is_call
    (log (mem (after ([ESubscribe "opA" keep] ++ included_before_with 1 ++ later))))
  = [OCall 1 "h100" 100 0 3 false false;
     OCall 1 "h101" (-1) (-1) (-1) false false;
     OCall 1 "h102" (-1) (-1) (-1) false false].
Proof. split; vm_compute; reflexivity. Qed.

(** Block [h100] with [opA] and [opB] has been processed, and the engine has
    fetched the operations of block [h101]: it is about to clear the cache. *)
Definition before_clear : list (@Event Hash Hash nat) :=
  start_polling ++ poll_block 100 "h100" [["opA"; "opB"]] [] [] ++ poll_wait
  ++ map EEngine (to_fetch 101 "h101" []) ++ [EEngine (ops [["opC"]])].

Lemma recent_cleared_outside_lock_witness :
  let s := after before_clear in
  pc (eng s) = PcClear ∧
  r_range_recent (clearing "opA") = Some "opA" ∧
  is_Some (recent (obs (mem s)) !! "opA") ∧
  "opB" ≠ "opA" ∧
  recent (obs (mem s)) !! "opB" = Some (100, 0, 1) ∧
  ∃ s',
    engine_step (clearing "opA") s = Some s' ∧
    pc (eng s') = PcClear ∧
    recent (obs (mem s')) !! "opA" = None ∧
    recent (obs (mem s')) !! "opB" = Some (100, 0, 1) ∧
    ∃ ret,
      log (Subscribe "opB" keep (mem s')).2
      = log (mem s) ++
          [OCall (int_incr (seq (obs (mem s)))) (bestHash (obs (mem s)))
                 100 0 1 false ret].
Proof.
  intros s.
  assert (pc (eng s) = PcClear) as H1 by (vm_compute; reflexivity).
  assert (r_range_recent (clearing "opA") = Some "opA") as H2 by reflexivity.
  assert (is_Some (recent (obs (mem s)) !! "opA")) as H3 by (vm_compute; eexists; reflexivity).
  assert ("opB" ≠ "opA") as H4 by (intros [=]).
  assert (recent (obs (mem s)) !! "opB" = Some (100, 0, 1)) as H5 by (vm_compute; reflexivity).
  do 5 (split; [assumption|]).
  exact (recent_cleared_outside_lock (clearing "opA") s "opA" "opB" keep
           100 0 1 H1 H2 H3 H4 H5).
Defined.

(** C3 on a block: watcher 1 keeps watching [opA]; watcher 2 of [opB] asks
    for removal at its first callback.  Block [h100] holds [opA], [opB] and
    [opC] in batch 0 and [opB] again in batch 1: [opA] and the first [opB]
    are reported with their positions, [opC] has no index entry, and the
    second [opB] finds the index entry of the removed watcher 2. *)
Example fan_out_of_a_block :
  filter is_call
    (log (mem (after ([ESubscribe "opA" keep; ESubscribe "opB" drop]
                      ++ start_polling
                      ++ poll_block 100 "h100" [["opA"; "opB"; "opC"]; ["opB"]]
                           [1; 2] []))))
  = [OCall 1 "h100" 100 0 0 false false; OCall 2 "h100" 100 0 1 false true].
Proof. vm_compute. reflexivity. Qed.

(** After a failed fetch in poll mode the next cycle polls the tip again:
    [bestHash] is still [h100], so block [h101] is not skipped; its depth
    pass runs a second time and its operations are fetched a second time. *)
Example failed_fetch_is_polled_again :
  log (mem (after ([ESubscribe "opA" keep] ++ start_polling
                   ++ poll_block 100 "h100" [["opA"]] [1] [] ++ poll_wait
                   ++ map EEngine (to_fetch 101 "h101" [1]) ++ [EEngine silent]
                   ++ map EEngine (to_fetch 101 "h101" [1]) ++ [EEngine (ops [[]])])))
  = [ORpc RpcMonitorBlockHeader;
     ORpc RpcGetTipHeader; ORpc RpcGetBlockHash;
     ORpc RpcGetBlockOperationHashes;
     OCall 1 "h100" 100 0 0 false false;
     ORpc RpcGetTipHeader; ORpc RpcGetBlockHash;
     OCall 1 "h101" (-1) (-1) (-1) false false;
     ORpc RpcGetBlockOperationHashes;
     ORpc RpcGetTipHeader; ORpc RpcGetBlockHash;
     OCall 1 "h101" (-1) (-1) (-1) false false;
     ORpc RpcGetBlockOperationHashes].
Proof. vm_compute. reflexivity. Qed.

(** C3 on a run: watcher 1 waits for [opA]; in poll mode the loop has taken
    the head [h100] at level 100 and run the depth pass; the fetch returns
    the block [[opA]], the cache is empty, and the fan-out follows. *)
Definition before_fetch_h100 : list (@Event Hash Hash nat) :=
  [ESubscribe "opA" keep] ++ start_polling
  ++ map EEngine (to_fetch 100 "h100" [1]).


(** The same run, read off: the head is [h100] at level 100, and the one
    callback of the fan-out is watcher 1 on position 0 of batch 0. *)
Example fan_out_after_fetch :
  let s := after before_fetch_h100 in
  let s2 := after (before_fetch_h100
                   ++ [EEngine (ops [["opA"]]); EEngine silent; EEngine silent]) in
  (headBlock (eng s), headHeight (eng s)) = ("h100", 100) ∧
  filter is_call (log (mem s2)) = [OCall 1 "h100" 100 0 0 false false].
Proof. vm_compute. split; reflexivity. Qed.

End Witness.

(** * Properties of the configuration glue *)

Module ComposeFacts.
Import Compose.

(** An argument is the flag iff it is a dash followed by the flag. *)
Lemma is_flag_spec flag arg : is_flag flag arg = true ↔ arg = "-" +:+ flag.
Proof.
  unfold is_flag, HasPrefix, TrimPrefix.
  destruct arg as [|a t]; cbn [strip_prefix].
  - split; [done|]. by destruct flag.
  - match goal with
    | |- context [Ascii.eqb ?c a] => destruct (Ascii.eqb c a) eqn:Ha
    end; cbn [andb].
    + apply Ascii.eqb_eq in Ha. subst a. rewrite String.eqb_eq.
      split; [by intros ->|by intros [= ->]].
    + split; [done|]. intros [= -> _]. by rewrite Ascii.eqb_refl in Ha.
Qed.

(** The scan of [getFlagValue], seen from the arguments still to visit. *)
Fixpoint scan (rest : list string) (flag : string) : outcome string :=
  match rest with
  | [] => Return ""
  | arg :: rest' =>
      if is_flag flag arg then
        match rest' with
        | v :: _ => Return v
        | [] => Panic
        end
      else scan rest' flag
  end.

Lemma getFlagValue_from_scan flag rest : ∀ visited,
  getFlagValue_from (visited ++ rest) (length visited) rest flag = scan rest flag.
Proof.
  induction rest as [|arg rest IH]; intros visited; simpl; [done|].
  destruct (is_flag flag arg).
  - rewrite lookup_app_r by lia.
    replace (length visited + 1 - length visited)%nat with 1%nat by lia.
    by destruct rest.
  - specialize (IH (visited ++ [arg])).
    rewrite <- app_assoc, length_app in IH. simpl in IH.
    by rewrite Nat.add_1_r in IH.
Qed.

Lemma scan_panic flag rest :
  scan rest flag = Panic ↔
  ∃ pre, rest = pre ++ ["-" +:+ flag] ∧ "-" +:+ flag ∉ pre.
Proof.
  induction rest as [|arg rest IH]; simpl.
  - split; [done|]. intros (pre & Heq & _). by destruct pre.
  - destruct (is_flag flag arg) eqn:Hflag.
    + apply is_flag_spec in Hflag as ->. destruct rest as [|v rest].
      * split; [|done]. intros _. exists []. split; [done|]. apply not_elem_of_nil.
      * split; [done|]. intros (pre & Heq & Hpre). destruct pre as [|a pre].
        -- done.
        -- simplify_eq/=. destruct Hpre. by left.
    + assert (arg ≠ "-" +:+ flag) as Hne.
      { intros Heq. apply is_flag_spec in Heq. congruence. }
      rewrite IH. split.
      * intros (pre & -> & Hpre). exists (arg :: pre). split; [done|].
        by intros [?|?]%elem_of_cons.
      * intros (pre & Heq & Hpre). destruct pre as [|a pre]; simplify_eq/=.
        exists pre. split; [done|]. intros Hin. apply Hpre. by right.
Qed.

Lemma scan_return flag rest v :
  scan rest flag = Return v ↔
(("-" +:+ flag ∉ rest) ∧ v = "") ∨
  ∃ pre post, rest = pre ++ ("-" +:+ flag) :: v :: post ∧ "-" +:+ flag ∉ pre.
Proof.
  induction rest as [|arg rest IH]; simpl.
  - split.
    + intros [= <-]. left. split; [apply not_elem_of_nil|done].
    + intros [[_ ->]|(pre & post & Heq & _)]; [done|]. by destruct pre.
  - destruct (is_flag flag arg) eqn:Hflag.
    + apply is_flag_spec in Hflag as ->. destruct rest as [|v' rest].
      * split; [done|]. intros [[Hnot _]|(pre & post & Heq & Hpre)].
        -- destruct Hnot. by left.
        -- destruct pre as [|a [|b pre]]; simplify_eq/=.
      * split.
        -- intros [= <-]. right. exists [], rest. split; [done|].
           apply not_elem_of_nil.
        -- intros [[Hnot _]|(pre & post & Heq & Hpre)].
           ++ destruct Hnot. by left.
           ++ destruct pre as [|a pre]; simplify_eq/=; [done|].
              destruct Hpre. by left.
    + assert (arg ≠ "-" +:+ flag) as Hne.
      { intros Heq. apply is_flag_spec in Heq. congruence. }
      rewrite IH. split.
      * intros [[Hnot ->]|(pre & post & -> & Hpre)].
        -- left. split; [|done]. by intros [?|?]%elem_of_cons.
        -- right. exists (arg :: pre), post. split; [done|].
           by intros [?|?]%elem_of_cons.
      * intros [[Hnot ->]|(pre & post & Heq & Hpre)].
        -- left. split; [|done]. intros Hin. apply Hnot. by right.
        -- right. destruct pre as [|a pre]; simplify_eq/=.
           exists pre, post. split; [done|]. intros Hin. apply Hpre. by right.
Qed.

(** C9. [getFlagValue] panics exactly when the first argument that is
    ["-" ++ flag] is the last argument; and it returns [v] exactly when no
    argument is the flag (and [v] is empty) or the first argument that is the
    flag is followed by [v].  So it panics on some inputs, and it returns only
    if the flag is absent or followed by at least one more argument. *)
Theorem getFlagValue_trailing_flag args flag :
  (getFlagValue args flag = Panic ↔
     ∃ pre, args = pre ++ ["-" +:+ flag] ∧ "-" +:+ flag ∉ pre) ∧
  (∀ v, getFlagValue args flag = Return v ↔
     (("-" +:+ flag ∉ args) ∧ v = "") ∨
     ∃ pre post, args = pre ++ ("-" +:+ flag) :: v :: post ∧ "-" +:+ flag ∉ pre) ∧
  getFlagValue ["tzcompose"; "-" +:+ flag] flag = Panic.
Proof.
  assert (∀ l, getFlagValue l flag = scan l flag) as Hscan.
  { intros l. unfold getFlagValue. apply (getFlagValue_from_scan flag l []). }
  rewrite !Hscan. split; [apply scan_panic|].
  split; [intros v; apply scan_return|].
  apply scan_panic. exists ["tzcompose"]. split; [done|].
  intros Hin%list_elem_of_singleton. done.
Qed.

(** The default account name [UpdateTaqContext] maps with: the configured
    one, or, when that is empty, the first key its [range] yields. *)
Definition chosen_default (env : TaqConfigEnv) (ks0 : list string) : string :=
  if String.eqb (AccountDefault env) "" then
    match ks0 with
    | accountName :: _ => accountName
    | [] => AccountDefault env
    end
  else AccountDefault env.

Section GlueFacts.

Context {PrivateKey Address : Type} `{Countable Address}.
Variable unmarshalConfig : string → option TaqConfig.
Variable unmarshalEnv : string → option TaqConfigEnv.
Variable ParsePrivateKey : string → PrivateKey * option string.
Variable KeyAddress : PrivateKey → option Address.
Variable AddressString : Address → string.
Variable AddVariable :
  string → string → @Context PrivateKey Address _ _ → @Context PrivateKey Address _ _.

Local Abbreviation Ctx := (@Context PrivateKey Address _ _).
Local Abbreviation State := (@MapState PrivateKey Address _ _).
Local Abbreviation body :=
  (mapAccount ParsePrivateKey KeyAddress AddressString AddVariable).
Local Abbreviation loop :=
  (mapAccounts ParsePrivateKey KeyAddress AddressString AddVariable).
Local Abbreviation map_accounts :=
  (mapTaqEnvAccountToContextAccount ParsePrivateKey KeyAddress AddressString
     AddVariable).
Local Abbreviation update :=
  (UpdateTaqContext ParsePrivateKey KeyAddress AddressString AddVariable).

(** The paths that do fail fast: an absent or undecodable document makes
    [ParseTaqConfig] return an error, and it returns a configuration only
    when both documents decode. *)
Lemma ParseTaqConfig_Ok a b set :
  ParseTaqConfig unmarshalConfig unmarshalEnv a b = Ok set ↔
  a ≠ "" ∧ b ≠ "" ∧
  ∃ config env, unmarshalConfig a = Some config ∧ unmarshalEnv b = Some env ∧
                set = mkTaqConfigSet config env.
Proof.
  unfold ParseTaqConfig.
  destruct (String.eqb a "") eqn:Ha.
  { apply String.eqb_eq in Ha. split; [done|]. by intros (? & _). }
  destruct (String.eqb b "") eqn:Hb.
  { apply String.eqb_eq in Hb. split; [done|]. by intros (_ & ? & _). }
  apply String.eqb_neq in Ha, Hb.
  destruct (unmarshalConfig a) as [config|].
  2:{ split; [done|]. by intros (_ & _ & ? & ? & ? & _). }
  destruct (unmarshalEnv b) as [env|].
  2:{ split; [done|]. by intros (_ & _ & ? & ? & _ & ? & _). }
  split.
  - intros [= <-]. eauto 10.
  - intros (_ & _ & ? & ? & [= <-] & [= <-] & ->). done.
Qed.

(** The account [name] of the environment has a secret key for whose parsed
    value [sk.Address()] panics. *)
Definition no_address (accounts : gmap string TaqEnvAccount) (name : string)
  : Prop :=
  ∃ acct, accounts !! name = Some acct ∧
    KeyAddress (ParsePrivateKey (TrimPrefix (SecretKey acct) "unencrypted:")).1
    = None.

Lemma mapAccount_panic accounts dflt (st : State) name :
  (body accounts dflt st name).2 = Panic ↔ no_address accounts name.
Proof.
  unfold mapAccount, no_address. destruct (accounts !! name) as [acct|].
  2:{ split; [done|]. by intros (? & ? & _). }
  destruct (ParsePrivateKey _) as [sk err] eqn:Hp.
  destruct (KeyAddress sk) as [addr|] eqn:Hk; cbn [snd].
  - split; [done|]. intros (a & [= <-] & Hn). rewrite Hp in Hn.
    cbn [fst] in Hn. congruence.
  - split; [|done]. intros _. exists acct. split; [done|]. by rewrite Hp.
Qed.

(** The loop panics exactly when it visits an account without address. *)
Lemma mapAccounts_panic accounts dflt ks : ∀ st : State,
  (loop accounts dflt st ks).2 = Panic ↔
  ∃ name, name ∈ ks ∧ no_address accounts name.
Proof.
  induction ks as [|name ks IH]; intros st; cbn [mapAccounts].
  - split; [done|]. intros (n & Hin & _). by apply elem_of_nil in Hin.
  - pose proof (mapAccount_panic accounts dflt st name) as Hone.
    destruct (body accounts dflt st name) as [p [|st']]; cbn [snd] in *.
    + split; [|done]. intros _. exists name. split; [by left|]. by apply Hone.
    + specialize (IH st').
      destruct (loop accounts dflt st' ks) as [more out]. cbn [snd] in *.
      rewrite IH. split.
      * intros (n & Hin & Hn). exists n. split; [by right|done].
      * intros (n & [->|Hin]%elem_of_cons & Hn); [|by eauto].
        by apply Hone in Hn.
Qed.

Lemma map_accounts_panic (ctx : Ctx) accounts dflt ks :
  (map_accounts ctx accounts dflt ks).2 = Panic ↔
  ∃ name, name ∈ ks ∧ no_address accounts name.
Proof.
  rewrite <- (mapAccounts_panic accounts dflt ks (mkMapState ctx 1)).
  unfold mapTaqEnvAccountToContextAccount.
  by destruct (loop accounts dflt _ ks) as [p [|st]].
Qed.

(** [UpdateTaqContext] with an empty account map, and with none. *)
Lemma UpdateTaqContext_empty (ctx : Ctx) set ks0 ks :
  size (ConfigAccounts (Config set)) = 0%nat ∨
  size (Accounts (ConfigEnv set)) = 0%nat →
  update ctx set ks0 ks
  = ([], Return (ctx, Some "E_TAQ_ERROR: No accounts configured")).
Proof.
  intros Hz. unfold UpdateTaqContext.
  destruct (decide (size (ConfigAccounts (Config set)) = 0%nat)); [done|].
  destruct (decide (size (Accounts (ConfigEnv set)) = 0%nat)); [done|].
  by destruct Hz.
Qed.

Lemma UpdateTaqContext_nonempty (ctx : Ctx) set ks0 ks :
  size (ConfigAccounts (Config set)) ≠ 0%nat →
  size (Accounts (ConfigEnv set)) ≠ 0%nat →
  update ctx set ks0 ks =
  match map_accounts ctx (Accounts (ConfigEnv set))
          (chosen_default (ConfigEnv set) ks0) ks with
  | (printed, Panic) => (printed, Panic)
  | (printed, Return ctx') => (printed, Return (ctx', None))
  end.
Proof.
  intros Hs1 Hs2. unfold UpdateTaqContext, chosen_default.
  destruct (decide (size (ConfigAccounts (Config set)) = 0%nat)); [done|].
  destruct (decide (size (Accounts (ConfigEnv set)) = 0%nat)); [done|].
  cbv zeta. destruct (String.eqb _ ""); [|done].
  destruct (decide (0 < size (Accounts (ConfigEnv set)))%nat); [done|lia].
Qed.

(** C7, as the code has it.  When the project has accounts and the
    environment account [name], which the mapping loop visits, has a secret
    key that [tezos.ParsePrivateKey] rejects with [e], [UpdateTaqContext]
    returns no error: it panics, or it returns a context and a nil error.
    And it panics if [sk.Address()] panics on the key value the failed parse
    returned. *)
Theorem UpdateTaqContext_swallows_key_error (ctx : Ctx) set ks0 ks name acct sk e :
  size (ConfigAccounts (Config set)) ≠ 0%nat →
  Accounts (ConfigEnv set) !! name = Some acct →
  ParsePrivateKey (TrimPrefix (SecretKey acct) "unencrypted:") = (sk, Some e) →
  name ∈ ks →
  let out := UpdateTaqContext ParsePrivateKey KeyAddress AddressString
               AddVariable ctx set ks0 ks in
  (out.2 = Panic ∨ ∃ ctx', out.2 = Return (ctx', None)) ∧
  (KeyAddress sk = None → out.2 = Panic).
Proof.
  intros Hproj Hacct Hparse Hin.
  assert (size (Accounts (ConfigEnv set)) ≠ 0%nat) as Henv.
  { intros Hz. apply map_size_empty_iff in Hz. by rewrite Hz in Hacct. }
  cbv zeta. rewrite (UpdateTaqContext_nonempty ctx set ks0 ks Hproj Henv).
  pose proof (map_accounts_panic ctx (Accounts (ConfigEnv set))
                (chosen_default (ConfigEnv set) ks0) ks) as Hpanic.
  destruct (map_accounts ctx _ _ ks) as [printed [|ctx']]; cbn [snd] in *.
  - split; [by left|done].
  - split; [right; by exists ctx'|].
    intros Hnone. assert (Return ctx' = @Panic Ctx) as Habs; [|done].
    apply Hpanic. exists name. split; [done|].
    exists acct. split; [done|]. by rewrite Hparse.
Qed.

End GlueFacts.

Lemma UpdateTaqContext_swallows_key_error_witness :
  let set := mkTaqConfigSet ComposeScenario.project ComposeScenario.environment in
  let out := UpdateTaqContext ComposeScenario.parse ComposeScenario.address
               (λ a, a) ComposeScenario.add_variable
               ComposeScenario.empty_context set ["alice"] ["alice"] in
  size (ConfigAccounts (Config set)) ≠ 0%nat ∧
  Accounts (ConfigEnv set) !! "alice"
    = Some (mkTaqEnvAccount "" "tz1alice" "unencrypted:not-a-key") ∧
  ComposeScenario.parse (TrimPrefix "unencrypted:not-a-key" "unencrypted:")
    = ("", Some "tezos: invalid private key") ∧
  "alice" ∈ ["alice"] ∧
  (out.2 = Panic ∨ ∃ ctx', out.2 = Return (ctx', None)) ∧ out.2 = Panic.
Proof.
  intros set out.
  assert (size (ConfigAccounts (Config set)) ≠ 0%nat) as H1
    by (vm_compute; intros Hz; discriminate Hz).
  assert (Accounts (ConfigEnv set) !! "alice"
          = Some (mkTaqEnvAccount "" "tz1alice" "unencrypted:not-a-key")) as H2
    by (vm_compute; reflexivity).
  assert (ComposeScenario.parse (TrimPrefix "unencrypted:not-a-key" "unencrypted:")
          = ("", Some "tezos: invalid private key")) as H3
    by (vm_compute; reflexivity).
  assert ("alice" ∈ ["alice"]) as H4 by (apply list_elem_of_singleton; reflexivity).
  do 4 (split; [assumption|]).
  pose proof (UpdateTaqContext_swallows_key_error
                ComposeScenario.parse ComposeScenario.address (λ a, a)
                ComposeScenario.add_variable ComposeScenario.empty_context
                set ["alice"] ["alice"] "alice" _ _ _ H1 H2 H3 H4) as (Hno & Hpanic).
  split; [exact Hno|]. apply Hpanic. reflexivity.
Defined.

(** The same input through [NewTaqContext]: the command line names both
    documents, both decode, [println] is called with the error of the parse,
    and the call panics where it takes the address of the key value; with
    keys that parse it returns a context and no error. *)
Example NewTaqContext_on_bad_key :
  NewTaqContext ComposeScenario.decode_project ComposeScenario.decode_environment
    ComposeScenario.parse ComposeScenario.address (λ a, a)
    ComposeScenario.add_variable ComposeScenario.empty_context
    ["tzcompose"; "-taqconfig"; "{project}"; "-taqconfigenv"; "{environment}"]
    ["alice"] ["alice"]
  = ([PrintlnError "tezos: invalid private key"], Panic).
Proof. vm_compute. reflexivity. Qed.

End ComposeFacts.

(** * Further properties of the observer *)

Section ObserverCoverage.

Context {OpHash BlockHash World : Type}.
Context `{Countable OpHash} `{EqDecision BlockHash}.

Local Abbreviation Callback := (@ObserverCallback BlockHash World).
Local Abbreviation Subscription := (@observerSubscription OpHash BlockHash World).
Local Abbreviation Memory := (@Mem OpHash BlockHash World _ _).
Local Abbreviation System := (@Sys OpHash BlockHash World _ _).
Local Abbreviation Events := (list (@Event OpHash BlockHash World)).
Local Abbreviation Answer := (@Reply OpHash BlockHash).

Implicit Types (μ : Memory) (s : System) (h : OpHash) (f : Callback)
  (r : Answer) (evs : Events) (v w : Subscription) (i k : Z).

(** *** Who is called *)

(** Some callback of watcher [i] is in [l]. *)
Definition called (i : Z) (l : list (@Obs BlockHash)) : Prop :=
  ∃ bh height batch pos fin ret, OCall i bh height batch pos fin ret ∈ l.

(** Every stored watcher is stored under its own id. *)
Definition ids_are_keys μ : Prop :=
  ∀ k v, subs (obs μ) !! k = Some v → id v = k.

(** From [μ] to [μ'] the counter has not gone down, and whoever is stored
    in [μ'] or was called on the way was stored in [μ] or got an id the
    counter has passed since. *)
Definition delivers μ μ' : Prop :=
  seq (obs μ) ≤ seq (obs μ') ∧
  (∀ i, is_Some (subs (obs μ') !! i) →
        is_Some (subs (obs μ) !! i) ∨ seq (obs μ) < i ≤ seq (obs μ')) ∧
  ∃ l, log μ' = log μ ++ l ∧
    ∀ i, called i l →
         is_Some (subs (obs μ) !! i) ∨ seq (obs μ) < i ≤ seq (obs μ').

Lemma called_nil i : ¬ called i [].
Proof. intros (? & ? & ? & ? & ? & ? & Hin). by apply elem_of_nil in Hin. Qed.

Lemma called_app i l1 l2 : called i (l1 ++ l2) ↔ called i l1 ∨ called i l2.
Proof.
  split.
  - intros (bh & a & b & c & d & e & [Hin|Hin]%elem_of_app);
      [left|right]; by exists bh, a, b, c, d, e.
  - intros [(bh & a & b & c & d & e & Hin)|(bh & a & b & c & d & e & Hin)];
      exists bh, a, b, c, d, e; apply elem_of_app; eauto.
Qed.

Lemma called_singleton i j bh a b c d e :
  called i [OCall j bh a b c d e] ↔ i = j.
Proof.
  split.
  - intros (? & ? & ? & ? & ? & ? & Hin%list_elem_of_singleton). congruence.
  - intros ->. exists bh, a, b, c, d, e. by apply list_elem_of_singleton.
Qed.

Lemma called_rpc i c : ¬ called i [ORpc c].
Proof. by intros (? & ? & ? & ? & ? & ? & Hin%list_elem_of_singleton). Qed.

Lemma delivers_refl μ : delivers μ μ.
Proof.
  split; [lia|]. split; [by left|]. exists [].
  split; [by rewrite app_nil_r|]. intros i Hc. by apply called_nil in Hc.
Qed.

Lemma delivers_trans μ1 μ2 μ3 :
  delivers μ1 μ2 → delivers μ2 μ3 → delivers μ1 μ3.
Proof.
  intros (Hq1 & Hk1 & l1 & Hl1 & Hc1) (Hq2 & Hk2 & l2 & Hl2 & Hc2).
  split; [lia|]. split.
  - intros i Hi. destruct (Hk2 i Hi) as [Hi2|?]; [|right; lia].
    destruct (Hk1 i Hi2) as [?|?]; [by left|right; lia].
  - exists (l1 ++ l2). split; [by rewrite Hl2, Hl1, app_assoc|].
    intros i [Hc|Hc]%called_app.
    + destruct (Hc1 i Hc) as [?|?]; [by left|right; lia].
    + destruct (Hc2 i Hc) as [Hi2|?]; [|right; lia].
      destruct (Hk1 i Hi2) as [?|?]; [by left|right; lia].
Qed.

(** A step that stores nobody new and logs nothing but chain-client
    calls. *)
Lemma delivers_quiet μ μ' l :
  seq (obs μ') = seq (obs μ) →
  (∀ i, is_Some (subs (obs μ') !! i) → is_Some (subs (obs μ) !! i)) →
  log μ' = log μ ++ l → (∀ i, ¬ called i l) → delivers μ μ'.
Proof.
  intros Hq Hk Hl Hc. split; [lia|]. split; [by left; apply Hk|].
  exists l. split; [done|]. intros i Hi. by apply Hc in Hi.
Qed.

Lemma ids_are_keys_pass P μ μ' :
  pass_rel P μ μ' → ids_are_keys μ → ids_are_keys μ'.
Proof.
  intros (_ & _ & _ & l & _ & _ & Hsub) Hid k v' Hk.
  specialize (Hsub k). rewrite Hk in Hsub.
  destruct (subs (obs μ) !! k) as [v|] eqn:Hv; [|done].
  destruct Hsub as (-> & _). eauto.
Qed.

(** A callback of a stored watcher, followed by its removal if it asks. *)
Lemma delivers_invoke_delete k v bh height batch pos fin μ :
  subs (obs μ) !! k = Some v → id v = k →
  let out := invoke v bh height batch pos fin μ in
  delivers μ (if out.1 then delete_sub (id v) out.2 else out.2).
Proof.
  intros Hk Hid. rewrite invoke_unfold. simpl.
  destruct (cb v bh height batch pos fin (world μ)) as [[] w']; simpl;
    (split; [simpl; lia|]); (split; [|eexists; split; [reflexivity|];
      intros i ->%called_singleton; left; rewrite Hid; eauto]).
  - intros i. simpl. intros [x Hx]. apply lookup_delete_Some in Hx as [_ Hx].
    left. eauto.
  - by left.
Qed.

Lemma depth_one_delivers hb μ k :
  ids_are_keys μ → delivers μ (depth_one hb μ k).
Proof.
  intros Hid. unfold depth_one.
  destruct (subs (obs μ) !! k) as [v|] eqn:Hk; [|apply delivers_refl].
  destruct (matched v); [|apply delivers_refl].
  pose proof (delivers_invoke_delete k v hb (-1) (-1) (-1) false μ Hk (Hid _ _ Hk))
    as Hd. simpl in Hd.
  by destruct (invoke v hb (-1) (-1) (-1) false μ) as [[] μ'].
Qed.

Lemma depth_pass_delivers hb ks : ∀ μ,
  ids_are_keys μ → delivers μ (depth_pass hb ks μ).
Proof.
  unfold depth_pass. induction ks as [|k ks IH]; intros μ Hid; simpl.
  - apply delivers_refl.
  - eapply delivers_trans; [by apply depth_one_delivers|].
    apply IH. eapply ids_are_keys_pass; [apply depth_one_pass_rel|done].
Qed.

Lemma dispatch_one_delivers hb hh μ e :
  ids_are_keys μ → delivers μ (dispatch_one hb hh μ e).
Proof.
  intros Hid. destruct e as [[l n] h]. unfold dispatch_one.
  set (μ1 := with_obs _ μ).
  assert (delivers μ μ1) as H1.
  { apply (delivers_quiet _ _ []); try done.
    - by rewrite app_nil_r.
    - apply called_nil. }
  destruct (watched (obs μ) !! h) as [i|]; [|done].
  destruct (subs (obs μ) !! i) as [mt|] eqn:Hi; [|done].
  destruct (decide (oh mt = h)); [|done].
  pose proof (delivers_invoke_delete i mt hb hh l n false μ1 Hi (Hid _ _ Hi)) as Hd.
  simpl in Hd.
  destruct (invoke mt hb hh l n false μ1) as [[] μ2] eqn:Hinv; simpl in Hd.
  - exact (delivers_trans _ _ _ H1 Hd).
  - eapply delivers_trans; [exact (delivers_trans _ _ _ H1 Hd)|].
    apply (delivers_quiet _ _ []); try done.
    + intros j. simpl. destruct (decide (j = i)) as [->|Hne].
      * rewrite lookup_alter_eq. by destruct (subs (obs μ2) !! i).
      * by rewrite lookup_alter_ne.
    + by rewrite app_nil_r.
    + apply called_nil.
Qed.

Lemma dispatch_fold_delivers hb hh es : ∀ μ,
  ids_are_keys μ → delivers μ (foldl (dispatch_one hb hh) μ es).
Proof.
  induction es as [|e es IH]; intros μ Hid; simpl.
  - apply delivers_refl.
  - eapply delivers_trans; [by apply dispatch_one_delivers|].
    apply IH. eapply ids_are_keys_pass; [apply dispatch_one_pass_rel|done].
Qed.

Lemma dispatch_pass_delivers hb hh o μ :
  ids_are_keys μ → delivers μ (dispatch_pass hb hh o μ).
Proof.
  intros Hid. unfold dispatch_pass.
  eapply delivers_trans; [by apply dispatch_fold_delivers|].
  apply (delivers_quiet _ _ []); try done.
  - by rewrite app_nil_r.
  - apply called_nil.
Qed.

Lemma logged_rpc_delivers c μ : delivers μ (logged (ORpc c) μ).
Proof. apply (delivers_quiet _ _ [ORpc c]); try done. intros i. apply called_rpc. Qed.

(** Case analysis on the branches an engine step takes. *)
Ltac branches Hstep :=
  repeat (first
    [ progress simplify_eq
    | match type of Hstep with
      | context [match ?x with _ => _ end] => destruct x eqn:?
      end ]);
  repeat case_match; simpl.

Lemma engine_step_delivers r s s' :
  ids_are_keys (mem s) → engine_step r s = Some s' →
  delivers (mem s) (mem s').
Proof.
  unfold engine_step, wait_or_return, after_head, rpc, goto.
  intros Hid Hstep. branches Hstep;
    first [ apply delivers_refl
          | apply logged_rpc_delivers
          | (eapply delivers_trans; apply logged_rpc_delivers)
          | by apply depth_pass_delivers
          | by apply dispatch_pass_delivers
          | idtac ].
  apply (delivers_quiet _ _ []); try done.
  - by rewrite app_nil_r.
  - apply called_nil.
Qed.

Lemma Subscribe_delivers h f μ :
  0 ≤ seq (obs μ) < int_max → delivers μ (Subscribe h f μ).2.
Proof.
  intros Hq. pose proof (int_incr_small _ Hq) as Hi.
  assert (∀ j x y, <[int_incr (seq (obs μ)) := x]> (subs (obs μ)) !! j = Some y →
    is_Some (subs (obs μ) !! j) ∨ seq (obs μ) < j ≤ int_incr (seq (obs μ)))
    as Hkeys.
  { intros j x y. rewrite Hi.
    destruct (decide (j = seq (obs μ) + 1)) as [->|Hne]; [right; lia|].
    rewrite lookup_insert_ne by done. left. eauto. }
  destruct (recent (obs μ) !! h) as [[[height batch] pos]|] eqn:Hrec.
  - rewrite (Subscribe_cached h f μ height batch pos Hrec). simpl.
    destruct (f (bestHash (obs μ)) height batch pos false (world μ)) as [[] w'];
      simpl; rewrite ?Hi in *; (split; [simpl; lia|]); split; simpl.
    + intros j [x Hx]. apply lookup_delete_Some in Hx as [_ Hx]. eauto.
    + eexists. split; [done|]. intros j ->%called_singleton. right. lia.
    + intros j [x Hx]. eauto.
    + eexists. split; [done|]. intros j ->%called_singleton. right. lia.
  - rewrite (Subscribe_uncached h f μ Hrec). unfold stored. simpl.
    rewrite ?Hi in *. split; [simpl; lia|]. split; simpl.
    + intros j [x Hx]. eauto.
    + exists []. split; [by rewrite app_nil_r|].
      intros j Hc. by apply called_nil in Hc.
Qed.

Lemma step_delivers zero n ev s s' :
  0 ≤ n → n + subscriptions [ev] ≤ int_max →
  registry_inv n (mem s) → step zero ev s = Some s' →
  delivers (mem s) (mem s').
Proof.
  intros Hn Hmax Hinv Hstep.
  pose proof (inv_seq _ _ Hinv) as Hseq. pose proof (inv_id _ _ Hinv) as Hid.
  destruct ev; simpl in *; simplify_eq; simpl.
  - apply Subscribe_delivers. unfold int_max in *. lia.
  - unfold Unsubscribe. destruct (subs (obs (mem s)) !! i) as [req|];
      [|apply delivers_refl].
    apply (delivers_quiet _ _ []); simpl; try done.
    + intros j [x Hx]. apply lookup_delete_Some in Hx as [_ Hx]. eauto.
    + by rewrite app_nil_r.
    + apply called_nil.
  - apply (delivers_quiet _ _ []); simpl; try done.
    + intros j [x Hx]. by rewrite lookup_empty in Hx.
    + by rewrite app_nil_r.
    + apply called_nil.
  - apply (delivers_quiet _ _ []); simpl; try done.
    + by rewrite app_nil_r.
    + apply called_nil.
  - unfold start. destruct (listening _); [apply delivers_refl|].
    apply (delivers_quiet _ _ []); simpl; try by destruct params.
    + by rewrite app_nil_r.
    + apply called_nil.
  - unfold start. destruct (listening _); [apply delivers_refl|].
    apply (delivers_quiet _ _ []); simpl; try by destruct params.
    + by rewrite app_nil_r.
    + apply called_nil.
  - by eapply engine_step_delivers.
Qed.

Lemma run_delivers zero evs : ∀ n s s',
  0 ≤ n → n + subscriptions evs ≤ int_max →
  registry_inv n (mem s) → run zero evs s = Some s' →
  delivers (mem s) (mem s').
Proof.
  induction evs as [|ev evs IH]; intros n s s' Hn Hmax Hinv Hrun.
  - simpl in Hrun. simplify_eq. apply delivers_refl.
  - simpl in Hrun. destruct (step zero ev s) as [s1|] eqn:Hstep; [|done].
    pose proof (subscriptions_nonneg evs) as Hevs.
    pose proof (subscriptions_nonneg [ev]) as Hev.
    assert (subscriptions (ev :: evs) = subscriptions [ev] + subscriptions evs)
      as Hsplit by (destruct ev; simpl; lia).
    rewrite Hsplit in Hmax.
    eapply delivers_trans.
    + apply (step_delivers zero n ev s s1); [done|lia|done|done].
    + apply (IH (n + subscriptions [ev]) s1 s'); [lia|lia| |done].
      apply (step_inv zero n ev s s1); [done|lia|done|done].
Qed.

Lemma subscriptions_app evs1 evs2 :
  subscriptions (evs1 ++ evs2) = subscriptions evs1 + subscriptions evs2.
Proof. induction evs1 as [|[] evs1 IH]; simpl; lia. Qed.

Lemma Subscribe_catch_up_id h f μ : (Subscribe h f μ).1 = int_incr (seq (obs μ)).
Proof. unfold Subscribe. simpl. by repeat case_match. Qed.

(** What a run from a fresh observer has established when it reaches [s]. *)
Lemma reached_inv zero d (w0 : World) evs s :
  subscriptions evs ≤ int_max →
  run zero evs (init zero d w0) = Some s →
  registry_inv (subscriptions evs) (mem s).
Proof.
  intros Hmax Hrun.
  exact (run_inv zero evs 0 _ _ (Z.le_refl 0) Hmax (init_inv zero d w0) Hrun).
Qed.

(** X1. Removal is honoured.  Take any state [s] an execution reaches and
    any continuation of it, the counter not wrapping.  Every callback logged
    in the continuation belongs to a watcher that was stored in [subs] at [s]
    or got its id after [s]: a watcher that [Unsubscribe], [Close] or its own
    callback's request has removed is never called again, and no id is handed
    out twice. *)
Theorem removed_watcher_never_called zero d (w0 : World) evs0 s evs s' :
  run zero evs0 (init zero d w0) = Some s →
  run zero evs s = Some s' →
  subscriptions (evs0 ++ evs) ≤ int_max →
  ∃ l, log (mem s') = log (mem s) ++ l ∧
    ∀ i, called i l →
         is_Some (subs (obs (mem s)) !! i) ∨ seq (obs (mem s)) < i.
Proof.
  intros Hrun0 Hrun Hmax. rewrite subscriptions_app in Hmax.
  pose proof (subscriptions_nonneg evs0). pose proof (subscriptions_nonneg evs).
  assert (registry_inv (subscriptions evs0) (mem s)) as Hinv
    by (apply (reached_inv zero d w0 evs0 s); [lia|done]).
  destruct (run_delivers zero evs (subscriptions evs0) s s'
              ltac:(lia) Hmax Hinv Hrun) as (_ & _ & l & Hl & Hc).
  exists l. split; [done|]. intros i Hi.
  destruct (Hc i Hi) as [?|?]; [by left|right; lia].
Qed.

(** Nothing but [Close] writes the cancellation flag. *)
Lemma depth_one_cancelled hb μ k :
  cancelled (obs (depth_one hb μ k)) = cancelled (obs μ).
Proof.
  unfold depth_one. repeat case_match; try done.
  all: match goal with
       | Hinv : invoke _ _ _ _ _ _ _ = _ |- _ =>
           rewrite invoke_unfold in Hinv; by simplify_eq
       end.
Qed.

Lemma dispatch_one_cancelled hb hh μ e :
  cancelled (obs (dispatch_one hb hh μ e)) = cancelled (obs μ).
Proof.
  unfold dispatch_one. repeat case_match; try done.
  all: match goal with
       | Hinv : invoke _ _ _ _ _ _ _ = _ |- _ =>
           rewrite invoke_unfold in Hinv; by simplify_eq
       end.
Qed.

Lemma engine_step_cancelled r s s' :
  engine_step r s = Some s' →
  cancelled (obs (mem s')) = cancelled (obs (mem s)).
Proof.
  unfold engine_step, wait_or_return, after_head, rpc, goto.
  intros Hstep. branches Hstep; try done.
  - unfold depth_pass. generalize (mem s). generalize (r_range_subs r).
    intros ks. induction ks as [|k ks IH]; intros μ; simpl; [done|].
    by rewrite IH, depth_one_cancelled.
  - unfold dispatch_pass. simpl. generalize (mem s).
    generalize (block_entries (ohs (eng s))).
    intros es. induction es as [|e es IH]; intros μ; simpl; [done|].
    by rewrite IH, dispatch_one_cancelled.
  - unfold dispatch_pass. simpl. generalize (mem s).
    generalize (block_entries (ohs (eng s))).
    intros es. induction es as [|e es IH]; intros μ; simpl; [done|].
    by rewrite IH, dispatch_one_cancelled.
Qed.

Lemma step_cancelled zero ev s s' :
  cancelled (obs (mem s)) = true → step zero ev s = Some s' →
  cancelled (obs (mem s')) = true.
Proof.
  intros Hc Hstep. destruct ev; simpl in Hstep; simplify_eq; simpl; try done.
  - destruct (recent (obs (mem s)) !! h) as [[[height batch] pos]|] eqn:Hrec.
    + rewrite (Subscribe_cached h f _ height batch pos Hrec). simpl.
      by destruct (f _ _ _ _ _ _).1.
    + by rewrite (Subscribe_uncached h f _ Hrec).
  - unfold Unsubscribe. by case_match.
  - unfold start. repeat case_match; simpl; done.
  - unfold start. repeat case_match; simpl; done.
  - apply engine_step_cancelled in Hstep. congruence.
Qed.

Lemma run_cancelled zero evs : ∀ s s',
  cancelled (obs (mem s)) = true → run zero evs s = Some s' →
  cancelled (obs (mem s')) = true.
Proof.
  induction evs as [|ev evs IH]; intros s s' Hc Hrun; simpl in Hrun.
  - by simplify_eq.
  - destruct (step zero ev s) as [s1|] eqn:Hstep; [|done].
    eapply IH; [|done]. by eapply step_cancelled.
Qed.

(** X2. [Close] ends delivery to everyone subscribed so far.  After [Close]
    in a reachable state the context stays cancelled, whatever follows, and
    every callback logged from then on belongs to a watcher whose id is above
    the counter at the time of [Close], that is, to a later [Subscribe]. *)
Theorem Close_ends_delivery zero d (w0 : World) evs0 s evs s' :
  run zero evs0 (init zero d w0) = Some s →
  run zero (EClose :: evs) s = Some s' →
  subscriptions (evs0 ++ evs) ≤ int_max →
  cancelled (obs (mem s')) = true ∧
  ∃ l, log (mem s') = log (mem s) ++ l ∧
    ∀ i, called i l → seq (obs (mem s)) < i.
Proof.
  intros Hrun0 Hrun Hmax. rewrite subscriptions_app in Hmax.
  pose proof (subscriptions_nonneg evs0). pose proof (subscriptions_nonneg evs).
  assert (registry_inv (subscriptions evs0) (mem s)) as Hinv
    by (apply (reached_inv zero d w0 evs0 s); [lia|done]).
  simpl in Hrun. split; [by eapply run_cancelled; [|done]|].
  apply Close_inv in Hinv.
  destruct (run_delivers zero evs (subscriptions evs0)
              (with_mem (Close (mem s)) s) s' ltac:(lia) Hmax Hinv Hrun)
    as (_ & _ & l & Hl & Hc).
  exists l. split; [done|]. intros i Hi.
  destruct (Hc i Hi) as [[x Hx]|?]; [|simpl in *; lia].
  simpl in Hx. by rewrite lookup_empty in Hx.
Qed.

(** X3. Ids are fresh.  In a reachable state, the counter not wrapping,
    [Subscribe] returns the number of [Subscribe] calls so far plus one, and
    that id is neither a key of [subs] nor a value of [watched]: no two
    watchers ever share an id. *)
Theorem Subscribe_id_fresh zero d (w0 : World) evs s h f :
  run zero evs (init zero d w0) = Some s →
  subscriptions evs < int_max →
  let i := (Subscribe h f (mem s)).1 in
  i = subscriptions evs + 1 ∧
  subs (obs (mem s)) !! i = None ∧
  ∀ h', watched (obs (mem s)) !! h' ≠ Some i.
Proof.
  intros Hrun Hmax. pose proof (subscriptions_nonneg evs) as Hn.
  assert (registry_inv (subscriptions evs) (mem s)) as Hinv
    by (apply (reached_inv zero d w0 evs s); [lia|done]).
  pose proof (inv_seq _ _ Hinv) as Hseq.
  assert ((Subscribe h f (mem s)).1 = subscriptions evs + 1) as Hi.
  { pose proof (Subscribe_catch_up_id h f (mem s)) as ->.
    rewrite Hseq. apply int_incr_small. lia. }
  simpl. rewrite Hi. split; [done|]. split.
  - destruct (run_delivers zero evs 0 (init zero d w0) s ltac:(lia) ltac:(lia)
                (init_inv zero d w0) Hrun) as (_ & Hk & _).
    destruct (subs (obs (mem s)) !! (subscriptions evs + 1)) eqn:Hs; [|done].
    destruct (Hk (subscriptions evs + 1)) as [[x Hx]|?]; [eauto| |lia].
    simpl in Hx. by rewrite lookup_empty in Hx.
  - intros h' Hh'. pose proof (inv_bound _ _ Hinv _ _ Hh'). lia.
Qed.

(** *** The depth-counting pass *)

(** Watcher [k] is stored and has been matched. *)
Definition is_matched μ k : bool :=
  match subs (obs μ) !! k with Some v => matched v | None => false end.

(** The depth report of block [hb] to watcher [i], answered by [ret]. *)
Definition depth_call (hb : BlockHash) (i : Z) (ret : bool) : @Obs BlockHash :=
  OCall i hb (-1) (-1) (-1) false ret.

Lemma depth_one_log hb μ k :
  ids_are_keys μ →
  ∃ ret, log (depth_one hb μ k)
         = log μ ++ (if is_matched μ k then [depth_call hb k ret] else []).
Proof.
  intros Hid. unfold depth_one, is_matched.
  destruct (subs (obs μ) !! k) as [v|] eqn:Hk.
  2:{ exists false. by rewrite app_nil_r. }
  destruct (matched v).
  2:{ exists false. by rewrite app_nil_r. }
  rewrite invoke_unfold. rewrite (Hid _ _ Hk).
  exists (cb v hb (-1) (-1) (-1) false (world μ)).1.
  by destruct (cb v hb (-1) (-1) (-1) false (world μ)).1.
Qed.

Lemma depth_one_other hb μ k k' :
  ids_are_keys μ → k' ≠ k →
  subs (obs (depth_one hb μ k)) !! k' = subs (obs μ) !! k'.
Proof.
  intros Hid Hne. unfold depth_one.
  destruct (subs (obs μ) !! k) as [v|] eqn:Hk; [|done].
  destruct (matched v); [|done].
  rewrite invoke_unfold. rewrite (Hid _ _ Hk).
  destruct (cb v hb (-1) (-1) (-1) false (world μ)).1; simpl; [|done].
  by rewrite lookup_delete_ne.
Qed.

Lemma filter_agree (P1 P2 : Z → Prop)
    `{!∀ x, Decision (P1 x), !∀ x, Decision (P2 x)} (l : list Z) :
  (∀ x, x ∈ l → (P1 x ↔ P2 x)) → filter P1 l = filter P2 l.
Proof.
  induction l as [|x l IH]; intros Hiff; [done|].
  rewrite !filter_cons.
  assert (P1 x ↔ P2 x) as Hx by (apply Hiff; by left).
  rewrite IH by (intros y Hy; apply Hiff; by right).
  destruct (decide (P1 x)), (decide (P2 x)); tauto.
Qed.

Lemma depth_pass_log hb ks : ∀ μ,
  ids_are_keys μ → NoDup ks →
  ∃ rets,
    length rets = length (filter (λ k, is_matched μ k = true) ks) ∧
    log (depth_pass hb ks μ)
    = log μ ++ zip_with (depth_call hb) (filter (λ k, is_matched μ k = true) ks) rets.
Proof.
  unfold depth_pass. induction ks as [|k ks IH]; intros μ Hid Hnd; simpl.
  - exists []. by rewrite app_nil_r.
  - apply NoDup_cons in Hnd as [Hk Hnd].
    assert (ids_are_keys (depth_one hb μ k)) as Hid1
      by (eapply ids_are_keys_pass; [apply depth_one_pass_rel|done]).
    destruct (IH (depth_one hb μ k) Hid1 Hnd) as (rets & Hlen & Hlog).
    assert (filter (λ k0, is_matched (depth_one hb μ k) k0 = true) ks
            = filter (λ k0, is_matched μ k0 = true) ks) as Hsame.
    { apply filter_agree. intros k' Hin.
      unfold is_matched. rewrite depth_one_other; [done|done|].
      intros ->. done. }
    rewrite Hsame in Hlen, Hlog.
    destruct (depth_one_log hb μ k Hid) as (ret & Hone).
    rewrite Hlog, Hone. rewrite filter_cons.
    destruct (is_matched μ k) eqn:Hm.
    + rewrite decide_True by done. exists (ret :: rets). simpl.
      split; [lia|]. by rewrite <- app_assoc.
    + rewrite decide_False by done. exists rets. split; [done|].
      by rewrite app_nil_r.
Qed.

(** X4. One depth report per matched watcher.  When the engine runs its
    depth-counting pass in a state where every watcher is stored under its
    own id, the pass logs exactly one callback on [(head, -1, -1, -1, false)]
    for each stored watcher whose flag is set, in the order the range yields
    them, and nothing else; unmatched watchers are not called. *)
Theorem depth_pass_reports_once r s s' :
  pc (eng s) = PcDepth →
  ids_are_keys (mem s) →
  engine_step r s = Some s' →
  ∃ ids rets,
    log (mem s') = log (mem s) ++ zip_with (depth_call (headBlock (eng s))) ids rets ∧
    length rets = length ids ∧
    NoDup ids ∧
    ∀ k, k ∈ ids ↔ ∃ v, subs (obs (mem s)) !! k = Some v ∧ matched v = true.
Proof.
  intros Hpc Hid Hstep. unfold engine_step in Hstep. rewrite Hpc in Hstep.
  destruct (decide (range_ok _ _)) as [[Hnd Hdom]|]; [|done].
  simplify_eq. simpl.
  destruct (depth_pass_log (headBlock (eng s)) (r_range_subs r) (mem s) Hid Hnd)
    as (rets & Hlen & Hlog).
  eexists _, rets. split; [done|]. split; [done|].
  split; [by apply NoDup_filter|].
  intros k. rewrite list_elem_of_filter. unfold is_matched. split.
  - intros [Hm _]. destruct (subs (obs (mem s)) !! k) as [v|]; [eauto|done].
  - intros (v & Hv & Hm). rewrite Hv. split; [done|].
    assert (k ∈ dom (subs (obs (mem s)))) as Hin by (apply elem_of_dom; eauto).
    rewrite <- Hdom in Hin. by apply elem_of_list_to_set in Hin.
Qed.

(** X5. From first match to depth reports.  If the fan-out loop finds a
    stored watcher for the hash and its callback returns false, then the
    watcher stays stored with its flag set, and a depth-counting pass that
    reaches it calls it on [(head', -1, -1, -1, false)]. *)
Theorem first_match_then_depth hb hh hb' μ l n h i v :
  watched (obs μ) !! h = Some i →
  subs (obs μ) !! i = Some v →
  oh v = h →
  (cb v hb hh l n false (world μ)).1 = false →
  let μ' := dispatch_one hb hh μ (l, n, h) in
  is_matched μ' i = true ∧
  ∃ ret, log (depth_one hb' μ' i) = log μ' ++ [depth_call hb' (id v) ret].
Proof.
  intros Hw Hs Hoh Hret μ'.
  pose proof (dispatch_one_marks hb hh μ l n h i v Hw Hs Hoh Hret) as Hm.
  fold μ' in Hm. unfold is_matched, depth_one. rewrite Hm. simpl.
  split; [done|]. rewrite invoke_unfold. simpl.
  exists (cb v hb' (-1) (-1) (-1) false (world μ')).1.
  by destruct (cb v hb' (-1) (-1) (-1) false (world μ')).1.
Qed.

(** *** The cache after a block *)

Lemma dispatch_one_recent hb hh μ l n h :
  recent (obs (dispatch_one hb hh μ (l, n, h)))
  = <[h := (hh, l, n)]> (recent (obs μ)).
Proof.
  unfold dispatch_one. repeat case_match; try done.
  all: match goal with
       | Hinv : invoke _ _ _ _ _ _ _ = _ |- _ =>
           rewrite invoke_unfold in Hinv; by simplify_eq
       end.
Qed.

Lemma dispatch_fold_recent hb hh es : ∀ μ h,
  let μ' := foldl (dispatch_one hb hh) μ es in
  ((∀ l n, (l, n, h) ∉ es) → recent (obs μ') !! h = recent (obs μ) !! h) ∧
  (∀ l n, (l, n, h) ∈ es →
     ∃ l' n', (l', n', h) ∈ es ∧ recent (obs μ') !! h = Some (hh, l', n')).
Proof.
  induction es as [|[[l0 n0] h0] es IH] using rev_ind; intros μ h; cbv zeta.
  - split; [done|]. intros l n Hin. by apply elem_of_nil in Hin.
  - rewrite foldl_app. cbn [foldl]. rewrite dispatch_one_recent.
    destruct (IH μ h) as [IHout IHin]. split.
    + intros Hnot. assert (h0 ≠ h) as Hne.
      { intros ->. apply (Hnot l0 n0). apply elem_of_app. right. by left. }
      rewrite lookup_insert_ne by done. apply IHout.
      intros l n Hin. apply (Hnot l n). apply elem_of_app. by left.
    + intros l n Hin. destruct (decide (h0 = h)) as [->|Hne].
      * exists l0, n0. rewrite lookup_insert_eq.
        split; [|done]. apply elem_of_app. right. by left.
      * rewrite lookup_insert_ne by done.
        apply elem_of_app in Hin as [Hin|Hin%list_elem_of_singleton];
          [|congruence].
        destruct (IHin l n Hin) as (l' & n' & Hin' & Hrec).
        exists l', n'. split; [|done]. apply elem_of_app. by left.
Qed.

Lemma elem_of_block_entries (o : list (list OpHash)) l n h :
  (l, n, h) ∈ block_entries o ↔
  ∃ l' n' lst, l = Z.of_nat l' ∧ n = Z.of_nat n' ∧
               o !! l' = Some lst ∧ lst !! n' = Some h.
Proof.
  unfold block_entries. rewrite list_elem_of_In, in_concat. split.
  - intros (row & Hrow%list_elem_of_In & Hin%list_elem_of_In).
    apply elem_of_lookup_imap in Hrow as (l' & lst & -> & Hl).
    apply elem_of_lookup_imap in Hin as (n' & h' & [= -> -> ->] & Hn).
    eauto 10.
  - intros (l' & n' & lst & -> & -> & Hl & Hn).
    exists (imap (λ (n0 : nat) h0, (Z.of_nat l', Z.of_nat n0, h0)) lst).
    split; apply list_elem_of_In.
    + exact (elem_of_lookup_imap_2
               (λ (l0 : nat) lst0,
                  imap (λ (n0 : nat) h0, (Z.of_nat l0, Z.of_nat n0, h0)) lst0)
               o lst l' Hl).
    + exact (elem_of_lookup_imap_2
               (λ (n0 : nat) h0, (Z.of_nat l', Z.of_nat n0, h0)) lst h n' Hn).
Qed.

(** X6. Late subscription after a block.  Right after the fan-out of block
    [hb] at height [hh], [Subscribe] to a hash the block contains logs
    exactly one callback, on [(hb, hh, l, n, false)] where the block holds
    the hash at position [n] of batch [l]; and [Subscribe] to a hash that is
    not in the block, and was not in the cache before the fan-out, logs
    nothing. *)
Theorem late_subscribe_reports_block hb hh (o : list (list OpHash)) μ h f :
  let μ' := dispatch_pass hb hh o μ in
  ((∃ lst, lst ∈ o ∧ h ∈ lst) →
     ∃ l n lst, o !! l = Some lst ∧ lst !! n = Some h ∧
       log (Subscribe h f μ').2
       = log μ' ++ [OCall (int_incr (seq (obs μ'))) hb hh
                          (Z.of_nat l) (Z.of_nat n) false
                          (f hb hh (Z.of_nat l) (Z.of_nat n) false (world μ')).1]) ∧
  (recent (obs μ) !! h = None → (∀ lst, lst ∈ o → h ∉ lst) →
     log (Subscribe h f μ').2 = log μ').
Proof.
  intros μ'.
  destruct (dispatch_fold_recent hb hh (block_entries o) μ h) as [Hout Hin].
  split.
  - intros (lst & Hlst & Hh).
    apply list_elem_of_lookup in Hlst as (l0 & Hl0).
    apply list_elem_of_lookup in Hh as (n0 & Hn0).
    destruct (Hin (Z.of_nat l0) (Z.of_nat n0)) as (l1 & n1 & Hentry & Hrec).
    { apply elem_of_block_entries. eauto 10. }
    apply elem_of_block_entries in Hentry as (l' & n' & lst' & -> & -> & Hl' & Hn').
    exists l', n', lst'. split; [done|]. split; [done|].
    assert (recent (obs μ') !! h = Some (hh, Z.of_nat l', Z.of_nat n')) as Hrec'
      by exact Hrec.
    assert (bestHash (obs μ') = hb) as Hbest by done.
    clearbody μ'. rewrite (Subscribe_cached h f μ' _ _ _ Hrec'). simpl.
    rewrite Hbest.
    by destruct (f hb hh (Z.of_nat l') (Z.of_nat n') false (world μ')).1.
  - intros Hnone Hnot.
    assert (recent (obs μ') !! h = None) as Hrec'.
    { unfold μ', dispatch_pass. simpl. rewrite Hout; [done|].
      intros l n (l' & n' & lst & -> & -> & Hl & Hn)%elem_of_block_entries.
      apply (Hnot lst); apply list_elem_of_lookup; eauto. }
    clearbody μ'. by rewrite (Subscribe_uncached h f μ' Hrec').
Qed.

(** *** One watcher per hash *)

Lemma int_incr_range x : int_min ≤ int_incr x ≤ int_max.
Proof.
  unfold int_incr, int_wrap, int_min, int_max.
  pose proof (Z.mod_pos_bound (x + 1 + 2 ^ 63) (2 ^ 64)). lia.
Qed.

Lemma int_incr_moves x : int_min ≤ x ≤ int_max → int_incr x ≠ x.
Proof.
  unfold int_incr, int_wrap, int_min, int_max. intros Hx Heq.
  destruct (decide (x = 2 ^ 63 - 1)) as [->|Hne].
  - replace (2 ^ 63 - 1 + 1 + 2 ^ 63) with (2 ^ 64) in Heq by lia.
    rewrite Z.mod_same in Heq by lia. lia.
  - rewrite Z.mod_small in Heq by lia. lia.
Qed.

(** X7. One watcher per hash.  Subscribe twice to the same hash [h], which
    is not in the cache.  Both watchers are stored, under different ids, but
    the index points to the second only: when a block brings [h], the fan-out
    calls the second watcher and not the first.  And after [Unsubscribe] of
    the first, the second is still stored while the index entry of [h] is
    gone: a block that brings [h] calls nobody. *)
Theorem second_subscription_takes_the_hash hb hh l n μ h f1 f2 :
  recent (obs μ) !! h = None →
  let i1 := (Subscribe h f1 μ).1 in
  let μ1 := (Subscribe h f1 μ).2 in
  let i2 := (Subscribe h f2 μ1).1 in
  let μ2 := (Subscribe h f2 μ1).2 in
  let μ3 := Unsubscribe i1 μ2 in
  i1 ≠ i2 ∧
  subs (obs μ2) !! i1 = Some (mkSub i1 f1 h false) ∧
  subs (obs μ2) !! i2 = Some (mkSub i2 f2 h false) ∧
  log (dispatch_one hb hh μ2 (l, n, h))
  = log μ2 ++ [OCall i2 hb hh l n false (f2 hb hh l n false (world μ2)).1] ∧
  subs (obs μ3) !! i2 = Some (mkSub i2 f2 h false) ∧
  watched (obs μ3) !! h = None ∧
  log (dispatch_one hb hh μ3 (l, n, h)) = log μ3.
Proof.
  intros Hrec. cbv zeta.
  assert (recent (obs (stored h f1 μ)) !! h = None) as Hrec1 by exact Hrec.
  rewrite (Subscribe_uncached h f1 μ Hrec). cbn [fst snd].
  rewrite (Subscribe_uncached h f2 _ Hrec1). cbn [fst snd].
  assert (seq (obs (stored h f1 μ)) = int_incr (seq (obs μ))) as -> by done.
  set (i1 := int_incr (seq (obs μ))). set (i2 := int_incr i1).
  assert (i1 ≠ i2) as Hne.
  { unfold i2. intros Heq. symmetry in Heq. revert Heq.
    apply int_incr_moves, int_incr_range. }
  set (μ2 := stored h f2 (stored h f1 μ)).
  assert (subs (obs μ2) !! i1 = Some (mkSub i1 f1 h false)) as Hs1.
  { unfold μ2, stored. simpl. fold i1. fold i2.
    rewrite lookup_insert_ne by done. by rewrite lookup_insert_eq. }
  assert (subs (obs μ2) !! i2 = Some (mkSub i2 f2 h false)) as Hs2.
  { unfold μ2, stored. simpl. fold i1. fold i2. by rewrite lookup_insert_eq. }
  assert (watched (obs μ2) !! h = Some i2) as Hw.
  { unfold μ2, stored. simpl. fold i1. fold i2. by rewrite lookup_insert_eq. }
  clearbody μ2.
  split; [done|]. split; [done|]. split; [done|]. split.
  { unfold dispatch_one. rewrite Hw, Hs2. simpl.
    rewrite decide_True by done. rewrite invoke_unfold. simpl.
    by destruct (f2 hb hh l n false _).1. }
  unfold Unsubscribe. rewrite Hs1. simpl.
  split; [by rewrite lookup_delete_ne|].
  split; [by rewrite lookup_delete_eq|].
  unfold dispatch_one. simpl. by rewrite lookup_delete_eq.
Qed.

(** X8. Subscribe, then unsubscribe.  Let the new id be unused and the hash
    not yet watched.  If [Subscribe] ran no callback, or the callback returned
    false, then [Unsubscribe] of the returned id puts [subs] and [watched]
    back as they were.  If the callback asked for removal, the watcher is
    already gone, [Unsubscribe] changes nothing, and the index entry of the
    hash stays behind. *)
Theorem Subscribe_then_Unsubscribe h f μ :
  subs (obs μ) !! int_incr (seq (obs μ)) = None →
  watched (obs μ) !! h = None →
  let i := (Subscribe h f μ).1 in
  let μ1 := (Subscribe h f μ).2 in
  let μ2 := Unsubscribe i μ1 in
  match subs (obs μ1) !! i with
  | Some _ => subs (obs μ2) = subs (obs μ) ∧ watched (obs μ2) = watched (obs μ)
  | None => μ2 = μ1 ∧ watched (obs μ1) !! h = Some i
  end.
Proof.
  intros Hfresh Hunwatched.
  assert (∀ x, delete (int_incr (seq (obs μ)))
                 (<[int_incr (seq (obs μ)) := x]> (subs (obs μ))) = subs (obs μ))
    as Hsubs by (intros x; by rewrite delete_insert_id).
  assert (delete h (<[h := int_incr (seq (obs μ))]> (watched (obs μ)))
          = watched (obs μ)) as Hwatched by (by rewrite delete_insert_id).
  destruct (recent (obs μ) !! h) as [[[height batch] pos]|] eqn:Hrec.
  - rewrite (Subscribe_cached h f μ height batch pos Hrec). simpl.
    destruct (f (bestHash (obs μ)) height batch pos false (world μ)) as [[] w'];
      simpl.
    + rewrite lookup_delete_eq. unfold Unsubscribe. simpl.
      rewrite lookup_delete_eq. split; [done|]. by rewrite lookup_insert_eq.
    + rewrite lookup_insert_eq. unfold Unsubscribe. simpl.
      rewrite lookup_insert_eq. simpl. by rewrite Hsubs, Hwatched.
  - rewrite (Subscribe_uncached h f μ Hrec). simpl.
    rewrite lookup_insert_eq. unfold Unsubscribe. simpl.
    rewrite lookup_insert_eq. simpl. by rewrite Hsubs, Hwatched.
Qed.

(** *** Starting the loop *)

(** X9. The first start wins.  [Listen] and [ListenMempool] share one
    [sync.Once]: after [ListenMempool] on a fresh observer the block loop is
    never started, whatever is called later, [Listen] included, so no engine
    step can follow; and once either of them has run, calling either again
    changes nothing. *)
Theorem first_start_wins zero d (w0 : World) params evs s' :
  run zero (EListenMempool params :: evs) (init zero d w0) = Some s' →
  pc (eng s') = PcIdle ∧
  Forall (λ ev, is_engine ev = false) evs ∧
  ∀ p, step zero (EListen p) s' = Some s' ∧
       step zero (EListenMempool p) s' = Some s'.
Proof.
  simpl. set (s0 := start params false zero (init zero d w0)).
  assert (pc (eng s0) = PcIdle ∧ listening (obs (mem s0)) = true) as Hs0 by done.
  clearbody s0. revert s0 Hs0.
  induction evs as [|ev evs IH]; intros s0 [Hpc Hl] Hrun; simpl in Hrun.
  - simplify_eq. split; [done|]. split; [done|].
    intros p. simpl. unfold start. by rewrite Hl.
  - destruct (step zero ev s0) as [s1|] eqn:Hstep; [|done].
    destruct (is_engine ev) eqn:Hev.
    { destruct ev; try done. simpl in Hstep. unfold engine_step in Hstep.
      by rewrite Hpc in Hstep. }
    destruct (step_caller_eng zero ev s0 s1 Hev Hl Hstep) as [Heng Hl1].
    destruct (IH s1) as (Hidle & Hall & Hagain); [by rewrite Heng|done|].
    split; [done|]. split; [by constructor|done].
Qed.

(** *** Leaving the loop *)

(** A bound on the engine steps still to come once the context is
    cancelled. *)
Definition fuel s : nat :=
  let n := size (recent (obs (mem s))) in
  match pc (eng s) with
  | PcConnect => 8 + n
  | PcHead => 7 + n
  | PcDepth => 6 + n
  | PcFetch => 5 + n
  | PcClear => 4 + n
  | PcDispatch => 3
  | PcIdle | PcTop | PcBackoff | PcSkipWait | PcPollWait => 1
  | PcExit => 0
  end.

(** The number of engine steps among the events. *)
Fixpoint engine_events evs : nat :=
  match evs with
  | [] => 0
  | ev :: evs' => (if is_engine ev then 1 else 0) + engine_events evs'
  end.

Lemma depth_pass_recent hb ks μ :
  recent (obs (depth_pass hb ks μ)) = recent (obs μ).
Proof.
  destruct (depth_pass_depth_rel hb ks μ) as (Ho & _).
  apply (f_equal recent) in Ho. by simpl in Ho.
Qed.

Lemma engine_step_fuel r s s' :
  cancelled (obs (mem s)) = true → engine_step r s = Some s' →
  (fuel s' < fuel s)%nat.
Proof.
  intros Hc. unfold engine_step, wait_or_return, after_head, rpc, goto, fuel.
  rewrite Hc. intros Hstep. branches Hstep; simpl in *; try congruence;
    rewrite ?depth_pass_recent; try lia.
  rewrite map_size_delete_Some by done.
  destruct (size (recent (obs (mem s)))) eqn:Hsize; [|simpl; lia].
  apply map_size_empty_iff in Hsize. congruence.
Qed.

Lemma caller_step_fuel zero ev s s' :
  is_engine ev = false → started s → step zero ev s = Some s' →
  (fuel s' ≤ fuel s)%nat.
Proof.
  intros Hev Hst Hstep. unfold fuel.
  destruct ev; simpl in *; simplify_eq; simpl.
  - destruct (recent (obs (mem s)) !! h) as [[[height batch] pos]|] eqn:Hrec.
    + rewrite (Subscribe_cached h f _ height batch pos Hrec). simpl.
      destruct (f _ _ _ _ _ _).1; simpl; reflexivity.
    + rewrite (Subscribe_uncached h f _ Hrec). simpl. reflexivity.
  - unfold Unsubscribe. destruct (subs (obs (mem s)) !! i); simpl; reflexivity.
  - rewrite map_size_empty. destruct (pc (eng s)); lia.
  - reflexivity.
  - unfold start. destruct (listening (obs (mem s))) eqn:Hl; [reflexivity|].
    destruct Hst as [Hidle|]; [|congruence].
    destruct params; simpl; rewrite ?Hidle; lia.
  - unfold start. destruct (listening (obs (mem s))) eqn:Hl; [reflexivity|].
    destruct Hst as [Hidle|]; [|congruence].
    destruct params; simpl; rewrite ?Hidle; lia.
Qed.

Lemma run_fuel zero evs : ∀ s s',
  started s → cancelled (obs (mem s)) = true → run zero evs s = Some s' →
  (engine_events evs + fuel s' ≤ fuel s)%nat.
Proof.
  induction evs as [|ev evs IH]; intros s s' Hst Hc Hrun; simpl in Hrun.
  - simplify_eq. simpl. lia.
  - destruct (step zero ev s) as [s1|] eqn:Hstep; [|done].
    assert (started s1) as Hst1 by (by eapply step_started).
    assert (cancelled (obs (mem s1)) = true) as Hc1 by (by eapply step_cancelled).
    specialize (IH s1 s' Hst1 Hc1 Hrun). simpl.
    destruct (is_engine ev) eqn:Hev.
    + destruct ev; try done. simpl in Hstep.
      pose proof (engine_step_fuel _ _ _ Hc Hstep). lia.
    + pose proof (caller_step_fuel zero ev s s1 Hev Hst Hstep). lia.
Qed.

(** X10. The loop leaves after cancellation.  In a reachable state whose
    context is cancelled, whatever events follow, no more than
    [8 + size recent] of them are engine steps: the loop finishes the cycle
    it is in, at most, and returns; and if the engine stood at the top of
    the loop or in a wait, at most one. *)
Theorem cancelled_loop_exits zero d (w0 : World) evs0 s evs s' :
  run zero evs0 (init zero d w0) = Some s →
  cancelled (obs (mem s)) = true →
  run zero evs s = Some s' →
  (engine_events evs ≤ 8 + size (recent (obs (mem s))))%nat ∧
  (pc (eng s) ∈ [PcTop; PcBackoff; PcSkipWait; PcPollWait] →
   (engine_events evs ≤ 1)%nat).
Proof.
  intros Hrun0 Hc Hrun.
  assert (started s) as Hst by (eapply run_started; [|done]; by left).
  pose proof (run_fuel zero evs s s' Hst Hc Hrun) as Hfuel.
  split.
  - unfold fuel in Hfuel at 2. destruct (pc (eng s)); lia.
  - intros Hpc. unfold fuel in Hfuel at 2.
    destruct (pc (eng s)); try lia; exfalso;
      repeat (apply elem_of_cons in Hpc as [?|Hpc]; [discriminate|]);
      by apply elem_of_nil in Hpc.
Qed.

(** *** An already processed head *)

(** A call that asks for the tip. *)
Definition tip_rpc (o : @Obs BlockHash) : Prop :=
  o = ORpc RpcGetTipHeader ∨ o = ORpc RpcGetBlockHash.

(** Where a poll cycle on the processed head can be, and what it has done:
    nothing but ask for the tip. *)
Definition skipping μ0 s : Prop :=
  useEvents (eng s) = false ∧ mon (eng s) = false ∧
  pc (eng s) ∈ [PcTop; PcConnect; PcHead; PcBackoff; PcSkipWait; PcExit] ∧
  obs (mem s) = obs μ0 ∧ world (mem s) = world μ0 ∧
  ∃ l, log (mem s) = log μ0 ++ l ∧ Forall tip_rpc l.

Lemma engine_step_skipping μ0 r s s' :
  skipping μ0 s →
  (∀ hash, r_hash r = Some hash → hash = bestHash (obs μ0)) →
  engine_step r s = Some s' → pc (eng s') ≠ PcTop →
  skipping μ0 s'.
Proof.
  intros (Hu & Hm & Hpc & Hobs & Hworld & l & Hl & Htip) Hhash.
  unfold engine_step, wait_or_return, after_head, rpc, goto, skipping.
  rewrite Hu, Hm. simpl.
  repeat (apply elem_of_cons in Hpc as [->|Hpc]);
    [..|by apply elem_of_nil in Hpc]; intros Hstep Htop.
  all: branches Hstep; simpl in *; try done.
  all: try match goal with
       | Hd : bool_decide (?b = _) && negb _ = false |- _ =>
           exfalso; rewrite Hu, Hobs in Hd;
           first [ pose proof (Hhash _ eq_refl) as Hb
                 | match goal with
                   | Hh : r_hash _ = Some b |- _ => pose proof (Hhash _ Hh) as Hb
                   end ];
           rewrite bool_decide_eq_true_2 in Hd by exact Hb; discriminate Hd
       end.
  all: split; [done|]; split; [done|]; split; [set_solver|];
       split; [done|]; split; [done|].
  all: rewrite Hl, <- ?app_assoc; eexists; (split; [reflexivity|]).
  all: first [ done
             | apply Forall_app; split; [done|];
               repeat (apply Forall_cons; split; [first [by left|by right]|]);
               apply Forall_nil ].
  all: done.
Qed.

(** X11. A processed head is skipped in poll mode.  In poll mode, a cycle
    in which every block hash the node returns for the tip is [bestHash] runs
    no callback and fetches no operations: the observer and the program state
    stay as they were, the log grows by tip requests only, and the loop
    reaches neither the depth pass nor the fetch of the operations. *)
Theorem poll_skips_processed_head rs s0 s :
  pc (eng s0) = PcTop →
  useEvents (eng s0) = false →
  mon (eng s0) = false →
  Forall (λ r, ∀ hash, r_hash r = Some hash → hash = bestHash (obs (mem s0))) rs →
  cycle_steps rs s0 = Some s →
  obs (mem s) = obs (mem s0) ∧ world (mem s) = world (mem s0) ∧
  pc (eng s) ∈ [PcTop; PcConnect; PcHead; PcBackoff; PcSkipWait; PcExit] ∧
  ∃ l, log (mem s) = log (mem s0) ++ l ∧ Forall tip_rpc l.
Proof.
  intros Hpc Hu Hm Hrs Hrun.
  assert (skipping (mem s0) s0) as Hskip.
  { repeat split; try done; [rewrite Hpc; set_solver|].
    exists []. by rewrite app_nil_r. }
  assert (skipping (mem s0) s) as (_ & _ & Hpc' & Hobs & Hworld & Hlog).
  { revert Hrs Hrun Hskip. generalize (mem s0). generalize s0 at 1 2.
    induction rs as [|r rs IH]; intros s1 μ0 Hrs Hrun Hskip; simpl in Hrun.
    - by simplify_eq.
    - apply Forall_cons in Hrs as [Hr Hrs].
      destruct (engine_step r s1) as [s2|] eqn:Hstep; [|done].
      destruct (decide (pc (eng s2) = PcTop)); [done|].
      eapply (IH s2); [done|done|]. by eapply engine_step_skipping. }
  done.
Qed.

End ObserverCoverage.

(** ** The further properties at concrete executions *)

Module CoverageWitness.
Import Scenario.

(** Watcher 1 of [opA] was removed at its callback's request when block
    [h100] brought [opA]; block [h101] brings [opA] again. *)
Definition opA_again : list (@Event Hash Hash nat) :=
  poll_wait ++ poll_block 101 "h101" [["opA"]] [] ["opA"].

Lemma removed_watcher_never_called_witness :
  let evs0 := Witness.removed_at_match in
  let s := after evs0 in
  let s' := default fresh (run zero opA_again s) in
  run zero evs0 (init zero 30 0%nat) = Some s ∧
  run zero opA_again s = Some s' ∧
  subscriptions (evs0 ++ opA_again) ≤ int_max ∧
  ∃ l, log (mem s') = log (mem s) ++ l ∧
    ∀ i, called i l →
         is_Some (subs (obs (mem s)) !! i) ∨ seq (obs (mem s)) < i.
Proof.
  intros evs0 s s'.
  assert (run zero evs0 (init zero 30 0%nat) = Some s) as H1
    by (vm_compute; reflexivity).
  assert (run zero opA_again s = Some s') as H2 by (vm_compute; reflexivity).
  assert (subscriptions (evs0 ++ opA_again) ≤ int_max) as H3
    by (vm_compute; intros Hgt; discriminate Hgt).
  do 3 (split; [assumption|]).
  exact (removed_watcher_never_called zero 30 0%nat evs0 s opA_again s' H1 H2 H3).
Defined.

(** Watcher 1 of [opA] has been matched by block [h100]; the engine is in
    the wait that ends the cycle. *)
Definition watching : list (@Event Hash Hash nat) :=
  [ESubscribe "opA" keep] ++ start_polling ++ poll_block 100 "h100" [["opA"]] [1] [].

Lemma Close_ends_delivery_witness :
  let s := after watching in
  let s' := default fresh (run zero (EClose :: poll_wait) s) in
  run zero watching (init zero 30 0%nat) = Some s ∧
  run zero (EClose :: poll_wait) s = Some s' ∧
  subscriptions (watching ++ poll_wait) ≤ int_max ∧
  cancelled (obs (mem s')) = true ∧
  ∃ l, log (mem s') = log (mem s) ++ l ∧
    ∀ i, called i l → seq (obs (mem s)) < i.
Proof.
  intros s s'.
  assert (run zero watching (init zero 30 0%nat) = Some s) as H1
    by (vm_compute; reflexivity).
  assert (run zero (EClose :: poll_wait) s = Some s') as H2
    by (vm_compute; reflexivity).
  assert (subscriptions (watching ++ poll_wait) ≤ int_max) as H3
    by (vm_compute; intros Hgt; discriminate Hgt).
  do 3 (split; [assumption|]).
  exact (Close_ends_delivery zero 30 0%nat watching s poll_wait s' H1 H2 H3).
Defined.

Lemma Subscribe_id_fresh_witness :
  let s := after watching in
  run zero watching (init zero 30 0%nat) = Some s ∧
  subscriptions watching < int_max ∧
  (Subscribe "opB" keep (mem s)).1 = subscriptions watching + 1 ∧
  subs (obs (mem s)) !! (Subscribe "opB" keep (mem s)).1 = None ∧
  ∀ h', watched (obs (mem s)) !! h' ≠ Some (Subscribe "opB" keep (mem s)).1.
Proof.
  intros s.
  assert (run zero watching (init zero 30 0%nat) = Some s) as H1
    by (vm_compute; reflexivity).
  assert (subscriptions watching < int_max) as H2 by (vm_compute; reflexivity).
  do 2 (split; [assumption|]).
  exact (Subscribe_id_fresh zero 30 0%nat watching s "opB" keep H1 H2).
Defined.

(** Watcher 1 of [opA] has been matched by block [h100], watcher 2 of [opB]
    has not; the engine has the head [h101] and is about to run the depth
    pass. *)
Definition before_depth : list (@Event Hash Hash nat) :=
  [ESubscribe "opA" keep; ESubscribe "opB" keep] ++ start_polling
  ++ poll_block 100 "h100" [["opA"]] [1; 2] [] ++ poll_wait
  ++ [EEngine silent; EEngine silent; EEngine (tip 101 "h101")].

Lemma reached_ids_are_keys evs :
  subscriptions evs ≤ int_max →
  run zero evs (init zero 30 0%nat) = Some (after evs) →
  ids_are_keys (mem (after evs)).
Proof.
  intros Hmax Hrun. exact (inv_id _ _ (reached_inv zero 30 0%nat evs _ Hmax Hrun)).
Qed.

Lemma depth_pass_reports_once_witness :
  let s := after before_depth in
  let s' := default fresh (engine_step (ranging [2; 1]) s) in
  pc (eng s) = PcDepth ∧
  ids_are_keys (mem s) ∧
  engine_step (ranging [2; 1]) s = Some s' ∧
  ∃ ids rets,
    log (mem s') = log (mem s) ++ zip_with (depth_call (headBlock (eng s))) ids rets ∧
    length rets = length ids ∧
    NoDup ids ∧
    ∀ k, k ∈ ids ↔ ∃ v, subs (obs (mem s)) !! k = Some v ∧ matched v = true.
Proof.
  intros s s'.
  assert (pc (eng s) = PcDepth) as H1 by (vm_compute; reflexivity).
  assert (ids_are_keys (mem s)) as H2.
  { apply reached_ids_are_keys.
    - vm_compute. intros Hgt. discriminate Hgt.
    - vm_compute. reflexivity. }
  assert (engine_step (ranging [2; 1]) s = Some s') as H3
    by (vm_compute; reflexivity).
  do 3 (split; [assumption|]).
  exact (depth_pass_reports_once (ranging [2; 1]) s s' H1 H2 H3).
Defined.

Lemma first_match_then_depth_witness :
  let μ := mem (after [ESubscribe "opA" keep]) in
  let μ' := dispatch_one "h100" 100 μ (0, 3, "opA") in
  watched (obs μ) !! "opA" = Some 1 ∧
  subs (obs μ) !! 1 = Some (mkSub 1 keep "opA" false) ∧
  oh (mkSub 1 keep "opA" false) = "opA" ∧
  (cb (mkSub 1 keep "opA" false) "h100" 100 0 3 false (world μ)).1 = false ∧
  is_matched μ' 1 = true ∧
  ∃ ret, log (depth_one "h101" μ' 1) = log μ' ++ [depth_call "h101" 1 ret].
Proof.
  intros μ μ'.
  assert (watched (obs μ) !! "opA" = Some 1) as H1 by (vm_compute; reflexivity).
  assert (subs (obs μ) !! 1 = Some (mkSub 1 keep "opA" false)) as H2
    by (vm_compute; reflexivity).
  assert (oh (mkSub 1 keep "opA" false) = "opA") as H3 by reflexivity.
  assert ((cb (mkSub 1 keep "opA" false) "h100" 100 0 3 false (world μ)).1 = false)
    as H4 by reflexivity.
  do 4 (split; [assumption|]).
  exact (first_match_then_depth "h100" 100 "h101" μ 0 3 "opA" 1 _ H1 H2 H3 H4).
Defined.

Lemma second_subscription_takes_the_hash_witness :
  let μ := mem fresh in
  let μ1 := (Subscribe "opA" keep μ).2 in
  let μ2 := (Subscribe "opA" drop μ1).2 in
  let μ3 := Unsubscribe 1 μ2 in
  recent (obs μ) !! "opA" = None ∧
  log (dispatch_one "h100" 100 μ2 (0, 0, "opA"))
  = log μ2 ++ [OCall 2 "h100" 100 0 0 false true] ∧
  subs (obs μ3) !! 2 = Some (mkSub 2 drop "opA" false) ∧
  watched (obs μ3) !! "opA" = None ∧
  log (dispatch_one "h100" 100 μ3 (0, 0, "opA")) = log μ3.
Proof.
  intros μ μ1 μ2 μ3.
  assert (recent (obs μ) !! "opA" = None) as H1 by reflexivity.
  split; [exact H1|].
  pose proof (second_subscription_takes_the_hash "h100" 100 0 0 μ "opA" keep drop H1)
    as (_ & _ & _ & Hcall & Hstored & Hindex & Hquiet).
  split; [exact Hcall|]. split; [exact Hstored|]. split; [exact Hindex|exact Hquiet].
Defined.

Lemma Subscribe_then_Unsubscribe_witness :
  let μ := mem fresh in
  subs (obs μ) !! int_incr (seq (obs μ)) = None ∧
  watched (obs μ) !! "opA" = None ∧
  subs (obs (Unsubscribe 1 (Subscribe "opA" keep μ).2)) = subs (obs μ) ∧
  watched (obs (Unsubscribe 1 (Subscribe "opA" keep μ).2)) = watched (obs μ).
Proof.
  intros μ.
  assert (subs (obs μ) !! int_incr (seq (obs μ)) = None) as H1 by reflexivity.
  assert (watched (obs μ) !! "opA" = None) as H2 by reflexivity.
  do 2 (split; [assumption|]).
  exact (Subscribe_then_Unsubscribe "opA" keep μ H1 H2).
Defined.

Lemma first_start_wins_witness :
  let evs := [EListen None; ESubscribe "opA" keep] in
  let s' := default fresh (run zero (EListenMempool None :: evs) fresh) in
  run zero (EListenMempool None :: evs) (init zero 30 0%nat) = Some s' ∧
  pc (eng s') = PcIdle ∧
  Forall (λ ev, is_engine ev = false) evs ∧
  ∀ p, step zero (EListen p) s' = Some s' ∧
       step zero (EListenMempool p) s' = Some s'.
Proof.
  intros evs s'.
  assert (run zero (EListenMempool None :: evs) (init zero 30 0%nat) = Some s')
    as H1 by (vm_compute; reflexivity).
  split; [exact H1|].
  exact (first_start_wins zero 30 0%nat None evs s' H1).
Defined.

Lemma cancelled_loop_exits_witness :
  let evs0 := watching ++ [EClose] in
  let s := after evs0 in
  let s' := default fresh (run zero poll_wait s) in
  run zero evs0 (init zero 30 0%nat) = Some s ∧
  cancelled (obs (mem s)) = true ∧
  run zero poll_wait s = Some s' ∧
  (engine_events poll_wait ≤ 8 + size (recent (obs (mem s))))%nat ∧
  (pc (eng s) ∈ [PcTop; PcBackoff; PcSkipWait; PcPollWait] →
   (engine_events poll_wait ≤ 1)%nat).
Proof.
  intros evs0 s s'.
  assert (run zero evs0 (init zero 30 0%nat) = Some s) as H1
    by (vm_compute; reflexivity).
  assert (cancelled (obs (mem s)) = true) as H2 by (vm_compute; reflexivity).
  assert (run zero poll_wait s = Some s') as H3 by (vm_compute; reflexivity).
  do 3 (split; [assumption|]).
  exact (cancelled_loop_exits zero 30 0%nat evs0 s poll_wait s' H1 H2 H3).
Defined.

(** The node still reports block [h100] as its tip. *)
Definition same_tip : list (@Reply Hash Hash) := [silent; silent; tip 100 "h100"].

Lemma poll_skips_processed_head_witness :
  let s0 := after Witness.matched_once in
  let s := default fresh (cycle_steps same_tip s0) in
  pc (eng s0) = PcTop ∧
  useEvents (eng s0) = false ∧
  mon (eng s0) = false ∧
  Forall (λ r, ∀ hash, r_hash r = Some hash → hash = bestHash (obs (mem s0)))
         same_tip ∧
  cycle_steps same_tip s0 = Some s ∧
  obs (mem s) = obs (mem s0) ∧ world (mem s) = world (mem s0) ∧
  pc (eng s) ∈ [PcTop; PcConnect; PcHead; PcBackoff; PcSkipWait; PcExit] ∧
  ∃ l, log (mem s) = log (mem s0) ++ l ∧ Forall tip_rpc l.
Proof.
  intros s0 s.
  assert (pc (eng s0) = PcTop) as H1 by (vm_compute; reflexivity).
  assert (useEvents (eng s0) = false) as H2 by (vm_compute; reflexivity).
  assert (mon (eng s0) = false) as H3 by (vm_compute; reflexivity).
  assert (Forall (λ r, ∀ hash, r_hash r = Some hash
                       → hash = bestHash (obs (mem s0))) same_tip) as H4.
  { apply Forall_cons; split; [intros hash Hh; discriminate Hh|].
    apply Forall_cons; split; [intros hash Hh; discriminate Hh|].
    apply Forall_cons; split; [|apply Forall_nil].
    - intros hash Hh. injection Hh as <-. vm_compute. reflexivity.
    - exact I. }
  assert (cycle_steps same_tip s0 = Some s) as H5 by (vm_compute; reflexivity).
  do 5 (split; [assumption|]).
  exact (poll_skips_processed_head same_tip s0 s H1 H2 H3 H4 H5).
Defined.

End CoverageWitness.

(** * Further properties of the configuration glue *)

Module ComposeCoverage.
Import Compose.

Lemma getFlagValue_scan args flag : getFlagValue args flag = ComposeFacts.scan args flag.
Proof. unfold getFlagValue. apply (ComposeFacts.getFlagValue_from_scan flag args []). Qed.

Lemma IsFlagSpecified_spec args flag :
  IsFlagSpecified args flag = true ↔ "-" +:+ flag ∈ args.
Proof.
  unfold IsFlagSpecified. induction args as [|arg args IH]; simpl.
  - split; [done|]. intros Hin. by apply elem_of_nil in Hin.
  - rewrite orb_true_iff, IH, ComposeFacts.is_flag_spec, elem_of_cons.
    split; intros [?|?]; eauto.
Qed.

Lemma IsFlagSpecified_false args flag :
  IsFlagSpecified args flag = false ↔ "-" +:+ flag ∉ args.
Proof.
  rewrite <- IsFlagSpecified_spec. by destruct (IsFlagSpecified args flag).
Qed.

Lemma getFlagValue_absent args flag :
  IsFlagSpecified args flag = false → getFlagValue args flag = Return "".
Proof.
  intros Hno%IsFlagSpecified_false. rewrite getFlagValue_scan.
  apply ComposeFacts.scan_return. by left.
Qed.

(** X12. The two flag functions agree.  [IsFlagSpecified] holds exactly
    when some argument is a dash followed by the flag (one dash: an argument
    with two dashes is the flag whose name starts with a dash); and when it
    does not hold, [getFlagValue] returns the empty string and does not
    panic. *)
Theorem IsFlagSpecified_agrees args flag :
  (IsFlagSpecified args flag = true ↔ "-" +:+ flag ∈ args) ∧
  (IsFlagSpecified args flag = false → getFlagValue args flag = Return "") ∧
  (IsFlagSpecified args ("-" +:+ flag) = true ↔ "--" +:+ flag ∈ args).
Proof.
  split; [apply IsFlagSpecified_spec|].
  split; [apply getFlagValue_absent|apply IsFlagSpecified_spec].
Qed.

Section GlueCoverage.

Context {PrivateKey Address : Type} `{Countable Address}.
Variable unmarshalConfig : string → option TaqConfig.
Variable unmarshalEnv : string → option TaqConfigEnv.
Variable ParsePrivateKey : string → PrivateKey * option string.
Variable KeyAddress : PrivateKey → option Address.
Variable AddressString : Address → string.
Variable AddVariable :
  string → string → @Context PrivateKey Address _ _ → @Context PrivateKey Address _ _.
Variable NewContext : @Context PrivateKey Address _ _.

Local Abbreviation Ctx := (@Context PrivateKey Address _ _).
Local Abbreviation State := (@MapState PrivateKey Address _ _).
Local Abbreviation body :=
  (mapAccount ParsePrivateKey KeyAddress AddressString AddVariable).
Local Abbreviation loop :=
  (mapAccounts ParsePrivateKey KeyAddress AddressString AddVariable).
Local Abbreviation map_accounts :=
  (mapTaqEnvAccountToContextAccount ParsePrivateKey KeyAddress AddressString
     AddVariable).
Local Abbreviation update :=
  (UpdateTaqContext ParsePrivateKey KeyAddress AddressString AddVariable).
Local Abbreviation new_context :=
  (NewTaqContext unmarshalConfig unmarshalEnv ParsePrivateKey KeyAddress
     AddressString AddVariable NewContext).
Local Abbreviation no_address :=
  (ComposeFacts.no_address ParsePrivateKey KeyAddress).
Local Abbreviation chosen_default := ComposeFacts.chosen_default.

Definition together_error : string :=
  "E_TAQ_ERROR: taqconfig and taqconfigenv must be specified together".

Lemma NewTaqContext_flags_together_aux args ks0 ks :
  (IsFlagSpecified args "taqconfig" ≠ IsFlagSpecified args "taqconfigenv" →
   new_context args ks0 ks = ([], Return (Err together_error))) ∧
  (IsFlagSpecified args "taqconfig" = false →
   IsFlagSpecified args "taqconfigenv" = false →
   new_context args ks0 ks = ([], Return (Ok NewContext))).
Proof.
  unfold NewTaqContext. split.
  - intros Hne.
    by destruct (IsFlagSpecified args "taqconfig"),
                (IsFlagSpecified args "taqconfigenv").
  - intros H1 H2.
    by rewrite H1, H2, (getFlagValue_absent _ _ H1), (getFlagValue_absent _ _ H2).
Qed.

(** X13. The flags go together.  If exactly one of [-taqconfig] and
    [-taqconfigenv] is on the command line, [NewTaqContext] returns the
    error that they must be specified together, before it reads either
    value, so also when the one flag is the last argument; nothing is
    printed.  If neither is, it returns the context [NewContext] made. *)
Theorem NewTaqContext_flags_together args ks0 ks :
  (IsFlagSpecified args "taqconfig" ≠ IsFlagSpecified args "taqconfigenv" →
   new_context args ks0 ks = ([], Return (Err together_error))) ∧
  (IsFlagSpecified args "taqconfig" = false →
   IsFlagSpecified args "taqconfigenv" = false →
   new_context args ks0 ks = ([], Return (Ok NewContext))).
Proof. apply NewTaqContext_flags_together_aux. Qed.

Lemma getFlagValue_panic args flag :
  getFlagValue args flag = Panic ↔
  ∃ pre, args = pre ++ ["-" +:+ flag] ∧ "-" +:+ flag ∉ pre.
Proof. rewrite getFlagValue_scan. apply ComposeFacts.scan_panic. Qed.

Lemma getFlagValue_present args flag a :
  getFlagValue args flag = Return a → a ≠ "" →
  IsFlagSpecified args flag = true.
Proof.
  intros Ha Hne. destruct (IsFlagSpecified args flag) eqn:Hs; [done|].
  rewrite (getFlagValue_absent _ _ Hs) in Ha. congruence.
Qed.

(** What [NewTaqContext] does once both flags are known to be present and
    their values have been read. *)
Lemma NewTaqContext_both args ks0 ks a b :
  IsFlagSpecified args "taqconfig" = true →
  IsFlagSpecified args "taqconfigenv" = true →
  getFlagValue args "taqconfig" = Return a →
  getFlagValue args "taqconfigenv" = Return b →
  new_context args ks0 ks =
  match ParseTaqConfig unmarshalConfig unmarshalEnv a b with
  | Err e => ([], Return (Err e))
  | Ok configSet =>
      match update NewContext configSet ks0 ks with
      | (printed, Panic) => (printed, Panic)
      | (printed, Return (_, Some e)) => (printed, Return (Err e))
      | (printed, Return (ectx, None)) => (printed, Return (Ok ectx))
      end
  end.
Proof. intros H1 H2 Ha Hb. unfold NewTaqContext. by rewrite H1, H2, Ha, Hb. Qed.

(** The three ways [UpdateTaqContext] can end. *)
Lemma UpdateTaqContext_cases (ctx : Ctx) set ks0 ks :
  ((size (ConfigAccounts (Config set)) = 0%nat ∨
    size (Accounts (ConfigEnv set)) = 0%nat) ∧
   update ctx set ks0 ks
   = ([], Return (ctx, Some "E_TAQ_ERROR: No accounts configured"))) ∨
  (size (ConfigAccounts (Config set)) ≠ 0%nat ∧
   size (Accounts (ConfigEnv set)) ≠ 0%nat ∧
   ((∃ printed, update ctx set ks0 ks = (printed, Panic) ∧
       map_accounts ctx (Accounts (ConfigEnv set))
         (chosen_default (ConfigEnv set) ks0) ks = (printed, Panic) ∧
       ∃ name, name ∈ ks ∧ no_address (Accounts (ConfigEnv set)) name) ∨
    (∃ printed ctx', update ctx set ks0 ks = (printed, Return (ctx', None)) ∧
       map_accounts ctx (Accounts (ConfigEnv set))
         (chosen_default (ConfigEnv set) ks0) ks = (printed, Return ctx')))).
Proof.
  destruct (decide (size (ConfigAccounts (Config set)) = 0%nat)) as [Hz|Hs1].
  { left. split; [by left|]. apply ComposeFacts.UpdateTaqContext_empty. by left. }
  destruct (decide (size (Accounts (ConfigEnv set)) = 0%nat)) as [Hz|Hs2].
  { left. split; [by right|]. apply ComposeFacts.UpdateTaqContext_empty. by right. }
  right. split; [done|]. split; [done|].
  rewrite (ComposeFacts.UpdateTaqContext_nonempty _ _ _ _ ctx set ks0 ks Hs1 Hs2).
  pose proof (ComposeFacts.map_accounts_panic ParsePrivateKey KeyAddress
                AddressString AddVariable ctx (Accounts (ConfigEnv set))
                (chosen_default (ConfigEnv set) ks0) ks) as Hpanic.
  destruct (map_accounts ctx _ _ ks) as [printed [|ctx']]; cbn [snd] in Hpanic.
  - left. exists printed. split; [done|]. split; [done|]. by apply Hpanic.
  - right. by exists printed, ctx'.
Qed.

(** X14. When [NewTaqContext] panics.  It panics exactly when both flags
    are on the command line and the first occurrence of one of them is the
    last argument, or when both flag values are non-empty documents that
    decode, both account maps are non-empty, and the mapping loop visits an
    account for whose parsed key value [sk.Address()] panics.  It does not
    panic on a lone trailing flag, which is answered by the error of X13. *)
Theorem NewTaqContext_panics args ks0 ks :
  (NewTaqContext unmarshalConfig unmarshalEnv ParsePrivateKey KeyAddress
     AddressString AddVariable NewContext args ks0 ks).2 = Panic ↔
  (∃ pre, args = pre ++ ["-taqconfig"] ∧
          ("-taqconfig" ∉ pre) ∧ "-taqconfigenv" ∈ pre) ∨
  (∃ pre, args = pre ++ ["-taqconfigenv"] ∧
          ("-taqconfigenv" ∉ pre) ∧ "-taqconfig" ∈ pre) ∨
  (∃ a b config env,
     getFlagValue args "taqconfig" = Return a ∧
     getFlagValue args "taqconfigenv" = Return b ∧
     a ≠ "" ∧ b ≠ "" ∧
     unmarshalConfig a = Some config ∧ unmarshalEnv b = Some env ∧
     size (ConfigAccounts config) ≠ 0%nat ∧ size (Accounts env) ≠ 0%nat ∧
     ∃ name, name ∈ ks ∧ no_address (Accounts env) name).
Proof.
  pose proof (IsFlagSpecified_spec args "taqconfig") as Hc.
  pose proof (IsFlagSpecified_spec args "taqconfigenv") as He.
  change ("-" +:+ "taqconfig") with "-taqconfig" in Hc.
  change ("-" +:+ "taqconfigenv") with "-taqconfigenv" in He.
  pose proof (getFlagValue_panic args "taqconfig") as Hpc.
  pose proof (getFlagValue_panic args "taqconfigenv") as Hpe.
  change ("-" +:+ "taqconfig") with "-taqconfig" in Hpc.
  change ("-" +:+ "taqconfigenv") with "-taqconfigenv" in Hpe.
  assert (∀ (pre : list string) x y, x ≠ y → y ∈ pre ++ [x] → y ∈ pre) as Hpre.
  { intros pre x y Hne [?|Hin%list_elem_of_singleton]%elem_of_app; congruence. }
  split.
  - intros Hpanic.
    destruct (IsFlagSpecified args "taqconfig") eqn:H1,
             (IsFlagSpecified args "taqconfigenv") eqn:H2;
      try (by unfold NewTaqContext in Hpanic; rewrite H1, H2 in Hpanic).
    + destruct (getFlagValue args "taqconfig") as [|a] eqn:Ha.
      { left. destruct (proj1 Hpc eq_refl) as (pre & Hargs & Hnot).
        exists pre. split; [done|]. split; [done|].
        apply (Hpre pre "-taqconfig"); [done|]. rewrite <- Hargs. by apply He. }
      destruct (getFlagValue args "taqconfigenv") as [|b] eqn:Hb.
      { right. left. destruct (proj1 Hpe eq_refl) as (pre & Hargs & Hnot).
        exists pre. split; [done|]. split; [done|].
        apply (Hpre pre "-taqconfigenv"); [done|]. rewrite <- Hargs. by apply Hc. }
      rewrite (NewTaqContext_both args ks0 ks a b H1 H2 Ha Hb) in Hpanic.
      destruct (ParseTaqConfig _ _ a b) as [set|e] eqn:Hparse; [|done].
      apply ComposeFacts.ParseTaqConfig_Ok in Hparse
        as (Hna & Hnb & config & env & Hdc & Hde & ->).
      destruct (UpdateTaqContext_cases NewContext (mkTaqConfigSet config env) ks0 ks)
        as [[_ Hup]|(Hs1 & Hs2 & [(pr & Hup & _ & Hno)|(pr & c & Hup & _)])];
        rewrite Hup in Hpanic; try done.
      right. right. exists a, b, config, env. by repeat (split; [done|]).
    + rewrite (proj2 (NewTaqContext_flags_together_aux args ks0 ks) H1 H2) in Hpanic.
      done.
  - intros [(pre & Hargs & Hnot & Hin)|[(pre & Hargs & Hnot & Hin)|Hloop]].
    + assert (IsFlagSpecified args "taqconfig" = true) as H1.
      { apply Hc. rewrite Hargs. apply elem_of_app. right. by left. }
      assert (IsFlagSpecified args "taqconfigenv" = true) as H2.
      { apply He. rewrite Hargs. apply elem_of_app. by left. }
      assert (getFlagValue args "taqconfig" = Panic) as Ha by (apply Hpc; eauto).
      unfold NewTaqContext. by rewrite H1, H2, Ha.
    + assert (IsFlagSpecified args "taqconfig" = true) as H1.
      { apply Hc. rewrite Hargs. apply elem_of_app. by left. }
      assert (IsFlagSpecified args "taqconfigenv" = true) as H2.
      { apply He. rewrite Hargs. apply elem_of_app. right. by left. }
      assert (getFlagValue args "taqconfigenv" = Panic) as Hb by (apply Hpe; eauto).
      unfold NewTaqContext. rewrite H1, H2, Hb. simpl.
      by destruct (getFlagValue args "taqconfig").
    + destruct Hloop as (a & b & config & env & Ha & Hb & Hna & Hnb & Hdc & Hde
                         & Hs1 & Hs2 & Hno).
      pose proof (getFlagValue_present args "taqconfig" a Ha Hna) as H1.
      pose proof (getFlagValue_present args "taqconfigenv" b Hb Hnb) as H2.
      rewrite (NewTaqContext_both args ks0 ks a b H1 H2 Ha Hb).
      assert (ParseTaqConfig unmarshalConfig unmarshalEnv a b
              = Ok (mkTaqConfigSet config env)) as ->.
      { apply ComposeFacts.ParseTaqConfig_Ok. eauto 10. }
      destruct (UpdateTaqContext_cases NewContext (mkTaqConfigSet config env) ks0 ks)
        as [[[Hz|Hz] _]|(_ & _ & [(pr & Hup & _)|(pr & c & _ & Hmap)])];
        [done|done|by rewrite Hup|].
      assert ((map_accounts NewContext (Accounts env)
                 (chosen_default env ks0) ks).2 = Panic) as Hp.
      { by apply ComposeFacts.map_accounts_panic. }
      cbn [ConfigEnv] in Hmap. by rewrite Hmap in Hp.
Qed.

(** The messages [NewTaqContext] can return, in the order of the source. *)
Definition taq_errors : list string :=
  [ together_error;
    "E_TAQ_ERROR: Missing taqueria project configuration";
    "E_TAQ_ERROR: Missing taqueria local environment configuration";
    "E_TAQ_ERROR: Invalid taqueria project configuration";
    "E_TAQ_ERROR: Invalid taqueria local environment configuration";
    "E_TAQ_ERROR: No accounts configured" ].

Lemma ParseTaqConfig_Err a b e :
  ParseTaqConfig unmarshalConfig unmarshalEnv a b = Err e → e ∈ taq_errors.
Proof.
  unfold ParseTaqConfig, taq_errors.
  destruct (String.eqb a ""); [intros [= <-]; rewrite !elem_of_cons; auto 10|].
  destruct (String.eqb b ""); [intros [= <-]; rewrite !elem_of_cons; auto 10|].
  destruct (unmarshalConfig a); [|intros [= <-]; rewrite !elem_of_cons; auto 10].
  destruct (unmarshalEnv b); [done|intros [= <-]; rewrite !elem_of_cons; auto 10].
Qed.

Lemma UpdateTaqContext_Some (ctx : Ctx) set ks0 ks printed ctx' e :
  update ctx set ks0 ks = (printed, Return (ctx', Some e)) →
  e = "E_TAQ_ERROR: No accounts configured" ∧
  ctx' = ctx ∧ printed = [] ∧
  (size (ConfigAccounts (Config set)) = 0%nat ∨
   size (Accounts (ConfigEnv set)) = 0%nat).
Proof.
  intros Hup.
  destruct (UpdateTaqContext_cases ctx set ks0 ks)
    as [[Hz Heq]|(_ & _ & [(pr & Heq & _)|(pr & c & Heq & _)])];
    rewrite Heq in Hup; [|done|done].
  by injection Hup as <- <- <-.
Qed.

(** X15. The errors of [NewTaqContext].  An error it returns is one of six
    messages, each starting with [E_TAQ_ERROR: ]; the message of the branch
    [No default account specified] is not among them; and nothing has been
    printed when it returns an error: the loop that prints has not run. *)
Theorem NewTaqContext_errors args ks0 ks e printed :
  new_context args ks0 ks = (printed, Return (Err e)) →
  e ∈ taq_errors ∧ HasPrefix e "E_TAQ_ERROR: " = true ∧
  e ≠ "E_TAQ_ERROR: No default account specified" ∧ printed = [].
Proof.
  intros Hret.
  assert (e ∈ taq_errors ∧ printed = []) as [Hin ->].
  { destruct (IsFlagSpecified args "taqconfig") eqn:H1,
             (IsFlagSpecified args "taqconfigenv") eqn:H2.
    - destruct (getFlagValue args "taqconfig") as [|a] eqn:Ha.
      { unfold NewTaqContext in Hret. by rewrite H1, H2, Ha in Hret. }
      destruct (getFlagValue args "taqconfigenv") as [|b] eqn:Hb.
      { unfold NewTaqContext in Hret. by rewrite H1, H2, Ha, Hb in Hret. }
      rewrite (NewTaqContext_both args ks0 ks a b H1 H2 Ha Hb) in Hret.
      destruct (ParseTaqConfig _ _ a b) as [set|e'] eqn:Hparse.
      2:{ injection Hret as <- <-. split; [|done].
          by apply (ParseTaqConfig_Err a b). }
      pose proof (UpdateTaqContext_Some NewContext set ks0 ks) as Hsome.
      destruct (update NewContext set ks0 ks) as [pr [|[ctx' [e'|]]]]; [done| |done].
      injection Hret as <- <-.
      destruct (Hsome pr ctx' e' eq_refl) as (-> & _ & -> & _).
      split; [|done]. unfold taq_errors. rewrite !elem_of_cons. auto 10.
    - rewrite (proj1 (NewTaqContext_flags_together_aux args ks0 ks)) in Hret
        by (by rewrite H1, H2).
      injection Hret as <- <-. split; [|done].
      unfold taq_errors. rewrite !elem_of_cons. auto 10.
    - rewrite (proj1 (NewTaqContext_flags_together_aux args ks0 ks)) in Hret
        by (by rewrite H1, H2).
      injection Hret as <- <-. split; [|done].
      unfold taq_errors. rewrite !elem_of_cons. auto 10.
    - by rewrite (proj2 (NewTaqContext_flags_together_aux args ks0 ks) H1 H2)
        in Hret. }
  split; [done|].
  unfold taq_errors, together_error in Hin.
  repeat (apply elem_of_cons in Hin as [->|Hin]; [by split|]).
  by apply elem_of_nil in Hin.
Qed.

(** X16. When [NewTaqContext] returns a context.  Either neither flag was
    given, and the context is the one [NewContext] made, or both were, both
    values are non-empty documents that decode, both account maps are
    non-empty, and the context and the calls of [println] are those of
    [UpdateTaqContext] on the decoded pair, which returned no error. *)
Theorem NewTaqContext_success args ks0 ks ctx printed :
  new_context args ks0 ks = (printed, Return (Ok ctx)) →
  (IsFlagSpecified args "taqconfig" = false ∧
   IsFlagSpecified args "taqconfigenv" = false ∧
   ctx = NewContext ∧ printed = []) ∨
  (∃ a b config env,
     getFlagValue args "taqconfig" = Return a ∧
     getFlagValue args "taqconfigenv" = Return b ∧
     a ≠ "" ∧ b ≠ "" ∧
     unmarshalConfig a = Some config ∧ unmarshalEnv b = Some env ∧
     size (ConfigAccounts config) ≠ 0%nat ∧ size (Accounts env) ≠ 0%nat ∧
     update NewContext (mkTaqConfigSet config env) ks0 ks
     = (printed, Return (ctx, None))).
Proof.
  intros Hret.
  destruct (IsFlagSpecified args "taqconfig") eqn:H1,
           (IsFlagSpecified args "taqconfigenv") eqn:H2.
  - right.
    destruct (getFlagValue args "taqconfig") as [|a] eqn:Ha.
    { unfold NewTaqContext in Hret. by rewrite H1, H2, Ha in Hret. }
    destruct (getFlagValue args "taqconfigenv") as [|b] eqn:Hb.
    { unfold NewTaqContext in Hret. by rewrite H1, H2, Ha, Hb in Hret. }
    rewrite (NewTaqContext_both args ks0 ks a b H1 H2 Ha Hb) in Hret.
    destruct (ParseTaqConfig _ _ a b) as [set|e'] eqn:Hparse; [|done].
    apply ComposeFacts.ParseTaqConfig_Ok in Hparse
      as (Hna & Hnb & config & env & Hc & He & ->).
    destruct (UpdateTaqContext_cases NewContext (mkTaqConfigSet config env) ks0 ks)
      as [[_ Hup]|(Hs1 & Hs2 & [(pr & Hup & _)|(pr & c & Hup & _)])];
      rewrite Hup in Hret; [done|done|].
    injection Hret as <- <-.
    exists a, b, config, env. by repeat (split; [done|]).
  - by rewrite (proj1 (NewTaqContext_flags_together_aux args ks0 ks)) in Hret
      by (by rewrite H1, H2).
  - by rewrite (proj1 (NewTaqContext_flags_together_aux args ks0 ks)) in Hret
      by (by rewrite H1, H2).
  - left.
    rewrite (proj2 (NewTaqContext_flags_together_aux args ks0 ks) H1 H2) in Hret.
    by injection Hret as <- <-.
Qed.

(** X17. How [UpdateTaqContext] fails.  When it returns an error, the error
    is [No accounts configured], one of the two account maps is empty, the
    context is as it was and nothing was printed; in every other case, a
    panic included, both maps are non-empty.  The branch returning
    [No default account specified] is never taken: it needs an empty
    environment map, which has already been answered. *)
Theorem UpdateTaqContext_fails_clean (ctx : Ctx) set ks0 ks :
  match UpdateTaqContext ParsePrivateKey KeyAddress AddressString AddVariable
          ctx set ks0 ks with
  | (printed, Return (ctx', Some e)) =>
      e = "E_TAQ_ERROR: No accounts configured" ∧
      e ≠ "E_TAQ_ERROR: No default account specified" ∧
      (ctx', printed) = (ctx, []) ∧
      (size (ConfigAccounts (Config set)) = 0%nat ∨
       size (Accounts (ConfigEnv set)) = 0%nat)
  | (_, Return (_, None)) | (_, Panic) =>
      size (ConfigAccounts (Config set)) ≠ 0%nat ∧
      size (Accounts (ConfigEnv set)) ≠ 0%nat
  end.
Proof.
  destruct (UpdateTaqContext_cases ctx set ks0 ks)
    as [[Hz ->]|(Hs1 & Hs2 & [(pr & -> & _)|(pr & c & -> & _)])]; done.
Qed.







(** The account the loop builds for the default account, if its key has an
    address. *)
Definition base_of (acct : TaqEnvAccount) : option (@Account PrivateKey Address) :=
  let sk := (ParsePrivateKey (TrimPrefix (SecretKey acct) "unencrypted:")).1 in
  (λ address, mkAccount address sk (-1)) <$> KeyAddress sk.

Section Frame.

(** [AddVariable] is declared outside these sources; it is taken not to
    assign [BaseAccount]. *)
Hypothesis AddVariable_base :
  ∀ k v (c : Ctx), BaseAccount (AddVariable k v c) = BaseAccount c.

Lemma mapAccount_base accounts dflt (st st' : State) name p :
  body accounts dflt st name = (p, Return st') →
  match accounts !! name with
  | Some acct => if decide (name = dflt)
                 then base_of acct = Some (BaseAccount (ms_ctx st'))
                 else BaseAccount (ms_ctx st') = BaseAccount (ms_ctx st)
  | None => st' = st
  end.
Proof.
  unfold mapAccount, base_of. destruct (accounts !! name) as [acct|].
  2:{ by intros [= _ ->]. }
  destruct (ParsePrivateKey _) as [sk err]. cbn [fst].
  destruct (KeyAddress sk) as [addr|]; [|done].
  cbv zeta. intros [= _ <-]. cbn [ms_ctx].
  rewrite AddVariable_base. cbn [BaseAccount fmap option_fmap option_map].
  unfold getAccountId, isDefaultAccount.
  destruct (decide (name = dflt)) as [->|Hne].
  - by rewrite String.eqb_refl.
  - apply String.eqb_neq in Hne. by rewrite Hne.
Qed.

Lemma mapAccounts_base accounts dflt ks : ∀ (st st' : State) p,
  loop accounts dflt st ks = (p, Return st') →
  match accounts !! dflt with
  | Some acct => if decide (dflt ∈ ks)
                 then base_of acct = Some (BaseAccount (ms_ctx st'))
                 else BaseAccount (ms_ctx st') = BaseAccount (ms_ctx st)
  | None => BaseAccount (ms_ctx st') = BaseAccount (ms_ctx st)
  end.
Proof.
  induction ks as [|name ks IH]; intros st st' p Hloop.
  - cbn [mapAccounts] in Hloop. injection Hloop as _ <-.
    destruct (accounts !! dflt); [|done].
    destruct (decide (dflt ∈ [])) as [Hin|_]; [|done].
    by apply elem_of_nil in Hin.
  - cbn [mapAccounts] in Hloop.
    destruct (body accounts dflt st name) as [p1 [|st1]] eqn:Hbody; [done|].
    destruct (loop accounts dflt st1 ks) as [more out] eqn:Hrest.
    injection Hloop as _ ->.
    pose proof (IH st1 st' more Hrest) as Htail.
    pose proof (mapAccount_base accounts dflt st st1 name p1 Hbody) as Hhead.
    destruct (decide (name = dflt)) as [->|Hne].
    + destruct (accounts !! dflt) as [acct|].
      * rewrite (decide_True (P := dflt ∈ dflt :: ks)) by (by left).
        destruct (decide (dflt ∈ ks)); [done|]. by rewrite Htail.
      * by subst st1.
    + assert (BaseAccount (ms_ctx st1) = BaseAccount (ms_ctx st)) as Hsame.
      { destruct (accounts !! name); [done|by subst st1]. }
      assert (dflt ∈ name :: ks ↔ dflt ∈ ks) as Hiff.
      { rewrite elem_of_cons. split; [intros [?|?]; [congruence|done]|by right]. }
      destruct (accounts !! dflt) as [acct|]; [|by rewrite Htail].
      destruct (decide (dflt ∈ ks)) as [Hin|Hnin].
      * by rewrite decide_True by (by apply Hiff).
      * rewrite decide_False by (by rewrite Hiff). by rewrite Htail.
Qed.

(** X19. The base account.  With both account maps non-empty,
    [UpdateTaqContext] either panics, and then the loop has visited an
    account for whose key value [sk.Address()] panics, or returns no error;
    and then the base account is the account built for the default name,
    with Id -1, when that name is an account of the environment that the
    loop visits, and otherwise the one the context had: a configured default
    that names no account of the environment is not reported. *)
Theorem default_account_is_base (ctx : Ctx) set ks0 ks :
  size (ConfigAccounts (Config set)) ≠ 0%nat →
  size (Accounts (ConfigEnv set)) ≠ 0%nat →
  match (UpdateTaqContext ParsePrivateKey KeyAddress AddressString AddVariable
           ctx set ks0 ks).2 with
  | Panic => ∃ name, name ∈ ks ∧ no_address (Accounts (ConfigEnv set)) name
  | Return (ctx', err) =>
      err = None ∧
      (∀ name, name ∈ ks → ¬ no_address (Accounts (ConfigEnv set)) name) ∧
      match Accounts (ConfigEnv set) !! chosen_default (ConfigEnv set) ks0 with
      | Some acct =>
          if decide (chosen_default (ConfigEnv set) ks0 ∈ ks)
          then base_of acct = Some (BaseAccount ctx')
          else BaseAccount ctx' = BaseAccount ctx
      | None => BaseAccount ctx' = BaseAccount ctx
      end
  end.
Proof.
  intros Hs1 Hs2.
  destruct (UpdateTaqContext_cases ctx set ks0 ks)
    as [[[Hz|Hz] _]|(_ & _ & [(pr & -> & _ & Hno)|(pr & c & -> & Hmap)])];
    [done|done|done|].
  cbn [snd]. split; [done|]. split.
  { intros name Hin Hno.
    assert ((map_accounts ctx (Accounts (ConfigEnv set))
               (chosen_default (ConfigEnv set) ks0) ks).2 = Panic) as Hp.
    { apply ComposeFacts.map_accounts_panic. eauto. }
    by rewrite Hmap in Hp. }
  unfold mapTaqEnvAccountToContextAccount in Hmap.
  destruct (loop _ _ _ ks) as [p [|st']] eqn:Hloop; [done|].
  injection Hmap as _ <-.
  exact (mapAccounts_base _ _ ks _ st' p Hloop).
Qed.

(** Likewise, [AddVariable] is taken not to assign [Accounts]. *)
Hypothesis AddVariable_accounts :
  ∀ k v (c : Ctx), CtxAccounts (AddVariable k v c) = CtxAccounts c.

Lemma mapAccounts_app accounts dflt l1 l2 : ∀ st : State,
  loop accounts dflt st (l1 ++ l2) =
  match loop accounts dflt st l1 with
  | (p, Panic) => (p, Panic)
  | (p, Return st1) =>
      let '(more, out) := loop accounts dflt st1 l2 in (p ++ more, out)
  end.
Proof.
  induction l1 as [|name l1 IH]; intros st.
  - cbn [app mapAccounts]. by destruct (loop accounts dflt st l2).
  - cbn [app mapAccounts].
    destruct (body accounts dflt st name) as [p [|st1]]; [done|].
    rewrite IH. destruct (loop accounts dflt st1 l1) as [p' [|st2]]; [done|].
    destruct (loop accounts dflt st2 l2) as [more out].
    by rewrite app_assoc.
Qed.

Lemma mapAccounts_count accounts dflt ks : ∀ (st st' : State) p,
  loop accounts dflt st ks = (p, Return st') →
  Forall (λ k, is_Some (accounts !! k)) ks →
  0 ≤ ms_count st →
  ms_count st + Z.of_nat (length ks) ≤ int_max →
  ms_count st' = ms_count st + Z.of_nat (length ks).
Proof.
  induction ks as [|k ks IH]; intros st st' p Hloop Hall Hpos Hmax.
  - cbn [mapAccounts] in Hloop. injection Hloop as _ <-. simpl. lia.
  - apply Forall_cons in Hall as [[acct Hk] Hall].
    cbn [mapAccounts] in Hloop.
    destruct (body accounts dflt st k) as [p1 [|st1]] eqn:Hbody; [done|].
    destruct (loop accounts dflt st1 ks) as [more out] eqn:Hrest.
    injection Hloop as _ ->.
    assert (ms_count st1 = ms_count st + 1) as Hone.
    { unfold mapAccount in Hbody. rewrite Hk in Hbody.
      destruct (ParsePrivateKey _) as [sk err].
      destruct (KeyAddress sk); [|done]. injection Hbody as _ <-.
      cbn [ms_count]. apply int_incr_small.
      rewrite length_cons in Hmax. lia. }
    rewrite (IH st1 st' more Hrest Hall); rewrite length_cons in *; lia.
Qed.

(** X20. Which account an address holds, and with which Id.  Let the loop
    visit the accounts [ks] and then [name], all of them accounts of the
    environment.  Either it panics, having visited an account for whose key
    value [sk.Address()] panics, or the context it leaves holds, under the
    address of [name]'s key, the account built for [name], whatever was
    stored there before, and its Id is -1 if [name] is the default account
    and otherwise one more than the number of accounts visited before it,
    the default account included: the Id depends on the order of the
    [range]. *)
Theorem account_of_last_visit (ctx : Ctx) accounts dflt ks name acct :
  Forall (λ k, is_Some (accounts !! k)) ks →
  Z.of_nat (length ks) < int_max →
  accounts !! name = Some acct →
  let sk := (ParsePrivateKey (TrimPrefix (SecretKey acct) "unencrypted:")).1 in
  match (mapTaqEnvAccountToContextAccount ParsePrivateKey KeyAddress
           AddressString AddVariable ctx accounts dflt (ks ++ [name])).2 with
  | Panic => ∃ k, k ∈ ks ++ [name] ∧ no_address accounts k
  | Return ctx' =>
      ∃ address, KeyAddress sk = Some address ∧
        CtxAccounts ctx' !! address
        = Some (mkAccount address sk
                  (if decide (name = dflt) then -1
                   else 1 + Z.of_nat (length ks)))
  end.
Proof.
  intros Hall Hlen Hacct sk.
  pose proof (ComposeFacts.map_accounts_panic ParsePrivateKey KeyAddress
                AddressString AddVariable ctx accounts dflt (ks ++ [name]))
    as Hpanic.
  destruct (map_accounts ctx accounts dflt (ks ++ [name])) as [pr [|ctx']]
    eqn:Hmap; cbn [snd] in *; [by apply Hpanic|].
  clear Hpanic. unfold mapTaqEnvAccountToContextAccount in Hmap.
  rewrite mapAccounts_app in Hmap.
  destruct (loop accounts dflt (mkMapState ctx 1) ks) as [p [|st1]] eqn:Hloop;
    [done|].
  assert (ms_count st1 = 1 + Z.of_nat (length ks)) as Hcount.
  { apply (mapAccounts_count accounts dflt ks _ st1 p Hloop Hall);
      cbn [ms_count]; lia. }
  cbn [mapAccounts] in Hmap. unfold mapAccount in Hmap. rewrite Hacct in Hmap.
  subst sk. destruct (ParsePrivateKey _) as [sk err]. cbn [fst].
  destruct (KeyAddress sk) as [addr|]; [|done].
  cbv zeta in Hmap. injection Hmap as _ <-.
  exists addr. split; [done|]. cbn [ms_ctx].
  rewrite AddVariable_accounts. cbn [CtxAccounts AccAddress].
  replace (CtxAccounts (if isDefaultAccount name dflt then _ else ms_ctx st1))
    with (CtxAccounts (ms_ctx st1)) by (by destruct (isDefaultAccount name dflt)).
  rewrite lookup_insert_eq. f_equal. f_equal.
  unfold getAccountId, isDefaultAccount.
  destruct (decide (name = dflt)) as [->|Hne].
  - by rewrite String.eqb_refl.
  - apply String.eqb_neq in Hne. rewrite Hne, Hcount. done.
Qed.

End Frame.

End GlueCoverage.

(** The concrete setting, with the documents of [ComposeScenario]. *)
Local Abbreviation scenario_context :=
  (NewTaqContext ComposeScenario.decode_project
     ComposeScenario.decode_environment ComposeScenario.parse
     ComposeScenario.address (λ a, a) ComposeScenario.add_variable
     ComposeScenario.empty_context).
Local Abbreviation scenario_update :=
  (UpdateTaqContext ComposeScenario.parse ComposeScenario.address (λ a, a)
     ComposeScenario.add_variable).
Local Abbreviation scenario_map :=
  (mapTaqEnvAccountToContextAccount ComposeScenario.parse
     ComposeScenario.address (λ a, a) ComposeScenario.add_variable).
Local Abbreviation scenario_no_address :=
  (ComposeFacts.no_address ComposeScenario.parse ComposeScenario.address).

Lemma NewTaqContext_errors_witness :
  let args := ["tzcompose"; "-taqconfig"; "{project}"] in
  scenario_context args ["alice"] ["alice"]
    = ([], Return (Err together_error)) ∧
  together_error ∈ taq_errors ∧
  HasPrefix together_error "E_TAQ_ERROR: " = true ∧
  together_error ≠ "E_TAQ_ERROR: No default account specified" ∧
  @nil PrintCall = [].
Proof.
  intros args.
  assert (scenario_context args ["alice"] ["alice"]
          = ([], Return (Err together_error))) as H1 by (vm_compute; reflexivity).
  split; [assumption|].
  exact (NewTaqContext_errors ComposeScenario.decode_project
           ComposeScenario.decode_environment ComposeScenario.parse
           ComposeScenario.address (λ a, a) ComposeScenario.add_variable
           ComposeScenario.empty_context args ["alice"] ["alice"] _ _ H1).
Defined.

(** The context built from the environment whose keys parse: [alice] is
    visited first and gets Id 1, [bob] is the default account. *)
Definition keyed_context : @Context string string _ _ :=
  mkContext (mkAccount "tz1:edskBob" "edskBob" (-1))
    {[ "tz1:edskAlice" := mkAccount "tz1:edskAlice" "edskAlice" 1;
       "tz1:edskBob" := mkAccount "tz1:edskBob" "edskBob" (-1) ]}
    {[ "alice" := "tz1:edskAlice"; "bob" := "tz1:edskBob" ]}.

Lemma NewTaqContext_success_witness :
  let args :=
    ["tzcompose"; "-taqconfig"; "{project}"; "-taqconfigenv"; "{keyed}"] in
  let ks := ["alice"; "bob"] in
  scenario_context args ks ks = ([], Return (Ok keyed_context)) ∧
  ((IsFlagSpecified args "taqconfig" = false ∧
    IsFlagSpecified args "taqconfigenv" = false ∧
    keyed_context = ComposeScenario.empty_context ∧ @nil PrintCall = []) ∨
   (∃ a b config env,
      getFlagValue args "taqconfig" = Return a ∧
      getFlagValue args "taqconfigenv" = Return b ∧
      a ≠ "" ∧ b ≠ "" ∧
      ComposeScenario.decode_project a = Some config ∧
      ComposeScenario.decode_environment b = Some env ∧
      size (ConfigAccounts config) ≠ 0%nat ∧ size (Accounts env) ≠ 0%nat ∧
      scenario_update ComposeScenario.empty_context (mkTaqConfigSet config env)
        ks ks = ([], Return (keyed_context, None)))).
Proof.
  intros args ks.
  assert (scenario_context args ks ks = ([], Return (Ok keyed_context)))
    as H1 by (vm_compute; reflexivity).
  split; [assumption|].
  exact (NewTaqContext_success ComposeScenario.decode_project
           ComposeScenario.decode_environment ComposeScenario.parse
           ComposeScenario.address (λ a, a) ComposeScenario.add_variable
           ComposeScenario.empty_context args ks ks keyed_context [] H1).
Defined.

(** A key that does not parse: one call of [println], then the panic. *)
Example bad_key_prints_then_panics :
  scenario_map ComposeScenario.empty_context
    (Accounts ComposeScenario.environment) "alice" ["alice"]
  = ([PrintlnError "tezos: invalid private key"], Panic).
Proof. vm_compute. reflexivity. Qed.

Lemma default_account_is_base_witness :
  let set := mkTaqConfigSet ComposeScenario.project
               ComposeScenario.keyed_environment in
  let ks := ["alice"; "bob"] in
  (∀ k v c, BaseAccount (ComposeScenario.add_variable k v c) = BaseAccount c) ∧
  size (ConfigAccounts (Config set)) ≠ 0%nat ∧
  size (Accounts (ConfigEnv set)) ≠ 0%nat ∧
  scenario_update ComposeScenario.empty_context set ks ks
    = ([], Return (keyed_context, None)) ∧
  match (scenario_update ComposeScenario.empty_context set ks ks).2 with
  | Panic => ∃ name, name ∈ ks ∧ scenario_no_address (Accounts (ConfigEnv set)) name
  | Return (ctx', err) =>
      err = None ∧
      (∀ name, name ∈ ks →
         ¬ scenario_no_address (Accounts (ConfigEnv set)) name) ∧
      match Accounts (ConfigEnv set)
              !! ComposeFacts.chosen_default (ConfigEnv set) ks with
      | Some acct =>
          if decide (ComposeFacts.chosen_default (ConfigEnv set) ks ∈ ks)
          then base_of ComposeScenario.parse ComposeScenario.address acct
               = Some (BaseAccount ctx')
          else BaseAccount ctx' = BaseAccount ComposeScenario.empty_context
      | None => BaseAccount ctx' = BaseAccount ComposeScenario.empty_context
      end
  end.
Proof.
  intros set ks.
  assert (∀ k v c, BaseAccount (ComposeScenario.add_variable k v c)
                   = BaseAccount c) as H1 by (intros k v c; reflexivity).
  assert (size (ConfigAccounts (Config set)) ≠ 0%nat) as H2
    by (vm_compute; intros Hz; discriminate Hz).
  assert (size (Accounts (ConfigEnv set)) ≠ 0%nat) as H3
    by (vm_compute; intros Hz; discriminate Hz).
  assert (scenario_update ComposeScenario.empty_context set ks ks
          = ([], Return (keyed_context, None))) as H4
    by (vm_compute; reflexivity).
  do 4 (split; [assumption|]).
  exact (default_account_is_base ComposeScenario.parse ComposeScenario.address
           (λ a, a) ComposeScenario.add_variable H1
           ComposeScenario.empty_context set ks ks H2 H3).
Defined.

(** Two accounts with one secret key: both map to one address. *)
Definition one_key_twice : gmap string TaqEnvAccount :=
  {[ "alice" := mkTaqEnvAccount "" "tz1alice" "unencrypted:edskShared";
     "bob" := mkTaqEnvAccount "" "tz1bob" "edskShared" ]}.

Lemma account_of_last_visit_witness :
  let bob := mkTaqEnvAccount "" "tz1bob" "edskShared" in
  let sk := (ComposeScenario.parse
               (TrimPrefix (SecretKey bob) "unencrypted:")).1 in
  (∀ k v c, CtxAccounts (ComposeScenario.add_variable k v c) = CtxAccounts c) ∧
  Forall (λ k, is_Some (one_key_twice !! k)) ["alice"] ∧
  Z.of_nat (length ["alice"]) < int_max ∧
  one_key_twice !! "bob" = Some bob ∧
  match (scenario_map ComposeScenario.empty_context one_key_twice "alice"
           (["alice"] ++ ["bob"])).2 with
  | Panic => ∃ k, k ∈ ["alice"] ++ ["bob"] ∧ scenario_no_address one_key_twice k
  | Return ctx' =>
      ∃ address, ComposeScenario.address sk = Some address ∧
        CtxAccounts ctx' !! address
        = Some (mkAccount address sk
                  (if decide ("bob" = "alice") then -1
                   else 1 + Z.of_nat (length ["alice"])))
  end.
Proof.
  intros bob sk.
  assert (∀ k v c, CtxAccounts (ComposeScenario.add_variable k v c)
                   = CtxAccounts c) as H1 by (intros k v c; reflexivity).
  assert (Forall (λ k, is_Some (one_key_twice !! k)) ["alice"]) as H2.
  { apply Forall_cons. split; [|apply Forall_nil; exact I].
    eexists. vm_compute. reflexivity. }
  assert (Z.of_nat (length ["alice"]) < int_max) as H3
    by (vm_compute; reflexivity).
  assert (one_key_twice !! "bob" = Some bob) as H4 by (vm_compute; reflexivity).
  do 4 (split; [assumption|]).
  exact (account_of_last_visit ComposeScenario.parse ComposeScenario.address
           (λ a, a) ComposeScenario.add_variable H1
           ComposeScenario.empty_context one_key_twice "alice" ["alice"] "bob"
           bob H2 H3 H4).
Defined.

(** The same loop, read off: it returns, [alice] is the base account with
    Id -1, and the one entry of [Accounts] is [bob]'s, with Id 2. *)
Example colliding_addresses :
  scenario_map ComposeScenario.empty_context one_key_twice "alice"
    ["alice"; "bob"]
  = ([], Return (mkContext (mkAccount "tz1:edskShared" "edskShared" (-1))
                   {[ "tz1:edskShared" := mkAccount "tz1:edskShared" "edskShared" 2 ]}
                   {[ "alice" := "tz1:edskShared"; "bob" := "tz1:edskShared" ]})).
Proof. vm_compute. reflexivity. Qed.

End ComposeCoverage.
